(** * Multi-function procedures: data model, validator and block discovery

    A shallow embedding of [source/blender/functions/intern/multi_function_procedure.cc].

    Instructions and variables live in an arena and refer to each other by
    pointer.  The arena is a finite map from addresses to objects, a pointer is
    an address, and a nullable pointer is an [option].  Dereferencing an
    address that is not in the arena, indexing a vector out of range, or
    failing a [BLI_assert] is undefined behaviour: the functions below return
    [None] there. *)

From Stdlib Require Import Permutation Ascii.
From stdpp Require Import base option list gmap sets strings pretty.

#[local] Set Warnings "-clear-no-such-hyp".

(** ** Pointers and the externally supplied multi-function interface

    The classes of the data model are declared in the header of this file and
    in the headers of the multi-function interface, which are not part of the
    sources.  The records below have the members that
    [multi_function_procedure.cc] reads and writes, under their names there. *)

Abbreviation InstrPtr := nat (only parsing).
Abbreviation VarPtr := nat (only parsing).
Abbreviation MFDataType := nat (only parsing).

(** Modelled from the spec: [MFParamType::InterfaceType], "one of [Input],
    [Mutable], [Output]". *)
Inductive InterfaceType := Input | Mutable | Output.

#[global] Instance InterfaceType_eq_dec : EqDecision InterfaceType.
Proof. solve_decision. Defined.

(** Modelled from the spec: [MFParamType], the "pair of data type and role". *)
Record MFParamType := {
  interface_type : InterfaceType;
  data_type : MFDataType
}.

(** Modelled from the spec: the [MultiFunction] interface, which "provides:
    name, ordered parameter list of [ParamType], total parameter count";
    [param_indices] ranges over [0 .. param_amount()], and [param_type(i)] is
    the type of parameter [i]. *)
Record MultiFunction := {
  name : string;
  param_types : list MFParamType
}.

Definition param_amount (fn : MultiFunction) : nat := length (param_types fn).
Definition param_indices (fn : MultiFunction) : list nat := seq 0 (param_amount fn).
Definition param_type (fn : MultiFunction) (param_index : nat) : option MFParamType :=
  param_types fn !! param_index.

(** ** Variables and instructions *)

(** Modelled from the spec: the class [MFVariable] with its members [id_],
    [data_type_], [name_] and [users_], the "multiset of instructions that
    reference this variable". *)
Record MFVariable := {
  data_type_ : MFDataType;
  users_ : list InstrPtr;
  name_ : string;
  id_ : nat
}.

Inductive MFInstructionType := Call | Branch | Destruct | Dummy | Return.

#[global] Instance MFInstructionType_eq_dec : EqDecision MFInstructionType.
Proof. solve_decision. Defined.

(** Modelled from the spec: the instruction is a "tagged variant over five
    kinds".  These are the members of the five classes [MFCallInstruction],
    [MFBranchInstruction], [MFDestructInstruction], [MFDummyInstruction] and
    [MFReturnInstruction] beyond those of their base class. *)
Inductive MFPayload :=
  | CallData (fn_ : MultiFunction) (next_ : option InstrPtr) (params_ : list (option VarPtr))
  | BranchData (condition_ : option VarPtr) (branch_true_ branch_false_ : option InstrPtr)
  | DestructData (variable_ : option VarPtr) (next_ : option InstrPtr)
  | DummyData (next_ : option InstrPtr)
  | ReturnData.

(** Modelled from the spec: the base class [MFInstruction] with the "common
    [prev] list"; [type_] is the tag of the payload. *)
Record MFInstruction := {
  prev_ : list InstrPtr;
  payload : MFPayload
}.

Definition payload_type (payload : MFPayload) : MFInstructionType :=
  match payload with
  | CallData _ _ _ => Call
  | BranchData _ _ _ => Branch
  | DestructData _ _ => Destruct
  | DummyData _ => Dummy
  | ReturnData => Return
  end.

Definition type_ (instruction : MFInstruction) : MFInstructionType :=
  payload_type (payload instruction).

(** Modelled from the spec: [MFParameter], an entry of the "ordered sequence
    of ([ParamRole], [Variable])". *)
Record MFParameter := {
  type : InterfaceType;
  variable : VarPtr
}.

#[global] Instance MFParameter_eq_dec : EqDecision MFParameter.
Proof. solve_decision. Defined.

(** Modelled from the spec: the class [MFProcedure], which "owns all variables
    and instructions" ([instructions] and [variable_store] are what its
    allocator holds) and has the variables in insertion order, "five
    insertion-ordered instruction lists (one per kind)", the parameters and
    the entry. *)
Record MFProcedure := {
  instructions : gmap nat MFInstruction;
  variable_store : gmap nat MFVariable;
  call_instructions_ : list InstrPtr;
  branch_instructions_ : list InstrPtr;
  destruct_instructions_ : list InstrPtr;
  dummy_instructions_ : list InstrPtr;
  return_instructions_ : list InstrPtr;
  variables_ : list VarPtr;
  params_ : list MFParameter;
  entry_ : option InstrPtr
}.

(** The macro [ELEM(a, b, c)]: [a] is one of the candidates. *)
Definition ELEM {A} `{EqDecision A} (a : A) (candidates : list A) : bool :=
  bool_decide (a ∈ candidates).

(** ** Control flow with early exit

    A [for] loop over [xs] whose body either lets the loop go on ([Some true]),
    makes the enclosing function [return false] ([Some false]), or is
    undefined ([None]). *)
Fixpoint for_all {A} (body : A → option bool) (xs : list A) : option bool :=
  match xs with
  | [] => Some true
  | x :: rest => ok ← body x; if ok : bool then for_all body rest else Some false
  end.

(** A [for] loop that is left with [break] as soon as [body] finds what it
    looks for. *)
Fixpoint for_any {A} (body : A → option bool) (xs : list A) : option bool :=
  match xs with
  | [] => Some false
  | x :: rest => found ← body x; if found : bool then Some true else for_any body rest
  end.

(** [if (!first) return false; ... second] *)
Definition and_then (first second : option bool) : option bool :=
  ok ← first; if ok : bool then second else Some false.

(** ** The initialization analysis *)

(** Modelled from the spec: [MFProcedure::InitState], the "two-bit init state". *)
Record InitState := {
  can_be_initialized : bool;
  can_be_uninitialized : bool
}.

(** Modelled from the spec: "initialize the state to [(false, false)]". *)
Definition InitState_default : InitState :=
  {| can_be_initialized := false; can_be_uninitialized := false |}.

Definition set_can_be_initialized (state : InitState) : InitState :=
  {| can_be_initialized := true; can_be_uninitialized := can_be_uninitialized state |}.

Definition set_can_be_uninitialized (state : InitState) : InitState :=
  {| can_be_initialized := can_be_initialized state; can_be_uninitialized := true |}.

(** The loop of the lambda [check_entry_instruction]. *)
Definition caller_initialized_variable (p : MFProcedure) (target_variable : VarPtr) : bool :=
  existsb (λ param, bool_decide (variable param = target_variable)
                    && ELEM (type param) [Input; Mutable]) (params_ p).

Definition check_entry_instruction (p : MFProcedure) (target_variable : VarPtr)
    (state : InitState) : InitState :=
  if caller_initialized_variable p target_variable
  then set_can_be_initialized state
  else set_can_be_uninitialized state.

(** Modelled from the spec: [Stack::push_multiple] of the container library,
    by which the search will "push [P.prev] onto the worklist".  The elements
    are pushed in their order, so the last one ends up on top; the head of the
    list is the top of the stack. *)
Definition push_multiple {A} (values : list A) (stack : list A) : list A :=
  fold_left (λ s x, x :: s) values stack.

(** The [Call] case of the switch: does some parameter slot hold the target
    variable with interface type [Output]? *)
Definition call_outputs_variable (fn : MultiFunction) (params : list (option VarPtr))
    (target_variable : VarPtr) : option bool :=
  for_any (λ param_index,
             slot ← params !! param_index;
             if bool_decide (slot = Some target_variable) then
               param_type ← param_type fn param_index;
               Some (bool_decide (interface_type param_type = Output))
             else Some false)
          (param_indices fn).

(** The switch on [instruction.type_]: the new state and [state_modified]. *)
Definition examine_instruction (instruction : MFInstruction) (target_variable : VarPtr)
    (state : InitState) : option (InitState * bool) :=
  match payload instruction with
  | CallData fn _ params =>
      writes ← call_outputs_variable fn params target_variable;
      Some (if writes : bool then (set_can_be_initialized state, true) else (state, false))
  | DestructData variable _ =>
      Some (if bool_decide (variable = Some target_variable)
            then (set_can_be_uninitialized state, true)
            else (state, false))
  | BranchData _ _ _ | DummyData _ | ReturnData => Some (state, false)
  end.

(** The body of the loop for the instruction [top] that was just popped: the
    new set of checked instructions, the new stack and the new state. *)
Definition search_iteration (p : MFProcedure) (target_variable : VarPtr)
    (checked_instructions : gset nat) (top : InstrPtr) (instructions_to_check : list InstrPtr)
    (state : InitState) : option (gset nat * list InstrPtr * InitState) :=
  if decide (top ∈ checked_instructions) then
    (* Skip if the instruction has been checked already. *)
    Some (checked_instructions, instructions_to_check, state)
  else
    let checked_instructions := {[top]} ∪ checked_instructions in
    instruction ← instructions p !! top;
    '(state, state_modified) ← examine_instruction instruction target_variable state;
    if state_modified : bool then
      Some (checked_instructions, instructions_to_check, state)
    else
      let state := if decide (entry_ p = Some top)
                   then check_entry_instruction p target_variable state
                   else state in
      Some (checked_instructions,
            push_multiple (prev_ instruction) instructions_to_check, state).

(** The [while (!instructions_to_check.is_empty())] loop.  [fuel] bounds the
    number of iterations; [None] also stands for running out of it. *)
Fixpoint search (fuel : nat) (p : MFProcedure) (target_variable : VarPtr)
    (checked_instructions : gset nat) (instructions_to_check : list InstrPtr)
    (state : InitState) : option InitState :=
  match fuel with
  | 0 => None
  | S fuel =>
      match instructions_to_check with
      | [] => Some state
      | top :: instructions_to_check =>
          '(checked_instructions, instructions_to_check, state) ←
            search_iteration p target_variable checked_instructions top
                             instructions_to_check state;
          search fuel p target_variable checked_instructions instructions_to_check state
      end
  end.

(** The sum of the sizes of the [prev_] vectors of the instructions in [m]. *)
Definition prev_weight (m : gmap nat MFInstruction) : nat :=
  map_fold (λ _ instruction n, length (prev_ instruction) + n) 0 m.

(** Enough iterations for every push to be popped again. *)
Definition search_fuel (p : MFProcedure) (target : MFInstruction) : nat :=
  S (length (prev_ target) + prev_weight (instructions p)).

Arguments search_fuel : simpl never.

Definition find_initialization_state_before_instruction (p : MFProcedure)
    (target_instruction : InstrPtr) (target_variable : VarPtr) : option InitState :=
  target ← instructions p !! target_instruction;
  let state := InitState_default in
  let state := if decide (entry_ p = Some target_instruction)
               then check_entry_instruction p target_variable state
               else state in
  search (search_fuel p target) p target_variable ∅
         (push_multiple (prev_ target) []) state.

(** ** The validator *)

Definition nonnull {A} (pointer : option A) : bool :=
  match pointer with Some _ => true | None => false end.

(** Dereferencing a [const MFCallInstruction *] (and likewise for the other
    instruction classes): the object at that address has to be of that class. *)
Definition call_instruction (p : MFProcedure) (instruction : InstrPtr)
    : option (MultiFunction * option InstrPtr * list (option VarPtr)) :=
  object ← instructions p !! instruction;
  match payload object with
  | CallData fn next params => Some (fn, next, params)
  | _ => None
  end.

Definition branch_instruction (p : MFProcedure) (instruction : InstrPtr)
    : option (option VarPtr * option InstrPtr * option InstrPtr) :=
  object ← instructions p !! instruction;
  match payload object with
  | BranchData condition branch_true branch_false => Some (condition, branch_true, branch_false)
  | _ => None
  end.

Definition destruct_instruction (p : MFProcedure) (instruction : InstrPtr)
    : option (option VarPtr * option InstrPtr) :=
  object ← instructions p !! instruction;
  match payload object with
  | DestructData variable next => Some (variable, next)
  | _ => None
  end.

Definition dummy_instruction (p : MFProcedure) (instruction : InstrPtr)
    : option (option InstrPtr) :=
  object ← instructions p !! instruction;
  match payload object with
  | DummyData next => Some next
  | _ => None
  end.

Definition validate_all_instruction_pointers_set (p : MFProcedure) : option bool :=
  and_then
    (for_all (λ instruction,
                '(_, next, _) ← call_instruction p instruction;
                Some (nonnull next))
             (call_instructions_ p))
 (and_then
    (for_all (λ instruction,
                '(_, next) ← destruct_instruction p instruction;
                Some (nonnull next))
             (destruct_instructions_ p))
 (and_then
    (for_all (λ instruction,
                '(_, branch_true, branch_false) ← branch_instruction p instruction;
                Some (nonnull branch_true && nonnull branch_false))
             (branch_instructions_ p))
    (for_all (λ instruction,
                next ← dummy_instruction p instruction;
                Some (nonnull next))
             (dummy_instructions_ p)))).

Definition validate_all_params_provided (p : MFProcedure) : option bool :=
  and_then
    (for_all (λ instruction,
                '(_, _, params) ← call_instruction p instruction;
                for_all (λ variable : option VarPtr, Some (nonnull variable)) params)
             (call_instructions_ p))
 (and_then
    (for_all (λ instruction,
                '(condition, _, _) ← branch_instruction p instruction;
                Some (nonnull condition))
             (branch_instructions_ p))
    (for_all (λ instruction,
                '(variable, _) ← destruct_instruction p instruction;
                Some (nonnull variable))
             (destruct_instructions_ p))).

(** The two nested loops over [fn.param_indices()] for one call instruction. *)
Definition same_variables_in_call (fn : MultiFunction) (params : list (option VarPtr))
    : option bool :=
  for_all (λ param_index,
    param_type' ← param_type fn param_index;
    variable ← params !! param_index;
    for_all (λ other_param_index,
      if decide (other_param_index = param_index) then Some true
      else
        other_variable ← params !! other_param_index;
        if decide (other_variable ≠ variable) then Some true
        else if ELEM (interface_type param_type') [Mutable; Output] then
          (* When a variable is used as mutable or output parameter, it can
             only be used once. *)
          Some false
        else
          other_param_type ← param_type fn other_param_index;
          (* A variable is allowed to be used as input more than once. *)
          Some (bool_decide (interface_type other_param_type = Input)))
      (param_indices fn))
    (param_indices fn).

Definition validate_same_variables_in_one_call (p : MFProcedure) : option bool :=
  for_all (λ instruction,
             '(fn, _, params) ← call_instruction p instruction;
             same_variables_in_call fn params)
          (call_instructions_ p).

(** The loop of [validate_parameters].  [Set::add] of the container library
    reports whether the key is new. *)
Fixpoint validate_parameters_from (variables : gset nat) (params : list MFParameter) : bool :=
  match params with
  | [] => true
  | param :: rest =>
      if decide (variable param ∈ variables) then false
      else validate_parameters_from ({[variable param]} ∪ variables) rest
  end.

Definition validate_parameters (p : MFProcedure) : bool :=
  validate_parameters_from ∅ (params_ p).

(** Modelled from the spec: [Set::add_new] of the container library, a set
    insertion; it asserts that the key is not in the set yet. *)
Definition Set_add_new (key : nat) (set : gset nat) : option (gset nat) :=
  if decide (key ∈ set) then None else Some ({[key]} ∪ set).

Fixpoint should_be_initialized_on_return_from (set : gset nat) (params : list MFParameter)
    : option (gset nat) :=
  match params with
  | [] => Some set
  | param :: rest =>
      set ← (if ELEM (type param) [Mutable; Output]
             then Set_add_new (variable param) set
             else Some set);
      should_be_initialized_on_return_from set rest
  end.

Definition variables_that_should_be_initialized_on_return (p : MFProcedure)
    : option (gset nat) :=
  should_be_initialized_on_return_from ∅ (params_ p).

(** The requirement on the state before a return instruction. *)
Definition return_requirement (should_be_initialized : gset nat) (variable : VarPtr)
    (init_state : InitState) : bool :=
  if decide (variable ∈ should_be_initialized)
  then can_be_initialized init_state
  else can_be_uninitialized init_state.

(** The requirement on a parameter of a call instruction. *)
Definition call_requirement (interface : InterfaceType) (state : InitState) : bool :=
  match interface with
  | Input | Mutable => can_be_initialized state
  | Output => can_be_uninitialized state
  end.

Definition validate_initialization (p : MFProcedure) : option bool :=
  and_then
    (for_all (λ instruction,
                '(variable, _) ← destruct_instruction p instruction;
                variable ← variable;
                state ← find_initialization_state_before_instruction p instruction variable;
                Some (can_be_initialized state))
             (destruct_instructions_ p))
 (and_then
    (for_all (λ instruction,
                '(condition, _, _) ← branch_instruction p instruction;
                variable ← condition;
                state ← find_initialization_state_before_instruction p instruction variable;
                Some (can_be_initialized state))
             (branch_instructions_ p))
 (and_then
    (for_all (λ instruction,
                '(fn, _, params) ← call_instruction p instruction;
                for_all (λ param_index,
                           param_type' ← param_type fn param_index;
                           slot ← params !! param_index;
                           variable ← slot;
                           state ← find_initialization_state_before_instruction
                                     p instruction variable;
                           Some (call_requirement (interface_type param_type') state))
                        (param_indices fn))
             (call_instructions_ p))
    (should_be_initialized ← variables_that_should_be_initialized_on_return p;
     for_all (λ instruction,
                for_all (λ variable,
                           init_state ← find_initialization_state_before_instruction
                                          p instruction variable;
                           Some (return_requirement should_be_initialized variable init_state))
                        (variables_ p))
             (return_instructions_ p)))).

Definition validate (p : MFProcedure) : option bool :=
  if decide (entry_ p = None) then Some false
  else
    and_then (validate_all_instruction_pointers_set p)
   (and_then (validate_all_params_provided p)
   (and_then (validate_same_variables_in_one_call p)
   (and_then (Some (validate_parameters p))
             (validate_initialization p)))).

(** ** Block discovery *)

Definition has_to_be_block_begin (p : MFProcedure) (instruction : InstrPtr) : option bool :=
  if decide (entry_ p = Some instruction) then Some true
  else
    object ← instructions p !! instruction;
    if decide (length (prev_ object) ≠ 1) then Some true
    else
      first_prev ← prev_ object !! 0;
      prev_object ← instructions p !! first_prev;
      if decide (type_ prev_object = Branch) then Some true
      else Some false.

(** ** Construction: the builder and the edge mutations *)

Definition with_instructions (p : MFProcedure) (m : gmap nat MFInstruction) : MFProcedure :=
  {| instructions := m;
     variable_store := variable_store p;
     call_instructions_ := call_instructions_ p;
     branch_instructions_ := branch_instructions_ p;
     destruct_instructions_ := destruct_instructions_ p;
     dummy_instructions_ := dummy_instructions_ p;
     return_instructions_ := return_instructions_ p;
     variables_ := variables_ p;
     params_ := params_ p;
     entry_ := entry_ p |}.

Definition with_variable_store (p : MFProcedure) (m : gmap nat MFVariable) : MFProcedure :=
  {| instructions := instructions p;
     variable_store := m;
     call_instructions_ := call_instructions_ p;
     branch_instructions_ := branch_instructions_ p;
     destruct_instructions_ := destruct_instructions_ p;
     dummy_instructions_ := dummy_instructions_ p;
     return_instructions_ := return_instructions_ p;
     variables_ := variables_ p;
     params_ := params_ p;
     entry_ := entry_ p |}.

(** Modelled from the spec: [Vector::first_index_of_try] of the container
    library, the index of the first occurrence, if there is one. *)
Fixpoint first_index_of_try (value : nat) (vector : list nat) : option nat :=
  match vector with
  | [] => None
  | x :: rest => if decide (x = value) then Some 0 else S <$> first_index_of_try value rest
  end.

(** Modelled from the spec: [Vector::remove_first_occurrence_and_reorder] of
    the container library is not part of this file.  An edge mutation "removes
    this instruction once from the target's multiset"; the element is looked
    up (asserting that it is there), and the last element of the vector is
    moved into its place. *)
Definition remove_first_occurrence_and_reorder (value : nat) (vector : list nat)
    : option (list nat) :=
  index ← first_index_of_try value vector;
  end_ ← last vector;
  Some (take (length vector - 1) (<[index := end_]> vector)).

Definition with_prev (object : MFInstruction) (prev : list InstrPtr) : MFInstruction :=
  {| prev_ := prev; payload := payload object |}.

Definition with_users (object : MFVariable) (users : list InstrPtr) : MFVariable :=
  {| data_type_ := data_type_ object; users_ := users;
     name_ := name_ object; id_ := id_ object |}.

(** [target->prev_.remove_first_occurrence_and_reorder(this)] *)
Definition prev_remove (this target : InstrPtr) (p : MFProcedure) : option MFProcedure :=
  object ← instructions p !! target;
  prev ← remove_first_occurrence_and_reorder this (prev_ object);
  Some (with_instructions p (<[target := with_prev object prev]> (instructions p))).

(** [target->prev_.append(this)] *)
Definition prev_append (this target : InstrPtr) (p : MFProcedure) : option MFProcedure :=
  object ← instructions p !! target;
  Some (with_instructions p (<[target := with_prev object (prev_ object ++ [this])]>
                               (instructions p))).

(** [target->users_.remove_first_occurrence_and_reorder(this)] *)
Definition users_remove (this : InstrPtr) (target : VarPtr) (p : MFProcedure)
    : option MFProcedure :=
  object ← variable_store p !! target;
  users ← remove_first_occurrence_and_reorder this (users_ object);
  Some (with_variable_store p (<[target := with_users object users]> (variable_store p))).

(** [target->users_.append(this)] *)
Definition users_append (this : InstrPtr) (target : VarPtr) (p : MFProcedure)
    : option MFProcedure :=
  object ← variable_store p !! target;
  Some (with_variable_store p (<[target := with_users object (users_ object ++ [this])]>
                                 (variable_store p))).

(** Assigning to members of [*this]; [prev_] of [this] is read again because
    [this] may be its own successor. *)
Definition set_payload (this : InstrPtr) (new_payload : MFPayload) (p : MFProcedure)
    : option MFProcedure :=
  object ← instructions p !! this;
  Some (with_instructions p (<[this := {| prev_ := prev_ object; payload := new_payload |}]>
                               (instructions p))).

(** [if (pointer != nullptr) { action }] *)
Definition if_nonnull {A} (pointer : option A) (action : A → MFProcedure → option MFProcedure)
    (p : MFProcedure) : option MFProcedure :=
  match pointer with
  | Some target => action target p
  | None => Some p
  end.

Definition MFCallInstruction_set_next (this : InstrPtr) (instruction : option InstrPtr)
    (p : MFProcedure) : option MFProcedure :=
  '(fn, next, params) ← call_instruction p this;
  p ← if_nonnull next (prev_remove this) p;
  p ← if_nonnull instruction (prev_append this) p;
  set_payload this (CallData fn instruction params) p.

Definition MFCallInstruction_set_param_variable (this : InstrPtr) (param_index : nat)
    (variable : option VarPtr) (p : MFProcedure) : option MFProcedure :=
  '(fn, next, params) ← call_instruction p this;
  old_variable ← params !! param_index;
  p ← if_nonnull old_variable (users_remove this) p;
  p ← if_nonnull variable
        (λ target p,
           param_type ← param_type fn param_index;
           object ← variable_store p !! target;
           (* BLI_assert(fn_->param_type(param_index).data_type() == variable->data_type()) *)
           if decide (data_type param_type = data_type_ object)
           then users_append this target p
           else None) p;
  set_payload this (CallData fn next (<[param_index := variable]> params)) p.

Fixpoint set_params_from (this : InstrPtr) (variables : list (option VarPtr))
    (index_range : list nat) (p : MFProcedure) : option MFProcedure :=
  match index_range with
  | [] => Some p
  | i :: rest =>
      variable ← variables !! i;
      p ← MFCallInstruction_set_param_variable this i variable p;
      set_params_from this variables rest p
  end.

Definition MFCallInstruction_set_params (this : InstrPtr) (variables : list (option VarPtr))
    (p : MFProcedure) : option MFProcedure :=
  '(_, _, params) ← call_instruction p this;
  (* BLI_assert(variables.size() == params_.size()) *)
  if decide (length variables = length params)
  then set_params_from this variables (seq 0 (length variables)) p
  else None.

Definition MFBranchInstruction_set_condition (this : InstrPtr) (variable : option VarPtr)
    (p : MFProcedure) : option MFProcedure :=
  '(condition, branch_true, branch_false) ← branch_instruction p this;
  p ← if_nonnull condition (users_remove this) p;
  p ← if_nonnull variable (users_append this) p;
  set_payload this (BranchData variable branch_true branch_false) p.

Definition MFBranchInstruction_set_branch_true (this : InstrPtr)
    (instruction : option InstrPtr) (p : MFProcedure) : option MFProcedure :=
  '(condition, branch_true, branch_false) ← branch_instruction p this;
  p ← if_nonnull branch_true (prev_remove this) p;
  p ← if_nonnull instruction (prev_append this) p;
  set_payload this (BranchData condition instruction branch_false) p.

Definition MFBranchInstruction_set_branch_false (this : InstrPtr)
    (instruction : option InstrPtr) (p : MFProcedure) : option MFProcedure :=
  '(condition, branch_true, branch_false) ← branch_instruction p this;
  p ← if_nonnull branch_false (prev_remove this) p;
  p ← if_nonnull instruction (prev_append this) p;
  set_payload this (BranchData condition branch_true instruction) p.

Definition MFDestructInstruction_set_variable (this : InstrPtr) (variable : option VarPtr)
    (p : MFProcedure) : option MFProcedure :=
  '(old_variable, next) ← destruct_instruction p this;
  p ← if_nonnull old_variable (users_remove this) p;
  p ← if_nonnull variable (users_append this) p;
  set_payload this (DestructData variable next) p.

Definition MFDestructInstruction_set_next (this : InstrPtr) (instruction : option InstrPtr)
    (p : MFProcedure) : option MFProcedure :=
  '(variable, next) ← destruct_instruction p this;
  p ← if_nonnull next (prev_remove this) p;
  p ← if_nonnull instruction (prev_append this) p;
  set_payload this (DestructData variable instruction) p.

Definition MFDummyInstruction_set_next (this : InstrPtr) (instruction : option InstrPtr)
    (p : MFProcedure) : option MFProcedure :=
  next ← dummy_instruction p this;
  p ← if_nonnull next (prev_remove this) p;
  p ← if_nonnull instruction (prev_append this) p;
  set_payload this (DummyData instruction) p.


(** ** Specification vocabulary *)

(** Every pointer that the validator follows is live and points to an object
    of the class its static type promises, and the parameter vector of a call
    has the length it was allocated with in [new_call_instruction]. *)
Record well_formed (p : MFProcedure) : Prop := {
  wf_call_instructions :
    ∀ a, a ∈ call_instructions_ p → is_Some (call_instruction p a);
  wf_branch_instructions :
    ∀ a, a ∈ branch_instructions_ p → is_Some (branch_instruction p a);
  wf_destruct_instructions :
    ∀ a, a ∈ destruct_instructions_ p → is_Some (destruct_instruction p a);
  wf_dummy_instructions :
    ∀ a, a ∈ dummy_instructions_ p → is_Some (dummy_instruction p a);
  wf_return_instructions :
    ∀ a, a ∈ return_instructions_ p →
      ∃ object, instructions p !! a = Some object ∧ type_ object = Return;
  wf_prev :
    ∀ a object q, instructions p !! a = Some object → q ∈ prev_ object →
      is_Some (instructions p !! q);
  wf_params :
    ∀ a object fn next params, instructions p !! a = Some object →
      payload object = CallData fn next params → length params = param_amount fn
}.

(** [object] is a call that has [target] in a slot with interface type [Output]. *)
Definition writes_output (object : MFInstruction) (target : VarPtr) : Prop :=
  ∃ fn next params param_index param_type',
    payload object = CallData fn next params ∧
    params !! param_index = Some (Some target) ∧
    param_type fn param_index = Some param_type' ∧
    interface_type param_type' = Output.

(** [object] is a destruct instruction for [target]. *)
Definition destructs (object : MFInstruction) (target : VarPtr) : Prop :=
  ∃ next, payload object = DestructData (Some target) next.

(** [target] is listed in the parameters of the procedure with role [role]. *)
Definition listed_with (p : MFProcedure) (target : VarPtr) (role : InterfaceType) : Prop :=
  {| type := role; variable := target |} ∈ params_ p.

(** Two different slots of a call hold the same variable, and one of them is a
    [Mutable] or [Output] slot. *)
Definition aliased (fn : MultiFunction) (params : list (option VarPtr)) : Prop :=
  ∃ param_index other_param_index variable param_type',
    param_index ≠ other_param_index ∧
    params !! param_index = Some (Some variable) ∧
    params !! other_param_index = Some (Some variable) ∧
    param_type fn param_index = Some param_type' ∧
    interface_type param_type' ∈ [Mutable; Output].

(** The successor slots of an instruction and the variables its slots refer to. *)
Definition successors (payload : MFPayload) : list InstrPtr :=
  match payload with
  | CallData _ next _ => option_list next
  | BranchData _ branch_true branch_false => option_list branch_true ++ option_list branch_false
  | DestructData _ next => option_list next
  | DummyData next => option_list next
  | ReturnData => []
  end.

Definition referenced_variables (payload : MFPayload) : list VarPtr :=
  match payload with
  | CallData _ _ params => omap id params
  | BranchData condition _ _ => option_list condition
  | DestructData variable _ => option_list variable
  | DummyData _ | ReturnData => []
  end.

Definition multiplicity (x : nat) (l : list nat) : nat := count_occ Nat.eq_dec l x.

Arguments multiplicity : simpl never.

Definition edge_consistent (p : MFProcedure) : Prop :=
  ∀ I J object_I object_J,
    instructions p !! I = Some object_I → instructions p !! J = Some object_J →
    multiplicity J (successors (payload object_I)) = multiplicity I (prev_ object_J).

Definition user_consistent (p : MFProcedure) : Prop :=
  ∀ I V object_I object_V,
    instructions p !! I = Some object_I → variable_store p !! V = Some object_V →
    multiplicity V (referenced_variables (payload object_I)) = multiplicity I (users_ object_V).

(** An edge of the control-flow graph, and reachability along such edges. *)
Definition cfg_edge (p : MFProcedure) (a b : InstrPtr) : Prop :=
  ∃ object, instructions p !! a = Some object ∧ b ∈ successors (payload object).

Definition reachable (p : MFProcedure) (a : InstrPtr) : Prop :=
  ∃ entry, entry_ p = Some entry ∧ rtc (cfg_edge p) entry a.

(** Every successor edge has its entry in the [prev_] vector of its target. *)
Definition edges_mirrored (p : MFProcedure) : Prop :=
  ∀ a b, cfg_edge p a b →
    ∃ object, instructions p !! b = Some object ∧ a ∈ prev_ object.

(** ** The search with a log

    [search] again, with two ghost lists: the instructions that got past the
    [checked_instructions] test, and the elements handed to [push_multiple],
    both in the order of the events. *)
Record SearchLog := {
  examined : list InstrPtr;
  pushed : list InstrPtr
}.

Definition log_examined (a : InstrPtr) (log : SearchLog) : SearchLog :=
  {| examined := examined log ++ [a]; pushed := pushed log |}.

Definition log_pushed (values : list InstrPtr) (log : SearchLog) : SearchLog :=
  {| examined := examined log; pushed := pushed log ++ values |}.

Fixpoint search_logged (fuel : nat) (p : MFProcedure) (target_variable : VarPtr)
    (checked_instructions : gset nat) (instructions_to_check : list InstrPtr)
    (state : InitState) (log : SearchLog) : option (InitState * SearchLog) :=
  match fuel with
  | 0 => None
  | S fuel =>
      match instructions_to_check with
      | [] => Some (state, log)
      | top :: instructions_to_check =>
          if decide (top ∈ checked_instructions) then
            search_logged fuel p target_variable checked_instructions
                          instructions_to_check state log
          else
            let checked_instructions := {[top]} ∪ checked_instructions in
            let log := log_examined top log in
            instruction ← instructions p !! top;
            '(state, state_modified) ← examine_instruction instruction target_variable state;
            if state_modified : bool then
              search_logged fuel p target_variable checked_instructions
                            instructions_to_check state log
            else
              let state := if decide (entry_ p = Some top)
                           then check_entry_instruction p target_variable state
                           else state in
              search_logged fuel p target_variable checked_instructions
                            (push_multiple (prev_ instruction) instructions_to_check) state
                            (log_pushed (prev_ instruction) log)
      end
  end.

Definition find_initialization_state_logged (fuel : nat) (p : MFProcedure)
    (target_instruction : InstrPtr) (target_variable : VarPtr)
    : option (InitState * SearchLog) :=
  target ← instructions p !! target_instruction;
  let state := InitState_default in
  let state := if decide (entry_ p = Some target_instruction)
               then check_entry_instruction p target_variable state
               else state in
  search_logged fuel p target_variable ∅ (push_multiple (prev_ target) []) state
                {| examined := []; pushed := prev_ target |}.

(** ** Example procedures *)

Definition example_type : MFDataType := 0.

Definition example_variable (id : nat) (users : list InstrPtr) : MFVariable :=
  {| data_type_ := example_type; users_ := users; name_ := ""; id_ := id |}.

Definition example_param (role : InterfaceType) : MFParamType :=
  {| interface_type := role; data_type := example_type |}.

(** [F(in x) → out y] *)
Definition example_F : MultiFunction :=
  {| name := "F"; param_types := [example_param Input; example_param Output] |}.

(** Variables [a] (0) and [b] (1), parameters [(Input, a)], [(Output, b)];
    [Call F(in a, out b) → Destruct a → Return]. *)
Definition example_identity : MFProcedure :=
  {| instructions := list_to_map [
       (0, {| prev_ := []; payload := CallData example_F (Some 1) [Some 0; Some 1] |});
       (1, {| prev_ := [0]; payload := DestructData (Some 0) (Some 2) |});
       (2, {| prev_ := [1]; payload := ReturnData |}) ];
     variable_store := list_to_map [
       (0, example_variable 0 [0; 1]);
       (1, example_variable 1 [0]) ];
     call_instructions_ := [0];
     branch_instructions_ := [];
     destruct_instructions_ := [1];
     dummy_instructions_ := [];
     return_instructions_ := [2];
     variables_ := [0; 1];
     params_ := [ {| type := Input; variable := 0 |}; {| type := Output; variable := 1 |} ];
     entry_ := Some 0 |}.

(** One variable (0) that is no parameter.  The entry is the return
    instruction (0); the destruct instruction (1) leads to it, but nothing
    leads to the destruct instruction. *)
Definition example_unreachable : MFProcedure :=
  {| instructions := list_to_map [
       (0, {| prev_ := [1]; payload := ReturnData |});
       (1, {| prev_ := []; payload := DestructData (Some 0) (Some 0) |}) ];
     variable_store := list_to_map [ (0, example_variable 0 [1]) ];
     call_instructions_ := [];
     branch_instructions_ := [];
     destruct_instructions_ := [1];
     dummy_instructions_ := [];
     return_instructions_ := [0];
     variables_ := [0];
     params_ := [];
     entry_ := Some 0 |}.

(** A branch (0) on the [Input] parameter (variable 0) whose two sides are the
    dummies (1) and (2); both lead to the destruct instruction (3), which is
    followed by the return instruction (4). *)
Definition example_diamond : MFProcedure :=
  {| instructions := list_to_map [
       (0, {| prev_ := []; payload := BranchData (Some 0) (Some 1) (Some 2) |});
       (1, {| prev_ := [0]; payload := DummyData (Some 3) |});
       (2, {| prev_ := [0]; payload := DummyData (Some 3) |});
       (3, {| prev_ := [1; 2]; payload := DestructData (Some 0) (Some 4) |});
       (4, {| prev_ := [3]; payload := ReturnData |}) ];
     variable_store := list_to_map [ (0, example_variable 0 [0; 3]) ];
     call_instructions_ := [];
     branch_instructions_ := [0];
     destruct_instructions_ := [3];
     dummy_instructions_ := [1; 2];
     return_instructions_ := [4];
     variables_ := [0];
     params_ := [ {| type := Input; variable := 0 |} ];
     entry_ := Some 0 |}.

(** [G(in x, in y) → out z] and [H(out x, out y)] *)
Definition example_G : MultiFunction :=
  {| name := "G";
     param_types := [example_param Input; example_param Input; example_param Output] |}.

Definition example_H : MultiFunction :=
  {| name := "H"; param_types := [example_param Output; example_param Output] |}.

(** ** Deciding well-formedness *)

Definition well_formedb (p : MFProcedure) : bool :=
  forallb (λ a, bool_decide (is_Some (call_instruction p a))) (call_instructions_ p)
  && forallb (λ a, bool_decide (is_Some (branch_instruction p a))) (branch_instructions_ p)
  && forallb (λ a, bool_decide (is_Some (destruct_instruction p a))) (destruct_instructions_ p)
  && forallb (λ a, bool_decide (is_Some (dummy_instruction p a))) (dummy_instructions_ p)
  && forallb (λ a, bool_decide (type_ <$> instructions p !! a = Some Return))
             (return_instructions_ p)
  && forallb (λ entry : nat * MFInstruction,
                forallb (λ q, bool_decide (is_Some (instructions p !! q))) (prev_ entry.2)
                && match payload entry.2 with
                   | CallData fn _ params => bool_decide (length params = param_amount fn)
                   | _ => true
                   end)
             (map_to_list (instructions p)).

(** ** What the validator checks *)

(** A check returns, and it returns [true] exactly when [P] holds. *)
Definition decides (check : option bool) (P : Prop) : Prop :=
  ∃ b, check = Some b ∧ (b = true ↔ P).

Definition entry_set (p : MFProcedure) : Prop := entry_ p ≠ None.

Definition all_instruction_pointers_set (p : MFProcedure) : Prop :=
  (∀ a fn next params, a ∈ call_instructions_ p →
     call_instruction p a = Some (fn, next, params) → next ≠ None) ∧
  (∀ a variable next, a ∈ destruct_instructions_ p →
     destruct_instruction p a = Some (variable, next) → next ≠ None) ∧
  (∀ a condition branch_true branch_false, a ∈ branch_instructions_ p →
     branch_instruction p a = Some (condition, branch_true, branch_false) →
     branch_true ≠ None ∧ branch_false ≠ None) ∧
  (∀ a next, a ∈ dummy_instructions_ p →
     dummy_instruction p a = Some next → next ≠ None).

Definition all_params_provided (p : MFProcedure) : Prop :=
  (∀ a fn next params, a ∈ call_instructions_ p →
     call_instruction p a = Some (fn, next, params) →
     ∀ slot, slot ∈ params → slot ≠ None) ∧
  (∀ a condition branch_true branch_false, a ∈ branch_instructions_ p →
     branch_instruction p a = Some (condition, branch_true, branch_false) →
     condition ≠ None) ∧
  (∀ a variable next, a ∈ destruct_instructions_ p →
     destruct_instruction p a = Some (variable, next) → variable ≠ None).

Definition no_aliasing (p : MFProcedure) : Prop :=
  ∀ a fn next params, a ∈ call_instructions_ p →
    call_instruction p a = Some (fn, next, params) → ¬ aliased fn params.

Definition parameters_unique (p : MFProcedure) : Prop :=
  NoDup (variable <$> params_ p).

(** The analysis gives a state before [a] for [v], and the state satisfies [P]. *)
Definition state_before (p : MFProcedure) (a : InstrPtr) (v : VarPtr)
    (P : InitState → Prop) : Prop :=
  ∃ state, find_initialization_state_before_instruction p a v = Some state ∧ P state.

Definition must_be_initialized_on_return (p : MFProcedure) (v : VarPtr) : Prop :=
  listed_with p v Mutable ∨ listed_with p v Output.

Definition return_requirement_holds (p : MFProcedure) (v : VarPtr) (state : InitState) : Prop :=
  (must_be_initialized_on_return p v → can_be_initialized state = true) ∧
  (¬ must_be_initialized_on_return p v → can_be_uninitialized state = true).

Definition initialization_requirements (p : MFProcedure) : Prop :=
  (∀ a v next, a ∈ destruct_instructions_ p →
     destruct_instruction p a = Some (Some v, next) →
     state_before p a v (λ state, can_be_initialized state = true)) ∧
  (∀ a v branch_true branch_false, a ∈ branch_instructions_ p →
     branch_instruction p a = Some (Some v, branch_true, branch_false) →
     state_before p a v (λ state, can_be_initialized state = true)) ∧
  (∀ a fn next params param_index param_type' v, a ∈ call_instructions_ p →
     call_instruction p a = Some (fn, next, params) →
     param_type fn param_index = Some param_type' →
     params !! param_index = Some (Some v) →
     state_before p a v
       (λ state, call_requirement (interface_type param_type') state = true)) ∧
  (∀ a v, a ∈ return_instructions_ p → v ∈ variables_ p →
     state_before p a v (return_requirement_holds p v)).

Definition valid (p : MFProcedure) : Prop :=
  entry_set p ∧
  all_instruction_pointers_set p ∧
  all_params_provided p ∧
  no_aliasing p ∧
  parameters_unique p ∧
  initialization_requirements p.

(** [Out() → out x] *)
Definition example_Out : MultiFunction :=
  {| name := "Out"; param_types := [example_param Output] |}.

(** The condition (variable 0) is a [Mutable] parameter.  The branch (0) is
    the entry; its true side is the call (1) that writes variable 1, followed
    by the destruct instruction (2) for variable 1, which leads back to the
    branch; its false side is the return instruction (3). *)
Definition example_loop : MFProcedure :=
  {| instructions := list_to_map [
       (0, {| prev_ := [2]; payload := BranchData (Some 0) (Some 1) (Some 3) |});
       (1, {| prev_ := [0]; payload := CallData example_Out (Some 2) [Some 1] |});
       (2, {| prev_ := [1]; payload := DestructData (Some 1) (Some 0) |});
       (3, {| prev_ := [0]; payload := ReturnData |}) ];
     variable_store := list_to_map [
       (0, example_variable 0 [0]);
       (1, example_variable 1 [1; 2]) ];
     call_instructions_ := [1];
     branch_instructions_ := [0];
     destruct_instructions_ := [2];
     dummy_instructions_ := [];
     return_instructions_ := [3];
     variables_ := [0; 1];
     params_ := [ {| type := Mutable; variable := 0 |} ];
     entry_ := Some 0 |}.

(** The pairs of an instruction and a variable for which the validator asks
    for the initialization state. *)
Definition examined_pair (p : MFProcedure) (a : InstrPtr) (v : VarPtr) : Prop :=
  (a ∈ destruct_instructions_ p ∧ ∃ next, destruct_instruction p a = Some (Some v, next)) ∨
  (a ∈ branch_instructions_ p ∧
     ∃ branch_true branch_false,
       branch_instruction p a = Some (Some v, branch_true, branch_false)) ∨
  (a ∈ call_instructions_ p ∧
     ∃ fn next params param_index,
       call_instruction p a = Some (fn, next, params) ∧
       params !! param_index = Some (Some v)) ∨
  (a ∈ return_instructions_ p ∧ v ∈ variables_ p).

(** One of the two bits is set. *)
Definition some_bit_set (state : InitState) : Prop :=
  can_be_initialized state = true ∨ can_be_uninitialized state = true.

Definition edges_mirroredb (p : MFProcedure) : bool :=
  forallb (λ entry : nat * MFInstruction,
             forallb (λ b, match instructions p !! b with
                           | Some object => bool_decide (entry.1 ∈ prev_ object)
                           | None => false
                           end)
                     (successors (payload entry.2)))
          (map_to_list (instructions p)).

(** Variable 0 is an [Input] parameter of the procedure and is given to both
    input slots of [G]; variable 1 is an [Output] parameter.
    [Call G(in 0, in 0, out 1) → Destruct 0 → Return]. *)
Definition example_shared_input : MFProcedure :=
  {| instructions := list_to_map [
       (0, {| prev_ := [];
              payload := CallData example_G (Some 1) [Some 0; Some 0; Some 1] |});
       (1, {| prev_ := [0]; payload := DestructData (Some 0) (Some 2) |});
       (2, {| prev_ := [1]; payload := ReturnData |}) ];
     variable_store := list_to_map [
       (0, example_variable 0 [0; 0; 1]);
       (1, example_variable 1 [0]) ];
     call_instructions_ := [0];
     branch_instructions_ := [];
     destruct_instructions_ := [1];
     dummy_instructions_ := [];
     return_instructions_ := [2];
     variables_ := [0; 1];
     params_ := [ {| type := Input; variable := 0 |}; {| type := Output; variable := 1 |} ];
     entry_ := Some 0 |}.

(** ** The edge mutations as one family *)

Inductive EdgeMutation :=
  | Call_set_next (this : InstrPtr) (instruction : option InstrPtr)
  | Call_set_param_variable (this : InstrPtr) (param_index : nat) (variable : option VarPtr)
  | Call_set_params (this : InstrPtr) (variables : list (option VarPtr))
  | Branch_set_condition (this : InstrPtr) (variable : option VarPtr)
  | Branch_set_branch_true (this : InstrPtr) (instruction : option InstrPtr)
  | Branch_set_branch_false (this : InstrPtr) (instruction : option InstrPtr)
  | Destruct_set_variable (this : InstrPtr) (variable : option VarPtr)
  | Destruct_set_next (this : InstrPtr) (instruction : option InstrPtr)
  | Dummy_set_next (this : InstrPtr) (instruction : option InstrPtr).

Definition apply_mutation (m : EdgeMutation) (p : MFProcedure) : option MFProcedure :=
  match m with
  | Call_set_next this instruction => MFCallInstruction_set_next this instruction p
  | Call_set_param_variable this param_index variable =>
      MFCallInstruction_set_param_variable this param_index variable p
  | Call_set_params this variables => MFCallInstruction_set_params this variables p
  | Branch_set_condition this variable => MFBranchInstruction_set_condition this variable p
  | Branch_set_branch_true this instruction =>
      MFBranchInstruction_set_branch_true this instruction p
  | Branch_set_branch_false this instruction =>
      MFBranchInstruction_set_branch_false this instruction p
  | Destruct_set_variable this variable => MFDestructInstruction_set_variable this variable p
  | Destruct_set_next this instruction => MFDestructInstruction_set_next this instruction p
  | Dummy_set_next this instruction => MFDummyInstruction_set_next this instruction p
  end.

(** The mutation writes into its slot the value that the slot holds already. *)
Definition rewrites_same (p : MFProcedure) (m : EdgeMutation) : Prop :=
  match m with
  | Call_set_next this instruction =>
      ∃ fn params, call_instruction p this = Some (fn, instruction, params)
  | Call_set_param_variable this param_index variable =>
      ∃ fn next params, call_instruction p this = Some (fn, next, params) ∧
                        params !! param_index = Some variable
  | Call_set_params this variables =>
      ∃ fn next, call_instruction p this = Some (fn, next, variables)
  | Branch_set_condition this variable =>
      ∃ branch_true branch_false,
        branch_instruction p this = Some (variable, branch_true, branch_false)
  | Branch_set_branch_true this instruction =>
      ∃ condition branch_false,
        branch_instruction p this = Some (condition, instruction, branch_false)
  | Branch_set_branch_false this instruction =>
      ∃ condition branch_true,
        branch_instruction p this = Some (condition, branch_true, instruction)
  | Destruct_set_variable this variable =>
      ∃ next, destruct_instruction p this = Some (variable, next)
  | Destruct_set_next this instruction =>
      ∃ variable, destruct_instruction p this = Some (variable, instruction)
  | Dummy_set_next this instruction =>
      dummy_instruction p this = Some instruction
  end.

(** How often [I] occurs in the [prev_] vector of [J], and in the [users_]
    vector of [V]; the payload stored at an address. *)
Definition prev_count (p : MFProcedure) (J I : InstrPtr) : nat :=
  from_option (λ object, multiplicity I (prev_ object)) 0 (instructions p !! J).

Definition users_count (p : MFProcedure) (V : VarPtr) (I : InstrPtr) : nat :=
  from_option (λ object, multiplicity I (users_ object)) 0 (variable_store p !! V).

Definition payload_of (p : MFProcedure) (X : InstrPtr) : option MFPayload :=
  payload <$> instructions p !! X.

Definition indicator (P : Prop) `{Decision P} : nat := if decide P then 1 else 0.

(** The vectors of the procedure, its parameters and its entry are the same. *)
Definition same_directory (p p' : MFProcedure) : Prop :=
  call_instructions_ p' = call_instructions_ p ∧
  branch_instructions_ p' = branch_instructions_ p ∧
  destruct_instructions_ p' = destruct_instructions_ p ∧
  dummy_instructions_ p' = dummy_instructions_ p ∧
  return_instructions_ p' = return_instructions_ p ∧
  variables_ p' = variables_ p ∧
  params_ p' = params_ p ∧
  entry_ p' = entry_ p.

(** What one mutation of [this] does: the payload of [this] becomes
    [new_payload]; [this] leaves the [prev_] vector of [old_successor] and the
    [users_] vector of [old_variable] once, and joins those of [new_successor]
    and [new_variable] once; nothing is allocated or freed. *)
Definition mutation_effect (p p' : MFProcedure) (this : InstrPtr) (new_payload : MFPayload)
    (old_successor new_successor : option InstrPtr)
    (old_variable new_variable : option VarPtr) : Prop :=
  (∀ X, payload_of p' X = if decide (X = this) then Some new_payload else payload_of p X) ∧
  is_Some (instructions p !! this) ∧
  (∀ J I, prev_count p' J I + indicator (old_successor = Some J ∧ I = this)
          = prev_count p J I + indicator (new_successor = Some J ∧ I = this)) ∧
  (∀ V I, users_count p' V I + indicator (old_variable = Some V ∧ I = this)
          = users_count p V I + indicator (new_variable = Some V ∧ I = this)) ∧
  (∀ V, data_type_ <$> variable_store p' !! V = data_type_ <$> variable_store p !! V) ∧
  same_directory p p'.

(** The [prev_] and [users_] vectors of [p'] are those of [p] up to the order. *)
Definition same_multisets (p p' : MFProcedure) : Prop :=
  (∀ J object object',
     instructions p !! J = Some object → instructions p' !! J = Some object' →
     prev_ object' ≡ₚ prev_ object) ∧
  (∀ V object object',
     variable_store p !! V = Some object → variable_store p' !! V = Some object' →
     users_ object' ≡ₚ users_ object).

(** The payloads belong to the same class, and for a call to the same function
    with as many parameter slots. *)
Definition same_shape (old_payload new_payload : MFPayload) : Prop :=
  match old_payload, new_payload with
  | CallData fn _ params, CallData fn' _ params' => fn' = fn ∧ length params' = length params
  | BranchData _ _ _, BranchData _ _ _
  | DestructData _ _, DestructData _ _
  | DummyData _, DummyData _
  | ReturnData, ReturnData => True
  | _, _ => False
  end.

(** The slots of the new payload differ from those of the old payload by the
    same pointers by which the [prev_] and [users_] vectors change. *)
Definition balanced (old_payload new_payload : MFPayload)
    (old_successor new_successor : option InstrPtr)
    (old_variable new_variable : option VarPtr) : Prop :=
  (∀ J, multiplicity J (successors new_payload) + indicator (old_successor = Some J)
        = multiplicity J (successors old_payload) + indicator (new_successor = Some J)) ∧
  (∀ V, multiplicity V (referenced_variables new_payload) + indicator (old_variable = Some V)
        = multiplicity V (referenced_variables old_payload)
          + indicator (new_variable = Some V)) ∧
  same_shape old_payload new_payload.

(** One mutation of one slot. *)
Definition slot_mutation (p p' : MFProcedure) (same : Prop) : Prop :=
  ∃ this old_payload new_payload old_successor new_successor old_variable new_variable,
    payload_of p this = Some old_payload ∧
    mutation_effect p p' this new_payload
                    old_successor new_successor old_variable new_variable ∧
    balanced old_payload new_payload old_successor new_successor old_variable new_variable ∧
    (same → old_successor = new_successor ∧ old_variable = new_variable).

Definition same_counts (p p' : MFProcedure) : Prop :=
  (∀ X, is_Some (payload_of p' X) ↔ is_Some (payload_of p X)) ∧
  (∀ V, data_type_ <$> variable_store p' !! V = data_type_ <$> variable_store p !! V) ∧
  (∀ J I, prev_count p' J I = prev_count p J I) ∧
  (∀ V I, users_count p' V I = users_count p V I).

(** ** Deciding the two consistency invariants *)

Definition consistentb (p : MFProcedure) : bool :=
  forallb (λ entry_I : nat * MFInstruction,
             forallb (λ entry_J : nat * MFInstruction,
                        bool_decide (multiplicity entry_J.1 (successors (payload entry_I.2))
                                     = multiplicity entry_I.1 (prev_ entry_J.2)))
                     (map_to_list (instructions p))
             && forallb (λ entry_V : nat * MFVariable,
                           bool_decide
                             (multiplicity entry_V.1 (referenced_variables (payload entry_I.2))
                              = multiplicity entry_I.1 (users_ entry_V.2)))
                        (map_to_list (variable_store p)))
          (map_to_list (instructions p)).

(** ** When an edge mutation is defined *)

(** Every pointer stored in a slot of an instruction is live. *)
Definition pointers_live (p : MFProcedure) : Prop :=
  ∀ I object, instructions p !! I = Some object →
    (∀ J, J ∈ successors (payload object) → is_Some (instructions p !! J)) ∧
    (∀ V, V ∈ referenced_variables (payload object) → is_Some (variable_store p !! V)).

Definition target_live (p : MFProcedure) (instruction : option InstrPtr) : Prop :=
  ∀ target, instruction = Some target → is_Some (instructions p !! target).

Definition variable_live (p : MFProcedure) (variable : option VarPtr) : Prop :=
  ∀ target, variable = Some target → is_Some (variable_store p !! target).

(** The variable is live and has the data type of parameter [param_index]. *)
Definition variable_fits (p : MFProcedure) (fn : MultiFunction) (param_index : nat)
    (variable : option VarPtr) : Prop :=
  ∀ target, variable = Some target →
    ∃ param_type' object,
      param_type fn param_index = Some param_type' ∧
      variable_store p !! target = Some object ∧
      data_type param_type' = data_type_ object.

(** The arguments of the mutation are as the operation expects them: [this] is
    an instruction of the right class, the new target is live, an index is in
    range, a variable has the data type of its parameter. *)
Definition applicable (p : MFProcedure) (m : EdgeMutation) : Prop :=
  match m with
  | Call_set_next this instruction =>
      is_Some (call_instruction p this) ∧ target_live p instruction
  | Call_set_param_variable this param_index variable =>
      ∃ fn next params,
        call_instruction p this = Some (fn, next, params) ∧
        param_index < length params ∧
        variable_fits p fn param_index variable
  | Call_set_params this variables =>
      ∃ fn next params,
        call_instruction p this = Some (fn, next, params) ∧
        length variables = length params ∧
        ∀ i variable, variables !! i = Some variable → variable_fits p fn i variable
  | Branch_set_condition this variable =>
      is_Some (branch_instruction p this) ∧ variable_live p variable
  | Branch_set_branch_true this instruction =>
      is_Some (branch_instruction p this) ∧ target_live p instruction
  | Branch_set_branch_false this instruction =>
      is_Some (branch_instruction p this) ∧ target_live p instruction
  | Destruct_set_variable this variable =>
      is_Some (destruct_instruction p this) ∧ variable_live p variable
  | Destruct_set_next this instruction =>
      is_Some (destruct_instruction p this) ∧ target_live p instruction
  | Dummy_set_next this instruction =>
      is_Some (dummy_instruction p this) ∧ target_live p instruction
  end.

(** ** The builder *)

Definition empty_procedure : MFProcedure :=
  {| instructions := ∅;
     variable_store := ∅;
     call_instructions_ := [];
     branch_instructions_ := [];
     destruct_instructions_ := [];
     dummy_instructions_ := [];
     return_instructions_ := [];
     variables_ := [];
     params_ := [];
     entry_ := None |}.

(** [allocator_.construct<T>()]: the new object gets an address that is not in
    use. *)
Definition allocate {A} (arena : gmap nat A) : nat := fresh (dom arena).

Definition new_variable (data_type : MFDataType) (name : string) (p : MFProcedure)
    : VarPtr * MFProcedure :=
  let variable := allocate (variable_store p) in
  let object := {| data_type_ := data_type; users_ := []; name_ := name;
                   id_ := length (variables_ p) |} in
  (variable,
   {| instructions := instructions p;
      variable_store := <[variable := object]> (variable_store p);
      call_instructions_ := call_instructions_ p;
      branch_instructions_ := branch_instructions_ p;
      destruct_instructions_ := destruct_instructions_ p;
      dummy_instructions_ := dummy_instructions_ p;
      return_instructions_ := return_instructions_ p;
      variables_ := variables_ p ++ [variable];
      params_ := params_ p;
      entry_ := entry_ p |}).

(** The five [new_*_instruction] functions: the object is constructed with an
    empty [prev_] vector, and its address is appended to the vector of its
    class. *)
Definition new_instruction (new_payload : MFPayload) (p : MFProcedure)
    : InstrPtr * MFProcedure :=
  let instruction := allocate (instructions p) in
  let object := {| prev_ := []; payload := new_payload |} in
  let append (class : MFInstructionType) (vector : list InstrPtr) :=
    if decide (type_ object = class) then vector ++ [instruction] else vector in
  (instruction,
   {| instructions := <[instruction := object]> (instructions p);
      variable_store := variable_store p;
      call_instructions_ := append Call (call_instructions_ p);
      branch_instructions_ := append Branch (branch_instructions_ p);
      destruct_instructions_ := append Destruct (destruct_instructions_ p);
      dummy_instructions_ := append Dummy (dummy_instructions_ p);
      return_instructions_ := append Return (return_instructions_ p);
      variables_ := variables_ p;
      params_ := params_ p;
      entry_ := entry_ p |}).

Definition new_call_instruction (fn : MultiFunction) (p : MFProcedure)
    : InstrPtr * MFProcedure :=
  new_instruction (CallData fn None (replicate (param_amount fn) None)) p.

Definition new_branch_instruction (p : MFProcedure) : InstrPtr * MFProcedure :=
  new_instruction (BranchData None None None) p.

Definition new_destruct_instruction (p : MFProcedure) : InstrPtr * MFProcedure :=
  new_instruction (DestructData None None) p.

Definition new_dummy_instruction (p : MFProcedure) : InstrPtr * MFProcedure :=
  new_instruction (DummyData None) p.

Definition new_return_instruction (p : MFProcedure) : InstrPtr * MFProcedure :=
  new_instruction ReturnData p.

Definition add_parameter (interface_type : InterfaceType) (variable : VarPtr)
    (p : MFProcedure) : MFProcedure :=
  {| instructions := instructions p;
     variable_store := variable_store p;
     call_instructions_ := call_instructions_ p;
     branch_instructions_ := branch_instructions_ p;
     destruct_instructions_ := destruct_instructions_ p;
     dummy_instructions_ := dummy_instructions_ p;
     return_instructions_ := return_instructions_ p;
     variables_ := variables_ p;
     params_ := params_ p ++ [ {| type := interface_type; variable := variable |} ];
     entry_ := entry_ p |}.

Definition set_entry (entry : InstrPtr) (p : MFProcedure) : MFProcedure :=
  {| instructions := instructions p;
     variable_store := variable_store p;
     call_instructions_ := call_instructions_ p;
     branch_instructions_ := branch_instructions_ p;
     destruct_instructions_ := destruct_instructions_ p;
     dummy_instructions_ := dummy_instructions_ p;
     return_instructions_ := return_instructions_ p;
     variables_ := variables_ p;
     params_ := params_ p;
     entry_ := Some entry |}.

(** The procedures that can be built with the builder and the edge mutations. *)
Inductive constructed : MFProcedure → Prop :=
  | constructed_empty : constructed empty_procedure
  | constructed_new_variable data_type name p :
      constructed p → constructed (new_variable data_type name p).2
  | constructed_new_call_instruction fn p :
      constructed p → constructed (new_call_instruction fn p).2
  | constructed_new_branch_instruction p :
      constructed p → constructed (new_branch_instruction p).2
  | constructed_new_destruct_instruction p :
      constructed p → constructed (new_destruct_instruction p).2
  | constructed_new_dummy_instruction p :
      constructed p → constructed (new_dummy_instruction p).2
  | constructed_new_return_instruction p :
      constructed p → constructed (new_return_instruction p).2
  | constructed_add_parameter interface_type variable p :
      constructed p → constructed (add_parameter interface_type variable p)
  | constructed_set_entry entry p :
      constructed p → constructed (set_entry entry p)
  | constructed_mutation m p p' :
      constructed p → apply_mutation m p = Some p' → constructed p'.

(** Every entry of a [users_] vector is a live instruction. *)
Definition users_live (p : MFProcedure) : Prop :=
  ∀ V object I, variable_store p !! V = Some object → I ∈ users_ object →
    is_Some (instructions p !! I).

(** What the builder and the edge mutations maintain. *)
Record sound (p : MFProcedure) : Prop := {
  sound_well_formed : well_formed p;
  sound_edge_consistent : edge_consistent p;
  sound_user_consistent : user_consistent p;
  sound_pointers_live : pointers_live p;
  sound_users_live : users_live p
}.

(** ** Building a procedure step by step *)

Inductive BuilderCall :=
  | NewVariable (data_type : MFDataType) (name : string)
  | NewCallInstruction (fn : MultiFunction)
  | NewBranchInstruction
  | NewDestructInstruction
  | NewDummyInstruction
  | NewReturnInstruction
  | AddParameter (interface_type : InterfaceType) (variable : VarPtr)
  | SetEntry (entry : InstrPtr)
  | Mutate (m : EdgeMutation).

Definition builder_call (call : BuilderCall) (p : MFProcedure) : option MFProcedure :=
  match call with
  | NewVariable data_type name => Some (new_variable data_type name p).2
  | NewCallInstruction fn => Some (new_call_instruction fn p).2
  | NewBranchInstruction => Some (new_branch_instruction p).2
  | NewDestructInstruction => Some (new_destruct_instruction p).2
  | NewDummyInstruction => Some (new_dummy_instruction p).2
  | NewReturnInstruction => Some (new_return_instruction p).2
  | AddParameter interface_type variable => Some (add_parameter interface_type variable p)
  | SetEntry entry => Some (set_entry entry p)
  | Mutate m => apply_mutation m p
  end.

Fixpoint builder_calls (calls : list BuilderCall) (p : MFProcedure) : option MFProcedure :=
  match calls with
  | [] => Some p
  | call :: rest => p ← builder_call call p; builder_calls rest p
  end.

(** The calls that build the example procedures.  The allocator hands out the
    addresses 0, 1, 2, ... in this order. *)
Definition build_identity : list BuilderCall :=
  [ NewVariable example_type ""; NewVariable example_type "";
    AddParameter Input 0; AddParameter Output 1;
    NewCallInstruction example_F; NewDestructInstruction; NewReturnInstruction;
    SetEntry 0;
    Mutate (Call_set_params 0 [Some 0; Some 1]);
    Mutate (Call_set_next 0 (Some 1));
    Mutate (Destruct_set_variable 1 (Some 0));
    Mutate (Destruct_set_next 1 (Some 2)) ].

Definition build_unreachable : list BuilderCall :=
  [ NewVariable example_type "";
    NewReturnInstruction; NewDestructInstruction;
    SetEntry 0;
    Mutate (Destruct_set_variable 1 (Some 0));
    Mutate (Destruct_set_next 1 (Some 0)) ].

Definition build_diamond : list BuilderCall :=
  [ NewVariable example_type "";
    AddParameter Input 0;
    NewBranchInstruction; NewDummyInstruction; NewDummyInstruction;
    NewDestructInstruction; NewReturnInstruction;
    SetEntry 0;
    Mutate (Branch_set_condition 0 (Some 0));
    Mutate (Branch_set_branch_true 0 (Some 1));
    Mutate (Branch_set_branch_false 0 (Some 2));
    Mutate (Dummy_set_next 1 (Some 3));
    Mutate (Dummy_set_next 2 (Some 3));
    Mutate (Destruct_set_variable 3 (Some 0));
    Mutate (Destruct_set_next 3 (Some 4)) ].

Definition build_loop : list BuilderCall :=
  [ NewVariable example_type ""; NewVariable example_type "";
    AddParameter Mutable 0;
    NewBranchInstruction; NewCallInstruction example_Out;
    NewDestructInstruction; NewReturnInstruction;
    SetEntry 0;
    Mutate (Branch_set_condition 0 (Some 0));
    Mutate (Branch_set_branch_true 0 (Some 1));
    Mutate (Branch_set_branch_false 0 (Some 3));
    Mutate (Call_set_param_variable 1 0 (Some 1));
    Mutate (Call_set_next 1 (Some 2));
    Mutate (Destruct_set_variable 2 (Some 1));
    Mutate (Destruct_set_next 2 (Some 0)) ].

Definition build_shared_input : list BuilderCall :=
  [ NewVariable example_type ""; NewVariable example_type "";
    AddParameter Input 0; AddParameter Output 1;
    NewCallInstruction example_G; NewDestructInstruction; NewReturnInstruction;
    SetEntry 0;
    Mutate (Call_set_params 0 [Some 0; Some 0; Some 1]);
    Mutate (Call_set_next 0 (Some 1));
    Mutate (Destruct_set_variable 1 (Some 0));
    Mutate (Destruct_set_next 1 (Some 2)) ].

(** Variables [a] (0) and [b] (1) as in [example_identity], but the call
    reads [b] and writes [a]: [Call F(in b, out a) → Destruct a → Return]. *)
Definition example_use_before_init : MFProcedure :=
  {| instructions := list_to_map [
       (0, {| prev_ := []; payload := CallData example_F (Some 1) [Some 1; Some 0] |});
       (1, {| prev_ := [0]; payload := DestructData (Some 0) (Some 2) |});
       (2, {| prev_ := [1]; payload := ReturnData |}) ];
     variable_store := list_to_map [
       (0, example_variable 0 [0; 1]);
       (1, example_variable 1 [0]) ];
     call_instructions_ := [0];
     branch_instructions_ := [];
     destruct_instructions_ := [1];
     dummy_instructions_ := [];
     return_instructions_ := [2];
     variables_ := [0; 1];
     params_ := [ {| type := Input; variable := 0 |}; {| type := Output; variable := 1 |} ];
     entry_ := Some 0 |}.

(** [H(out x, out y)] is called with variable 0 in both slots. *)
Definition example_double_output : MFProcedure :=
  {| instructions := list_to_map [
       (0, {| prev_ := []; payload := CallData example_H (Some 1) [Some 0; Some 0] |});
       (1, {| prev_ := [0]; payload := ReturnData |}) ];
     variable_store := list_to_map [ (0, example_variable 0 [0; 0]) ];
     call_instructions_ := [0];
     branch_instructions_ := [];
     destruct_instructions_ := [];
     dummy_instructions_ := [];
     return_instructions_ := [1];
     variables_ := [0];
     params_ := [ {| type := Output; variable := 0 |} ];
     entry_ := Some 0 |}.

(** ** Renaming a variable *)



(** ** The instructions of a block *)

(** The [while] loop of [get_first_instruction_in_block], started at
    [current]; [None] also stands for running out of [fuel]. *)
Fixpoint first_instruction_walk (fuel : nat) (p : MFProcedure) (representative : InstrPtr)
    (current : InstrPtr) : option InstrPtr :=
  match fuel with
  | 0 => None
  | S fuel =>
      block_begin ← has_to_be_block_begin p current;
      if block_begin : bool then Some current
      else
        object ← instructions p !! current;
        current ← prev_ object !! 0;
        if decide (current = representative) then
          (* There is a loop without entry or exit, just break it up here. *)
          Some current
        else first_instruction_walk fuel p representative current
  end.

(** The walk looks at one instruction per iteration, and what it does next
    depends on that instruction only: a walk that has not stopped after as
    many iterations as there are instructions never stops. *)
Definition block_fuel (p : MFProcedure) : nat := S (size (instructions p)).

Arguments block_fuel : simpl never.

Definition get_first_instruction_in_block (p : MFProcedure) (representative : InstrPtr)
    : option InstrPtr :=
  first_instruction_walk (block_fuel p) p representative representative.

(** The [switch] of [get_next_instruction_in_block]. *)
Definition next_of (payload : MFPayload) : option InstrPtr :=
  match payload with
  | CallData _ next _ => next
  | DestructData _ next => next
  | DummyData next => next
  | ReturnData | BranchData _ _ _ => None
  end.

(** The outer [option] is for undefined behaviour, the inner one for the
    pointer that is returned. *)
Definition get_next_instruction_in_block (p : MFProcedure) (instruction : InstrPtr)
    (block_begin : InstrPtr) : option (option InstrPtr) :=
  object ← instructions p !! instruction;
  match next_of (payload object) with
  | None => Some None
  | Some next =>
      if decide (next = block_begin) then Some None
      else
        begins ← has_to_be_block_begin p next;
        if begins : bool then Some None else Some (Some next)
  end.

(** The [for] loop of [get_instructions_in_block], from [current] on. *)
Fixpoint block_walk (fuel : nat) (p : MFProcedure) (block_begin : InstrPtr)
    (current : InstrPtr) : option (list InstrPtr) :=
  match fuel with
  | 0 => None
  | S fuel =>
      next ← get_next_instruction_in_block p current block_begin;
      match next with
      | None => Some [current]
      | Some next =>
          rest ← block_walk fuel p block_begin next;
          Some (current :: rest)
      end
  end.

Definition get_instructions_in_block (p : MFProcedure) (representative : InstrPtr)
    : option (list InstrPtr) :=
  block_begin ← get_first_instruction_in_block p representative;
  block_walk (block_fuel p) p block_begin block_begin.

(** [chain p a b]: [b] follows [a] in a straight line, that is, [a] is the
    only predecessor of [b] and [b] does not have to begin a block. *)
Definition chain (p : MFProcedure) (a b : InstrPtr) : Prop :=
  has_to_be_block_begin p b = Some false ∧
  ∃ object, instructions p !! b = Some object ∧ prev_ object = [a].

(** A loop without entry or exit through [a]. *)
Definition isolated_loop (p : MFProcedure) (a : InstrPtr) : Prop :=
  tc (chain p) a a.

(** A return instruction (0), which is the entry, and beside it two dummy
    instructions (1, 2) that lead to each other: a loop without entry or exit. *)
Definition build_isolated_loop : list BuilderCall :=
  [ NewReturnInstruction; NewDummyInstruction; NewDummyInstruction;
    SetEntry 0;
    Mutate (Dummy_set_next 1 (Some 2));
    Mutate (Dummy_set_next 2 (Some 1)) ].

Definition example_isolated_loop : MFProcedure :=
  {| instructions := list_to_map [
       (0, {| prev_ := []; payload := ReturnData |});
       (1, {| prev_ := [2]; payload := DummyData (Some 2) |});
       (2, {| prev_ := [1]; payload := DummyData (Some 1) |}) ];
     variable_store := ∅;
     call_instructions_ := [];
     branch_instructions_ := [];
     destruct_instructions_ := [];
     dummy_instructions_ := [1; 2];
     return_instructions_ := [0];
     variables_ := [];
     params_ := [];
     entry_ := Some 0 |}.

(** ** What the initialization analysis finds *)

(** The instruction leaves the target variable as it is. *)
Definition transparent (object : MFInstruction) (target : VarPtr) : Prop :=
  ¬ writes_output object target ∧ ¬ destructs object target.

(** What the search pushes when it examines [a]: the whole [prev_] vector of
    the instruction if it leaves the target variable as it is, nothing if it
    writes or destructs the variable. *)
Definition enqueues (p : MFProcedure) (target : VarPtr) (a : InstrPtr)
    (batch : list InstrPtr) : Prop :=
  ∃ object, instructions p !! a = Some object ∧
    ((transparent object target ∧ batch = prev_ object) ∨
     (¬ transparent object target ∧ batch = [])).

(** One step back from [a] to an entry [b] of its [prev_] vector, past [a],
    which leaves the target variable as it is. *)
Definition back (p : MFProcedure) (target : VarPtr) (a b : InstrPtr) : Prop :=
  ∃ object, instructions p !! a = Some object ∧ transparent object target ∧
            b ∈ prev_ object.

(** [x] is met on the way back from the target instruction: it is in the
    [prev_] vector of the target instruction, or in that of an instruction
    that is met and leaves the target variable as it is. *)
Definition exposed (p : MFProcedure) (target_instruction : InstrPtr) (target : VarPtr)
    (x : InstrPtr) : Prop :=
  ∃ object first,
    instructions p !! target_instruction = Some object ∧ first ∈ prev_ object ∧
    rtc (back p target) first x.

(** The way back gets to the begin of the procedure: the target instruction
    is the entry, or the entry is met and leaves the target variable as it
    is. *)
Definition entry_exposed (p : MFProcedure) (target_instruction : InstrPtr)
    (target : VarPtr) : Prop :=
  entry_ p = Some target_instruction ∨
  ∃ entry object,
    entry_ p = Some entry ∧ exposed p target_instruction target entry ∧
    instructions p !! entry = Some object ∧ transparent object target.

(** The caller passes the variable in initialized. *)
Definition caller_initialized (p : MFProcedure) (target : VarPtr) : Prop :=
  listed_with p target Input ∨ listed_with p target Mutable.

Definition may_be_initialized (p : MFProcedure) (target_instruction : InstrPtr)
    (target : VarPtr) : Prop :=
  (∃ x object, exposed p target_instruction target x ∧
               instructions p !! x = Some object ∧ writes_output object target) ∨
  (entry_exposed p target_instruction target ∧ caller_initialized p target).

Definition may_be_uninitialized (p : MFProcedure) (target_instruction : InstrPtr)
    (target : VarPtr) : Prop :=
  (∃ x object, exposed p target_instruction target x ∧
               instructions p !! x = Some object ∧ destructs object target) ∨
  (entry_exposed p target_instruction target ∧ ¬ caller_initialized p target).

(** The state has taken up the entry state if [x] is the entry. *)
Definition entry_recorded (p : MFProcedure) (target : VarPtr) (x : InstrPtr)
    (state : InitState) : Prop :=
  entry_ p = Some x →
  (caller_initialized p target → can_be_initialized state = true) ∧
  (¬ caller_initialized p target → can_be_uninitialized state = true).

(** What holds whenever the loop of the search tests its condition: the
    instructions on the stack and the checked ones are met on the way back;
    a bit is only set for a reason; and what a checked instruction
    contributes has been recorded, in the state or on the stack. *)
Record search_invariant (p : MFProcedure) (target_instruction : InstrPtr) (target : VarPtr)
    (checked : gset nat) (stack : list InstrPtr) (state : InitState) : Prop := {
  inv_exposed :
    ∀ x, x ∈ checked ∨ x ∈ stack → exposed p target_instruction target x;
  inv_initialized :
    can_be_initialized state = true → may_be_initialized p target_instruction target;
  inv_uninitialized :
    can_be_uninitialized state = true → may_be_uninitialized p target_instruction target;
  inv_checked :
    ∀ x, x ∈ checked →
      ∃ object, instructions p !! x = Some object ∧
        (writes_output object target → can_be_initialized state = true) ∧
        (destructs object target → can_be_uninitialized state = true) ∧
        (transparent object target →
           entry_recorded p target x state ∧
           ∀ y, y ∈ prev_ object → y ∈ checked ∨ y ∈ stack);
  inv_first :
    ∀ object y, instructions p !! target_instruction = Some object → y ∈ prev_ object →
      y ∈ checked ∨ y ∈ stack;
  inv_entry : entry_recorded p target target_instruction state
}.

(** ** What an edge mutation changes, spelled out *)

(** The instruction whose slot the mutation sets. *)
Definition this_of (m : EdgeMutation) : InstrPtr :=
  match m with
  | Call_set_next this _ | Call_set_param_variable this _ _ | Call_set_params this _
  | Branch_set_condition this _ | Branch_set_branch_true this _
  | Branch_set_branch_false this _ | Destruct_set_variable this _
  | Destruct_set_next this _ | Dummy_set_next this _ => this
  end.

(** The members of [*this] after the mutation, from those before it. *)
Definition mutated_payload (m : EdgeMutation) (old_payload : MFPayload) : MFPayload :=
  match m, old_payload with
  | Call_set_next _ instruction, CallData fn _ params => CallData fn instruction params
  | Call_set_param_variable _ param_index variable, CallData fn next params =>
      CallData fn next (<[param_index := variable]> params)
  | Call_set_params _ variables, CallData fn next _ => CallData fn next variables
  | Branch_set_condition _ variable, BranchData _ branch_true branch_false =>
      BranchData variable branch_true branch_false
  | Branch_set_branch_true _ instruction, BranchData condition _ branch_false =>
      BranchData condition instruction branch_false
  | Branch_set_branch_false _ instruction, BranchData condition branch_true _ =>
      BranchData condition branch_true instruction
  | Destruct_set_variable _ variable, DestructData _ next => DestructData variable next
  | Destruct_set_next _ instruction, DestructData variable _ =>
      DestructData variable instruction
  | Dummy_set_next _ instruction, DummyData _ => DummyData instruction
  | _, _ => old_payload
  end.

(** The variables have the data types, names and identifiers they had. *)
Definition same_variables (p p' : MFProcedure) : Prop :=
  ∀ V, (λ object, (data_type_ object, name_ object, id_ object)) <$> variable_store p' !! V
       = (λ object, (data_type_ object, name_ object, id_ object)) <$> variable_store p !! V.

(** The members of [this] go from [old_payload] to [new_payload]; [this]
    leaves and joins [prev_] and [users_] vectors as often as the pointers of
    its slots change; all else stays. *)
Definition rewired (p p' : MFProcedure) (this : InstrPtr)
    (old_payload new_payload : MFPayload) : Prop :=
  (∀ X, payload_of p' X = if decide (X = this) then Some new_payload else payload_of p X) ∧
  (∀ J I, prev_count p' J I + indicator (I = this) * multiplicity J (successors old_payload)
          = prev_count p J I
            + indicator (I = this) * multiplicity J (successors new_payload)) ∧
  (∀ V I, users_count p' V I
          + indicator (I = this) * multiplicity V (referenced_variables old_payload)
          = users_count p V I
            + indicator (I = this) * multiplicity V (referenced_variables new_payload)) ∧
  same_variables p p' ∧
  same_directory p p'.

(** Two mutations of the same slot. *)
Definition same_slot (m1 m2 : EdgeMutation) : Prop :=
  match m1, m2 with
  | Call_set_next this1 _, Call_set_next this2 _
  | Call_set_params this1 _, Call_set_params this2 _
  | Call_set_param_variable this1 _ _, Call_set_params this2 _
  | Branch_set_condition this1 _, Branch_set_condition this2 _
  | Branch_set_branch_true this1 _, Branch_set_branch_true this2 _
  | Branch_set_branch_false this1 _, Branch_set_branch_false this2 _
  | Destruct_set_variable this1 _, Destruct_set_variable this2 _
  | Destruct_set_next this1 _, Destruct_set_next this2 _
  | Dummy_set_next this1 _, Dummy_set_next this2 _ => this1 = this2
  | Call_set_param_variable this1 param_index1 _,
    Call_set_param_variable this2 param_index2 _ =>
      this1 = this2 ∧ param_index1 = param_index2
  | _, _ => False
  end.

(** The procedures have the same instructions with the same members, and
    the same [prev_] and [users_] vectors up to the order. *)
Definition same_up_to_order (p p' : MFProcedure) : Prop :=
  (∀ X, payload_of p' X = payload_of p X) ∧
  same_variables p p' ∧ same_directory p p' ∧ same_multisets p p'.

(** ** The directory of a procedure *)

(** The vector of the procedure for instructions of one class. *)
Definition instructions_of_type (p : MFProcedure) (class : MFInstructionType)
    : list InstrPtr :=
  match class with
  | Call => call_instructions_ p
  | Branch => branch_instructions_ p
  | Destruct => destruct_instructions_ p
  | Dummy => dummy_instructions_ p
  | Return => return_instructions_ p
  end.

(** [all_instructions] as [to_dot] collects them. *)
Definition all_instructions (p : MFProcedure) : list InstrPtr :=
  call_instructions_ p ++ branch_instructions_ p ++ destruct_instructions_ p ++
  dummy_instructions_ p ++ return_instructions_ p.

(** Every object of the arena is in the vector of its class, once, and the
    identifier of a variable is its position in [variables_]. *)
Record registered (p : MFProcedure) : Prop := {
  registered_instructions :
    ∀ a object, instructions p !! a = Some object →
      a ∈ instructions_of_type p (type_ object);
  registered_once : NoDup (all_instructions p);
  registered_variables :
    ∀ v, is_Some (variable_store p !! v) → v ∈ variables_ p;
  registered_ids :
    ∀ i v, variables_ p !! i = Some v →
      ∃ object, variable_store p !! v = Some object ∧ id_ object = i
}.

(** ** The text of variables and instructions *)

(** The stream [ss] is passed along as the characters written to it so far;
    [<<] appends.  An [int] is written in decimal digits. *)
Definition variable_to_string (p : MFProcedure) (variable : option VarPtr) (ss : string)
    : option string :=
  match variable with
  | None => Some (ss +:+ "<none>")
  | Some variable =>
      object ← variable_store p !! variable;
      let ss := ss +:+ "$" +:+ pretty (id_ object) in
      if decide (name_ object = EmptyString) then Some ss
      else Some (ss +:+ "(" +:+ name_ object +:+ ")")
  end.

(** The [switch] on the interface type in [instruction_to_string]. *)
Definition interface_type_to_string (interface : InterfaceType) : string :=
  match interface with
  | Input => "in"
  | Mutable => "mut"
  | Output => "out"
  end.

(** The loop of [instruction_to_string] for a call instruction. *)
Fixpoint params_to_string (p : MFProcedure) (fn : MultiFunction)
    (params : list (option VarPtr)) (indices : list nat) (ss : string) : option string :=
  match indices with
  | [] => Some ss
  | param_index :: indices =>
      param_type ← param_type fn param_index;
      variable ← params !! param_index;
      let ss := ss +:+ interface_type_to_string (interface_type param_type) +:+ " " in
      ss ← variable_to_string p variable ss;
      let ss := if decide (param_index < param_amount fn - 1) then ss +:+ ", " else ss in
      params_to_string p fn params indices ss
  end.

(** The five overloads of [instruction_to_string], chosen by the class of the
    instruction as in the [switch] of [to_dot]. *)
Definition instruction_to_string (p : MFProcedure) (payload : MFPayload) (ss : string)
    : option string :=
  match payload with
  | CallData fn _ params =>
      params_to_string p fn params (param_indices fn) (ss +:+ name fn +:+ " - ")
  | DestructData variable _ => variable_to_string p variable (ss +:+ "Destruct ")
  | DummyData _ => Some (ss +:+ "Dummy")
  | ReturnData => Some (ss +:+ "Return")
  | BranchData condition _ _ => variable_to_string p condition (ss +:+ "Branch on ")
  end.

(** ** The graph for the dot export *)

(** Modelled from the spec: the graph of the dot export library, as far as
    [to_dot] uses it.  A node has a label and a shape, an edge has two ends
    and attributes, of which [to_dot] sets the color; a node or an edge is
    referred to by its position in the graph. *)
Inductive Attr_shape := Rectangle | Diamond | Circle.

Record DotNode := {
  node_label : string;
  node_shape : option Attr_shape
}.

Record DotEdge := {
  edge_from : nat;
  edge_to : nat;
  edge_color : option string
}.

Record DirectedGraph := {
  graph_nodes : list DotNode;
  graph_edges : list DotEdge
}.

Definition new_node (label : string) (digraph : DirectedGraph) : nat * DirectedGraph :=
  (length (graph_nodes digraph),
   {| graph_nodes := graph_nodes digraph ++ [ {| node_label := label; node_shape := None |} ];
      graph_edges := graph_edges digraph |}).

Definition set_shape (node : nat) (shape : Attr_shape) (digraph : DirectedGraph)
    : DirectedGraph :=
  {| graph_nodes :=
       alter (λ object, {| node_label := node_label object; node_shape := Some shape |})
             node (graph_nodes digraph);
     graph_edges := graph_edges digraph |}.

Definition new_edge (from_node to_node : nat) (digraph : DirectedGraph)
    : nat * DirectedGraph :=
  (length (graph_edges digraph),
   {| graph_nodes := graph_nodes digraph;
      graph_edges := graph_edges digraph ++
        [ {| edge_from := from_node; edge_to := to_node; edge_color := None |} ] |}).

Definition set_color (edge : nat) (color : string) (digraph : DirectedGraph)
    : DirectedGraph :=
  {| graph_nodes := graph_nodes digraph;
     graph_edges :=
       alter (λ object, {| edge_from := edge_from object; edge_to := edge_to object;
                           edge_color := Some color |})
             edge (graph_edges digraph) |}.

(** Modelled from the spec: [Map::add_new] of the container library, an
    insertion that asserts that the key is not in the map yet. *)
Definition Map_add_new (key value : nat) (map : gmap nat nat) : option (gmap nat nat) :=
  if decide (is_Some (map !! key)) then None else Some (<[key := value]> map).

(** A loop over [xs] that passes a state along and stops when the body is
    undefined. *)
Fixpoint for_each {A S} (body : A → S → option S) (xs : list A) (state : S) : option S :=
  match xs with
  | [] => Some state
  | x :: xs => state ← body x state; for_each body xs state
  end.

(** ** [to_dot] *)

(** The local variables of [to_dot] that the first loop changes. *)
Record DotState := {
  handled_instructions : gset nat;
  digraph : DirectedGraph;
  dot_nodes_by_begin : gmap nat nat;
  dot_nodes_by_end : gmap nat nat
}.

(** The inner loop: every instruction of the block is marked as handled and
    written to the stream, followed by the characters [\l]. *)
Definition block_instruction_to_string (p : MFProcedure) (current : InstrPtr)
    (state : gset nat * string) : option (gset nat * string) :=
  handled ← Set_add_new current state.1;
  object ← instructions p !! current;
  ss ← instruction_to_string p (payload object) state.2;
  Some (handled, ss +:+ "\l").

(** The body of the loop over [all_instructions]. *)
Definition to_dot_block (p : MFProcedure) (representative : InstrPtr) (state : DotState)
    : option DotState :=
  if decide (representative ∈ handled_instructions state) then Some state
  else
    block_instructions ← get_instructions_in_block p representative;
    '(handled, ss) ← for_each (block_instruction_to_string p) block_instructions
                              (handled_instructions state, EmptyString);
    let '(dot_node, digraph) := new_node ss (digraph state) in
    let digraph := set_shape dot_node Rectangle digraph in
    first ← head block_instructions;
    by_begin ← Map_add_new first dot_node (dot_nodes_by_begin state);
    last ← last block_instructions;
    by_end ← Map_add_new last dot_node (dot_nodes_by_end state);
    Some {| handled_instructions := handled; digraph := digraph;
            dot_nodes_by_begin := by_begin; dot_nodes_by_end := by_end |}.

(** The lambda [create_edge]. *)
Definition create_edge (by_begin : gmap nat nat) (from_node : nat)
    (to_instruction : option InstrPtr) (digraph : DirectedGraph)
    : option (nat * DirectedGraph) :=
  match to_instruction with
  | None =>
      let '(to_node, digraph) := new_node "missing" digraph in
      let digraph := set_shape to_node Diamond digraph in
      Some (new_edge from_node to_node digraph)
  | Some to_instruction =>
      to_node ← by_begin !! to_instruction;
      Some (new_edge from_node to_node digraph)
  end.

(** The body of the loop over the items of [dot_nodes_by_end]. *)
Definition to_dot_edges (p : MFProcedure) (by_begin : gmap nat nat) (item : nat * nat)
    (digraph : DirectedGraph) : option DirectedGraph :=
  let '(from_instruction, from_node) := item in
  object ← instructions p !! from_instruction;
  match payload object with
  | CallData _ to_instruction _ | DestructData _ to_instruction
  | DummyData to_instruction =>
      '(_, digraph) ← create_edge by_begin from_node to_instruction digraph;
      Some digraph
  | ReturnData => Some digraph
  | BranchData _ to_true_instruction to_false_instruction =>
      '(edge, digraph) ← create_edge by_begin from_node to_true_instruction digraph;
      let digraph := set_color edge "#118811" digraph in
      '(edge, digraph) ← create_edge by_begin from_node to_false_instruction digraph;
      Some (set_color edge "#881111" digraph)
  end.

Definition empty_graph : DirectedGraph := {| graph_nodes := []; graph_edges := [] |}.

(** The first loop of [to_dot], over [all_instructions]. *)
Definition to_dot_blocks (p : MFProcedure) : option DotState :=
  for_each (to_dot_block p) (all_instructions p)
           {| handled_instructions := ∅; digraph := empty_graph;
              dot_nodes_by_begin := ∅; dot_nodes_by_end := ∅ |}.

(** [to_dot] up to the graph that it hands to [to_dot_string] of the export
    library.  [items] is the order in which the map [dot_nodes_by_end] hands
    out its items. *)
Definition to_dot (items : gmap nat nat → list (nat * nat)) (p : MFProcedure)
    : option DirectedGraph :=
  state ← to_dot_blocks p;
  digraph ← for_each (to_dot_edges p (dot_nodes_by_begin state))
                     (items (dot_nodes_by_end state)) (digraph state);
  let '(entry_node, digraph) := new_node "Entry" digraph in
  let digraph := set_shape entry_node Circle digraph in
  '(_, digraph) ← create_edge (dot_nodes_by_begin state) entry_node (entry_ p) digraph;
  Some digraph.

(** What holds between two iterations of the first loop of [to_dot]: the
    handled instructions are whole blocks; the keys of the two maps are
    handled; every handled instruction that has to begin a block is a key of
    [dot_nodes_by_begin]; and every key of [dot_nodes_by_end] is the last
    instruction of a block whose first instruction is a key of
    [dot_nodes_by_begin]. *)
Record dot_invariant (p : MFProcedure) (state : DotState) : Prop := {
  dot_closed :
    ∀ x block y, x ∈ handled_instructions state →
      get_instructions_in_block p x = Some block → y ∈ block →
      y ∈ handled_instructions state;
  dot_begin_handled :
    ∀ x, is_Some (dot_nodes_by_begin state !! x) → x ∈ handled_instructions state;
  dot_end_handled :
    ∀ x, is_Some (dot_nodes_by_end state !! x) → x ∈ handled_instructions state;
  dot_begins :
    ∀ x, x ∈ handled_instructions state → has_to_be_block_begin p x = Some true →
      is_Some (dot_nodes_by_begin state !! x);
  dot_ends :
    ∀ x, is_Some (dot_nodes_by_end state !! x) →
      ∃ representative block_begin rest,
        get_instructions_in_block p representative = Some (block_begin :: rest) ∧
        last (block_begin :: rest) = Some x ∧
        is_Some (dot_nodes_by_begin state !! block_begin)
}.

(** ** Reading the text of a variable *)

Definition is_digit (c : ascii) : Prop :=
  c ∈ ["0"; "1"; "2"; "3"; "4"; "5"; "6"; "7"; "8"; "9"]%char.

Fixpoint all_digits (s : string) : Prop :=
  match s with
  | EmptyString => True
  | String c s => is_digit c ∧ all_digits s
  end.

(** The string does not go on with a digit. *)
Definition no_digit_ahead (s : string) : Prop :=
  match s with
  | EmptyString => True
  | String c _ => ¬ is_digit c
  end.

(** What [variable_to_string] writes after the identifier. *)
Definition name_suffix (object : MFVariable) : string :=
  if decide (name_ object = EmptyString) then EmptyString
  else "(" +:+ name_ object +:+ ")".

(** ** The way back, seen forward *)

(** A successor edge from [a] to [b], where [b] leaves the target variable
    as it is. *)
Definition step_through (p : MFProcedure) (target : VarPtr) (a b : InstrPtr) : Prop :=
  cfg_edge p a b ∧
  ∃ object, instructions p !! b = Some object ∧ transparent object target.

(** Successor edges lead from [x] to the target instruction, and every
    instruction between the two leaves the target variable as it is. *)
Definition leads_to (p : MFProcedure) (target_instruction : InstrPtr) (target : VarPtr)
    (x : InstrPtr) : Prop :=
  ∃ last, rtc (step_through p target) x last ∧ cfg_edge p last target_instruction.

(** ** The edges that [to_dot] creates *)

(** The edge [e] is what [create_edge] makes for the pointer
    [to_instruction]: it leads to the node of the block that begins at the
    target, or to a node labelled [missing] for a null pointer. *)
Definition pointer_edge (state : DotState) (graph : DirectedGraph)
    (to_instruction : option InstrPtr) (e : DotEdge) : Prop :=
  match to_instruction with
  | Some target => dot_nodes_by_begin state !! target = Some (edge_to e)
  | None =>
      ∃ node, graph_nodes graph !! edge_to e = Some node ∧ node_label node = "missing"
  end.

(** The edge [e] belongs to a successor pointer of an instruction with these
    members. *)
Definition slot_edge (state : DotState) (graph : DirectedGraph) (payload : MFPayload)
    (e : DotEdge) : Prop :=
  match payload with
  | CallData _ next _ | DestructData _ next | DummyData next =>
      pointer_edge state graph next e ∧ edge_color e = None
  | BranchData _ branch_true branch_false =>
      (pointer_edge state graph branch_true e ∧ edge_color e = Some "#118811") ∨
      (pointer_edge state graph branch_false e ∧ edge_color e = Some "#881111")
  | ReturnData => False
  end.

(** The edge [e] leaves the node of a block for a successor pointer of the
    last instruction of the block, or it is the edge from the node labelled
    [Entry] for the entry of the procedure. *)
Definition dot_edge (p : MFProcedure) (state : DotState) (graph : DirectedGraph)
    (e : DotEdge) : Prop :=
  (∃ block_end object,
     dot_nodes_by_end state !! block_end = Some (edge_from e) ∧
     instructions p !! block_end = Some object ∧
     slot_edge state graph (payload object) e) ∨
  ((∃ node, graph_nodes graph !! edge_from e = Some node ∧ node_label node = "Entry") ∧
   pointer_edge state graph (entry_ p) e ∧ edge_color e = None).

(** The nodes of [graph] are nodes of [graph'], with the same labels. *)
Definition graph_extends (graph graph' : DirectedGraph) : Prop :=
  ∀ i node, graph_nodes graph !! i = Some node →
    ∃ node', graph_nodes graph' !! i = Some node' ∧ node_label node' = node_label node.

(** ** The text of a call instruction, in one piece *)

(** What [variable_to_string] writes for a variable pointer that is null or
    live. *)
Definition variable_text (p : MFProcedure) (variable : option VarPtr) : string :=
  match variable with
  | None => "<none>"
  | Some variable =>
      match variable_store p !! variable with
      | Some object => "$" +:+ pretty (id_ object) +:+ name_suffix object
      | None => EmptyString
      end
  end.

(** What the loop of [instruction_to_string] writes for one parameter, before
    the separator. *)
Definition param_text (p : MFProcedure) (fn : MultiFunction) (params : list (option VarPtr))
    (param_index : nat) : string :=
  match param_type fn param_index, params !! param_index with
  | Some param_type, Some variable =>
      interface_type_to_string (interface_type param_type) +:+ " " +:+ variable_text p variable
  | _, _ => EmptyString
  end.
(** * Properties *)

(** ** Loops with early exit *)

Section early_exit.
Context {A : Type}.
Implicit Types (body : A → option bool) (xs : list A).

Lemma for_all_true body xs :
  for_all body xs = Some true ↔ ∀ x, x ∈ xs → body x = Some true.
Proof.
  induction xs as [|x xs IH]; simpl.
  - split; [intros _ y Hy; inversion Hy | done].
  - split.
    + intros H y Hy. destruct (body x) as [[]|] eqn:Hx; simplify_eq/=.
      apply elem_of_cons in Hy as [->|Hy]; [done | by apply IH].
    + intros H. rewrite (H x) by left. simpl. apply IH.
      intros y Hy. apply H. by right.
Qed.

Lemma for_all_is_Some body xs :
  (∀ x, x ∈ xs → is_Some (body x)) → is_Some (for_all body xs).
Proof.
  induction xs as [|x xs IH]; simpl; intros H; [by eexists|].
  destruct (H x) as [[] ->]; [by left | simpl | by eexists].
  apply IH. intros y Hy. apply H. by right.
Qed.


Lemma for_all_false_inv body xs :
  for_all body xs = Some false → ∃ x, x ∈ xs ∧ body x = Some false.
Proof.
  induction xs as [|x xs IH]; simpl; [done|].
  destruct (body x) as [[]|] eqn:Hx; simpl; [|intros _|done].
  - intros (y & Hy & Hfalse)%IH. exists y. split; [by right | done].
  - exists x. split; [by left | done].
Qed.

Lemma for_any_true body xs :
  (∀ x, x ∈ xs → is_Some (body x)) →
  for_any body xs = Some true ↔ ∃ x, x ∈ xs ∧ body x = Some true.
Proof.
  induction xs as [|x xs IH]; simpl; intros Hsome.
  - split; [done | intros (y & Hy & _); inversion Hy].
  - destruct (Hsome x) as [b Hb]; [by left|]. rewrite Hb. simpl.
    destruct b.
    + split; [intros _; exists x; split; [by left | done] | done].
    + rewrite IH by (intros y Hy; apply Hsome; by right). split.
      * intros (y & Hy & Hbody). exists y. split; [by right | done].
      * intros (y & Hy & Hbody). apply elem_of_cons in Hy as [->|Hy]; [congruence|].
        by exists y.
Qed.

Lemma for_any_is_Some body xs :
  (∀ x, x ∈ xs → is_Some (body x)) → is_Some (for_any body xs).
Proof.
  induction xs as [|x xs IH]; simpl; intros H; [by eexists|].
  destruct (H x) as [[] ->]; [by left | by eexists | simpl].
  apply IH. intros y Hy. apply H. by right.
Qed.
End early_exit.

Lemma param_type_is_Some fn i : i < param_amount fn → is_Some (param_type fn i).
Proof. apply lookup_lt_is_Some_2. Qed.

Lemma elem_of_param_indices fn i : i ∈ param_indices fn ↔ i < param_amount fn.
Proof. unfold param_indices. rewrite elem_of_seq. lia. Qed.

Lemma elem_of_push_multiple {A} (values stack : list A) x :
  x ∈ push_multiple values stack ↔ x ∈ values ∨ x ∈ stack.
Proof.
  unfold push_multiple. revert stack.
  induction values as [|v values IH]; intros stack; simpl.
  - split; [by right | intros [H|H]; [inversion H | done]].
  - rewrite IH, !elem_of_cons. tauto.
Qed.

Lemma push_multiple_length {A} (values stack : list A) :
  length (push_multiple values stack) = length values + length stack.
Proof.
  unfold push_multiple. revert stack.
  induction values as [|v values IH]; intros stack; simpl; [done|].
  rewrite IH. simpl. lia.
Qed.

(** ** The backward search: termination *)

Lemma prev_weight_delete (m : gmap nat MFInstruction) k object :
  m !! k = Some object →
  prev_weight m = length (prev_ object) + prev_weight (delete k m).
Proof.
  intros Hk. unfold prev_weight.
  apply (map_fold_delete_L (λ _ instruction n, length (prev_ instruction) + n)); [|done].
  intros. lia.
Qed.

Lemma call_outputs_variable_is_Some fn params target :
  length params = param_amount fn →
  is_Some (call_outputs_variable fn params target).
Proof.
  intros Hlen. apply for_any_is_Some. intros i Hi%elem_of_param_indices.
  destruct (lookup_lt_is_Some_2 params i) as [slot ->]; [lia|]. simpl.
  case_bool_decide; [|by eexists].
  destruct (lookup_lt_is_Some_2 (param_types fn) i) as [pt Hpt]; [done|].
  unfold param_type. rewrite Hpt. by eexists.
Qed.

Lemma examine_instruction_is_Some object target state :
  (∀ fn next params, payload object = CallData fn next params →
                     length params = param_amount fn) →
  is_Some (examine_instruction object target state).
Proof.
  intros Hparams. unfold examine_instruction.
  destruct (payload object) as [fn next params| | | |] eqn:Hpayload; try by eexists.
  destruct (call_outputs_variable_is_Some fn params target) as [b ->]; [by eapply Hparams|].
  by eexists.
Qed.

(** The loop, with the body written out. *)
Lemma search_unfold fuel p target_variable checked top rest state :
  search (S fuel) p target_variable checked (top :: rest) state
  = if decide (top ∈ checked) then search fuel p target_variable checked rest state
    else
      instruction ← instructions p !! top;
      '(state', state_modified) ← examine_instruction instruction target_variable state;
      if state_modified : bool then
        search fuel p target_variable ({[top]} ∪ checked) rest state'
      else
        search fuel p target_variable ({[top]} ∪ checked)
               (push_multiple (prev_ instruction) rest)
               (if decide (entry_ p = Some top)
                then check_entry_instruction p target_variable state'
                else state').
Proof.
  simpl. unfold search_iteration. case_decide; [done|].
  destruct (instructions p !! top) as [instruction|]; [simpl|done].
  by destruct (examine_instruction instruction target_variable state) as [[state' []]|].
Qed.

Section search_termination.
Context (p : MFProcedure) (target_variable : VarPtr).
Hypothesis prev_live :
  ∀ a object q, instructions p !! a = Some object → q ∈ prev_ object →
    is_Some (instructions p !! q).
Hypothesis params_allocated :
  ∀ a object fn next params, instructions p !! a = Some object →
    payload object = CallData fn next params → length params = param_amount fn.

(** Every iteration pops one element, and what an instruction pushes is
    paid for by its leaving the set of unchecked instructions. *)
Lemma search_is_Some fuel checked stack state (unchecked : gmap nat MFInstruction) :
  (∀ x, x ∈ stack → is_Some (instructions p !! x)) →
  (∀ x object, instructions p !! x = Some object → x ∉ checked →
               unchecked !! x = Some object) →
  length stack + prev_weight unchecked < fuel →
  is_Some (search fuel p target_variable checked stack state).
Proof.
  revert checked stack state unchecked.
  induction fuel as [|fuel IH]; intros checked stack state unchecked Hlive Hun Hfuel;
    [lia|].
  destruct stack as [|top stack]; [by eexists|]. rewrite search_unfold.
  simpl in Hfuel. destruct (decide (top ∈ checked)) as [Hin|Hnotin].
  { apply (IH _ _ _ unchecked); [|done|lia]. intros x Hx. apply Hlive. by right. }
  destruct (Hlive top) as [object Hobject]; [by left|]. rewrite Hobject. simpl.
  destruct (examine_instruction_is_Some object target_variable state) as [[state' m] ->];
    [by eauto|]. simpl.
  pose proof (prev_weight_delete unchecked top object (Hun _ _ Hobject Hnotin)) as Hweight.
  assert (∀ x object', instructions p !! x = Some object' → x ∉ {[top]} ∪ checked →
                       delete top unchecked !! x = Some object') as Hun'.
  { intros x object' Hx Hnot. rewrite lookup_delete_ne by set_solver.
    apply Hun; [done | set_solver]. }
  destruct m.
  - apply (IH _ _ _ (delete top unchecked)); [|done|lia].
    intros x Hx. apply Hlive. by right.
  - apply (IH _ _ _ (delete top unchecked)); [|done|].
    + intros x [Hx|Hx]%elem_of_push_multiple; [by eapply prev_live|].
      apply Hlive. by right.
    + rewrite push_multiple_length. lia.
Qed.

Lemma find_initialization_state_is_Some target_instruction :
  is_Some (instructions p !! target_instruction) →
  is_Some (find_initialization_state_before_instruction p target_instruction target_variable).
Proof.
  intros [target Htarget]. unfold find_initialization_state_before_instruction.
  rewrite Htarget.
  apply (search_is_Some _ _ _ _ (instructions p)).
  - intros x [Hx|Hx]%elem_of_push_multiple; [by eapply prev_live | inversion Hx].
  - done.
  - unfold search_fuel. rewrite push_multiple_length. simpl. lia.
Qed.
End search_termination.

(** More fuel does not change a result. *)
Lemma search_fuel_mono fuel fuel' p target_variable checked stack state result :
  search fuel p target_variable checked stack state = Some result →
  fuel ≤ fuel' →
  search fuel' p target_variable checked stack state = Some result.
Proof.
  revert fuel' checked stack state.
  induction fuel as [|fuel IH]; intros fuel' checked stack state Hsearch Hle; [done|].
  destruct fuel' as [|fuel']; [lia|].
  destruct stack as [|top stack]; [done|]. rewrite search_unfold in *.
  destruct (decide (top ∈ checked)); [apply IH; [done|lia]|].
  destruct (instructions p !! top) as [object|]; [simpl in *|done].
  destruct (examine_instruction object target_variable state) as [[state' []]|];
    [simpl in *..|done]; (apply IH; [done|lia]).
Qed.

(** The log is a ghost: dropping it gives [search]. *)
Lemma search_logged_fst fuel p target_variable checked stack state log :
  fst <$> search_logged fuel p target_variable checked stack state log
  = search fuel p target_variable checked stack state.
Proof.
  revert checked stack state log.
  induction fuel as [|fuel IH]; intros checked stack state log; [done|].
  destruct stack as [|top stack]; [done|]. rewrite search_unfold. simpl.
  destruct (decide (top ∈ checked)); [apply IH|].
  destruct (instructions p !! top) as [object|]; [simpl|done].
  destruct (examine_instruction object target_variable state) as [[state' []]|];
    [simpl..|done]; apply IH.
Qed.

Lemma find_initialization_state_logged_fst p target_instruction target_variable target :
  instructions p !! target_instruction = Some target →
  fst <$> find_initialization_state_logged (search_fuel p target) p
            target_instruction target_variable
  = find_initialization_state_before_instruction p target_instruction target_variable.
Proof.
  intros Htarget.
  unfold find_initialization_state_logged, find_initialization_state_before_instruction.
  rewrite Htarget. apply search_logged_fst.
Qed.

(** An instruction gets past the [checked_instructions] test at most once. *)
Lemma search_logged_examined_NoDup fuel p target_variable checked stack state log result :
  NoDup (examined log) →
  (∀ x, x ∈ examined log → x ∈ checked) →
  search_logged fuel p target_variable checked stack state log = Some result →
  NoDup (examined result.2).
Proof.
  revert checked stack state log.
  induction fuel as [|fuel IH]; intros checked stack state log Hnodup Hsub Hsearch; [done|].
  simpl in Hsearch. destruct stack as [|top stack]; [by simplify_eq|].
  destruct (decide (top ∈ checked)) as [Hin|Hnotin]; [by eapply IH|].
  destruct (instructions p !! top) as [object|]; [simpl in Hsearch|done].
  assert (NoDup (examined (log_examined top log))) as Hnodup'.
  { simpl. apply NoDup_app. split_and!; [done| |apply NoDup_singleton].
    intros x Hx ->%list_elem_of_singleton. by apply Hnotin, Hsub. }
  assert (∀ x, x ∈ examined (log_examined top log) → x ∈ {[top]} ∪ checked) as Hsub'.
  { simpl. intros x [Hx| ->%list_elem_of_singleton]%elem_of_app; [|set_solver].
    apply Hsub in Hx. set_solver. }
  destruct (examine_instruction object target_variable state) as [[state' []]|];
    [simpl in Hsearch..|done].
  - by eapply IH.
  - eapply IH; [| |done]; done.
Qed.

(** ** The entry state *)

Lemma validate_parameters_from_true variables params :
  validate_parameters_from variables params = true ↔
  NoDup (variable <$> params) ∧ ∀ x, x ∈ variable <$> params → x ∉ variables.
Proof.
  revert variables. induction params as [|param params IH]; intros variables; simpl.
  - split; [|done]. intros _. split; [constructor|]. intros x Hx. inversion Hx.
  - destruct (decide (variable param ∈ variables)) as [Hin|Hnotin].
    + split; [done|]. intros [_ Hfresh]. destruct (Hfresh (variable param)); [by left|done].
    + rewrite IH, NoDup_cons. split.
      * intros [Hnodup Hfresh]. split_and!; [|done|].
        -- intros Hdup. apply (Hfresh _ Hdup). set_solver.
        -- intros x [->|Hx]%elem_of_cons; [done|]. apply Hfresh in Hx. set_solver.
      * intros [[Hhead Hnodup] Hfresh]. split; [done|].
        intros x Hx [->%elem_of_singleton|Hin]%elem_of_union; [done|].
        apply (Hfresh x); [by right | done].
Qed.

Lemma validate_parameters_NoDup p :
  validate_parameters p = true ↔ NoDup (variable <$> params_ p).
Proof.
  unfold validate_parameters. rewrite validate_parameters_from_true.
  split; [by intros [? _]|]. intros Hnodup. split; [done|]. set_solver.
Qed.

Lemma caller_initialized_variable_true p target :
  caller_initialized_variable p target = true ↔
  ∃ param, param ∈ params_ p ∧ variable param = target ∧ type param ∈ [Input; Mutable].
Proof.
  unfold caller_initialized_variable. rewrite existsb_exists. unfold ELEM.
  split; intros (param & Hin & H); exists param.
  - apply andb_prop in H as [H1%bool_decide_eq_true H2%bool_decide_eq_true].
    by rewrite list_elem_of_In.
  - destruct H as [H1 H2]. rewrite <-list_elem_of_In. split; [done|].
    apply andb_true_intro. by rewrite !bool_decide_eq_true.
Qed.

Lemma NoDup_fmap_elem_eq {A B} (f : A → B) (l : list A) x y :
  NoDup (f <$> l) → x ∈ l → y ∈ l → f x = f y → x = y.
Proof.
  induction l as [|a l IH]; simpl; [by intros _ Hx; inversion Hx|].
  rewrite NoDup_cons. intros [Hhead Hnodup] Hx Hy Heq.
  apply elem_of_cons in Hx as [->|Hx]; apply elem_of_cons in Hy as [->|Hy]; try done.
  - destruct Hhead. rewrite Heq. by apply list_elem_of_fmap_2.
  - destruct Hhead. rewrite <-Heq. by apply list_elem_of_fmap_2.
  - by apply IH.
Qed.



(** ** Block discovery *)

(** C9. An instruction has to begin a block exactly when it is the entry of
    the procedure, or the size of its [prev_] vector is not one, or its only
    predecessor is a branch instruction. *)
Theorem has_to_be_block_begin_iff p instruction object :
  instructions p !! instruction = Some object →
  (∀ q, q ∈ prev_ object → is_Some (instructions p !! q)) →
  ∃ b, has_to_be_block_begin p instruction = Some b ∧
       (b = true ↔
          entry_ p = Some instruction ∨
          length (prev_ object) ≠ 1 ∨
          ∃ q prev_object, prev_ object = [q] ∧ instructions p !! q = Some prev_object ∧
                           type_ prev_object = Branch).
Proof.
  intros Hobject Hlive. unfold has_to_be_block_begin.
  destruct (decide (entry_ p = Some instruction)) as [Hentry|Hentry];
    [exists true; by intuition|].
  rewrite Hobject. simpl.
  destruct (decide (length (prev_ object) ≠ 1)) as [Hsize|Hsize];
    [exists true; by intuition|].
  destruct (prev_ object) as [|q [|? ?]] eqn:Hprev; simpl in Hsize; try lia. simpl.
  destruct (Hlive q) as [prev_object Hq]; [by left|]. rewrite Hq. simpl.
  destruct (decide (type_ prev_object = Branch)) as [Hbranch|Hbranch].
  - exists true. split; [done|]. split; [|done]. intros _. right. right.
    by exists q, prev_object.
  - exists false. split; [done|]. split; [done|].
    intros [?|[?|(q' & prev_object' & ? & Hq' & ?)]]; [done..|]. simplify_eq.
Qed.

Lemma has_to_be_block_begin_iff_witness :
  ∃ b, has_to_be_block_begin example_diamond 1 = Some b ∧
       (b = true ↔
          entry_ example_diamond = Some 1 ∨
          length [0] ≠ 1 ∨
          ∃ q prev_object, [0] = [q] ∧ instructions example_diamond !! q = Some prev_object ∧
                           type_ prev_object = Branch).
Proof.
  apply (has_to_be_block_begin_iff example_diamond 1
           {| prev_ := [0]; payload := DummyData (Some 3) |}).
  - reflexivity.
  - intros q ->%list_elem_of_singleton. vm_compute. eauto.
Defined.

(** ** One iteration of the backward search *)

Lemma call_outputs_variable_true fn params target :
  length params = param_amount fn →
  call_outputs_variable fn params target = Some true ↔
  ∃ param_index param_type',
    params !! param_index = Some (Some target) ∧
    param_type fn param_index = Some param_type' ∧
    interface_type param_type' = Output.
Proof.
  intros Hlen. unfold call_outputs_variable. rewrite for_any_true.
  - split.
    + intros (i & Hi & Hbody). destruct (params !! i) as [slot|] eqn:Hslot; [|done].
      simpl in Hbody. case_bool_decide; [|done]. subst slot.
      destruct (param_type fn i) as [pt|] eqn:Hpt; [|done]. simpl in Hbody.
      exists i, pt. split_and!; [done..|].
      injection Hbody as Hout. by apply bool_decide_eq_true in Hout.
    + intros (i & pt & Hslot & Hpt & Hout). exists i. split.
      * apply elem_of_param_indices. rewrite <-Hlen. by eapply lookup_lt_Some.
      * rewrite Hslot. simpl. rewrite bool_decide_eq_true_2 by done.
        rewrite Hpt. simpl. by rewrite bool_decide_eq_true_2.
  - intros i Hi%elem_of_param_indices.
    destruct (lookup_lt_is_Some_2 params i) as [slot ->]; [lia|]. simpl.
    case_bool_decide; [|by eexists].
    destruct (lookup_lt_is_Some_2 (param_types fn) i) as [pt Hpt]; [done|].
    unfold param_type. rewrite Hpt. by eexists.
Qed.

Lemma examine_instruction_cases object target state :
  (∀ fn next params, payload object = CallData fn next params →
                     length params = param_amount fn) →
  (writes_output object target →
     examine_instruction object target state = Some (set_can_be_initialized state, true)) ∧
  (destructs object target →
     examine_instruction object target state = Some (set_can_be_uninitialized state, true)) ∧
  (¬ writes_output object target → ¬ destructs object target →
     examine_instruction object target state = Some (state, false)).
Proof.
  intros Hparams. unfold examine_instruction, writes_output, destructs. split_and!.
  - intros (fn & next & params & i & pt & Hpayload & Hslot & Hpt & Hout).
    rewrite Hpayload.
    assert (call_outputs_variable fn params target = Some true) as ->; [|done].
    apply call_outputs_variable_true; [by eapply Hparams | by eauto].
  - intros [next ->]. by rewrite bool_decide_eq_true_2.
  - intros Hwrites Hdestructs.
    destruct (payload object) as [fn next params| |variable next| |] eqn:Hpayload; try done.
    + destruct (call_outputs_variable_is_Some fn params target) as [b Hb];
        [by eapply Hparams|]. rewrite Hb. destruct b; [|done].
      apply call_outputs_variable_true in Hb as (i & pt & ? & ? & ?); [|by eapply Hparams].
      destruct Hwrites. by exists fn, next, params, i, pt.
    + case_bool_decide; [|done]. subst variable. destruct Hdestructs. by exists next.
Qed.




(** ** Well-formedness is decidable *)

Lemma forallb_elem_of {A} (f : A → bool) (l : list A) :
  forallb f l = true ↔ ∀ x, x ∈ l → f x = true.
Proof. rewrite forallb_forall. by setoid_rewrite list_elem_of_In. Qed.

Lemma well_formedb_correct p : well_formedb p = true → well_formed p.
Proof.
  unfold well_formedb. rewrite !andb_true_iff, !forallb_elem_of.
  intros (((((Hcall & Hbranch) & Hdestruct) & Hdummy) & Hreturn) & Harena).
  assert (∀ a object, instructions p !! a = Some object →
            (∀ q, q ∈ prev_ object → is_Some (instructions p !! q)) ∧
            ∀ fn next params, payload object = CallData fn next params →
                              length params = param_amount fn) as Harena'.
  { intros a object Ha%elem_of_map_to_list. apply Harena in Ha. simpl in Ha.
    apply andb_true_iff in Ha as [Hprev Hparams]. split.
    - intros q Hq. rewrite forallb_elem_of in Hprev.
      by apply Hprev, bool_decide_eq_true in Hq.
    - intros fn next params Hpayload. rewrite Hpayload in Hparams.
      by apply bool_decide_eq_true in Hparams. }
  split.
  - intros a Ha. by apply Hcall, bool_decide_eq_true in Ha.
  - intros a Ha. by apply Hbranch, bool_decide_eq_true in Ha.
  - intros a Ha. by apply Hdestruct, bool_decide_eq_true in Ha.
  - intros a Ha. by apply Hdummy, bool_decide_eq_true in Ha.
  - intros a Ha. apply Hreturn, bool_decide_eq_true in Ha.
    destruct (instructions p !! a) as [object|]; [|done]. exists object.
    split; [done|]. by simplify_eq/=.
  - intros a object q Ha Hq. by eapply Harena'.
  - intros a object fn next params Ha Hpayload. by eapply Harena'.
Qed.

(** ** Aliasing within one call *)

Section aliasing.
Context (fn : MultiFunction) (params : list (option VarPtr)).
Hypothesis params_allocated : length params = param_amount fn.

Lemma same_variables_in_call_is_Some : is_Some (same_variables_in_call fn params).
Proof.
  apply for_all_is_Some. intros i Hi%elem_of_param_indices.
  cbv beta. destruct (param_type_is_Some fn i) as [pt ->]; [done|]. simpl.
  destruct (lookup_lt_is_Some_2 params i) as [variable ->]; [lia|]. simpl.
  apply for_all_is_Some. intros j Hj%elem_of_param_indices. cbv beta.
  case_decide; [by eexists|].
  destruct (lookup_lt_is_Some_2 params j) as [other ->]; [lia|]. simpl.
  case_decide; [by eexists|]. destruct (ELEM _ _); [by eexists|].
  destruct (param_type_is_Some fn j) as [pt' ->]; [done|]. by eexists.
Qed.

Lemma same_variables_in_call_false :
  (∀ slot, slot ∈ params → slot ≠ None) →
  same_variables_in_call fn params = Some false ↔ aliased fn params.
Proof.
  intros Hprovided. split.
  - intros (i & Hi & Hbody)%for_all_false_inv.
    destruct (param_type fn i) as [pt|] eqn:Hpt; [simpl in Hbody|done].
    destruct (params !! i) as [variable|] eqn:Hvariable; [simpl in Hbody|done].
    apply for_all_false_inv in Hbody as (j & Hj & Hbody).
    case_decide as Hne; [done|].
    destruct (params !! j) as [other|] eqn:Hother; [simpl in Hbody|done].
    case_decide as Hsame; [done|]. subst other.
    destruct variable as [v|];
      [|by destruct (Hprovided None); [eapply list_elem_of_lookup_2|]].
    unfold ELEM in Hbody. case_bool_decide as Hrole.
    + by exists i, j, v, pt.
    + destruct (param_type fn j) as [pt'|] eqn:Hpt'; [simpl in Hbody|done].
      injection Hbody as Hinput. apply bool_decide_eq_false in Hinput.
      exists j, i, v, pt'. split_and!; [done..|].
      destruct (interface_type pt'); [done|set_solver..].
  - intros (i & j & v & pt & Hne & Hi & Hj & Hpt & Hrole).
    destruct same_variables_in_call_is_Some as [[] Hresult]; [|done].
    unfold same_variables_in_call in Hresult. rewrite for_all_true in Hresult.
    specialize (Hresult i). rewrite Hpt, Hi in Hresult. simpl in Hresult.
    assert (i ∈ param_indices fn) as Hi'.
    { apply elem_of_param_indices. rewrite <-params_allocated. by eapply lookup_lt_Some. }
    specialize (Hresult Hi'). rewrite for_all_true in Hresult.
    specialize (Hresult j). rewrite decide_False, Hj in Hresult by done.
    simpl in Hresult. rewrite decide_False in Hresult by (by intros []).
    unfold ELEM in Hresult. rewrite bool_decide_eq_true_2 in Hresult by done.
    assert (j ∈ param_indices fn) as Hj'.
    { apply elem_of_param_indices. rewrite <-params_allocated. by eapply lookup_lt_Some. }
    by specialize (Hresult Hj').
Qed.
End aliasing.

(** ** The stages of the validator *)

Lemma decides_for_all {A} (body : A → option bool) (xs : list A) (P : A → Prop) :
  (∀ x, x ∈ xs → decides (body x) (P x)) →
  decides (for_all body xs) (∀ x, x ∈ xs → P x).
Proof.
  intros Hbody.
  destruct (for_all_is_Some body xs) as [b Hb].
  { intros x Hx. destruct (Hbody x Hx) as (b & -> & _). by eexists. }
  exists b. split; [done|]. destruct b.
  - split; [intros _|done]. intros x Hx.
    rewrite for_all_true in Hb. destruct (Hbody x Hx) as (b & Hx' & <-).
    rewrite (Hb x Hx) in Hx'. by simplify_eq.
  - split; [done|]. intros HP.
    apply for_all_false_inv in Hb as (x & Hx & Hfalse).
    destruct (Hbody x Hx) as (b & Hx' & Hiff). rewrite Hfalse in Hx'. simplify_eq.
    by apply Hiff, HP.
Qed.

Lemma decides_and_then first second (P Q : Prop) :
  decides first P → (P → decides second Q) → decides (and_then first second) (P ∧ Q).
Proof.
  intros (b & -> & HP) Hsecond. destruct b; simpl.
  - destruct Hsecond as (b & -> & HQ); [by apply HP|]. exists b. split; [done|].
    rewrite HQ. split; [|by intros [? ?]]. intros ?. split; [by apply HP | done].
  - exists false. split; [done|]. split; [done|]. intros [HP' _]. by apply HP.
Qed.

Lemma decides_iff check (P Q : Prop) : (P ↔ Q) → decides check P → decides check Q.
Proof. intros HPQ (b & ? & ?). exists b. by rewrite <-HPQ. Qed.

Lemma decides_Some (b : bool) (P : Prop) : (b = true ↔ P) → decides (Some b) P.
Proof. intros ?. by exists b. Qed.

Lemma nonnull_true {A} (pointer : option A) : nonnull pointer = true ↔ pointer ≠ None.
Proof. destruct pointer; simpl; split; done. Qed.

(** Both sides of the equivalence quantify over the same things in another order. *)
Ltac shuffle_binders := split; intros H **; eapply H; eauto.

(** The property of the object that a pointer was just dereferenced to. *)
Ltac unpack_deref := split; [intros ? **; by simplify_eq | intros H; by eapply H].

Section stages.
Context (p : MFProcedure).
Hypothesis Hwf : well_formed p.

Lemma call_instruction_lookup a fn next params :
  call_instruction p a = Some (fn, next, params) →
  ∃ object, instructions p !! a = Some object ∧ payload object = CallData fn next params.
Proof.
  unfold call_instruction. destruct (instructions p !! a) as [object|]; [simpl|done].
  destruct (payload object) eqn:?; intros ?; simplify_eq. by exists object.
Qed.

Lemma branch_instruction_lookup a condition branch_true branch_false :
  branch_instruction p a = Some (condition, branch_true, branch_false) →
  ∃ object, instructions p !! a = Some object ∧
            payload object = BranchData condition branch_true branch_false.
Proof.
  unfold branch_instruction. destruct (instructions p !! a) as [object|]; [simpl|done].
  destruct (payload object) eqn:?; intros ?; simplify_eq. by exists object.
Qed.

Lemma destruct_instruction_lookup a variable next :
  destruct_instruction p a = Some (variable, next) →
  ∃ object, instructions p !! a = Some object ∧ payload object = DestructData variable next.
Proof.
  unfold destruct_instruction. destruct (instructions p !! a) as [object|]; [simpl|done].
  destruct (payload object) eqn:?; intros ?; simplify_eq. by exists object.
Qed.

Lemma call_params_allocated a fn next params :
  call_instruction p a = Some (fn, next, params) → length params = param_amount fn.
Proof.
  intros (object & Hobject & Hpayload)%call_instruction_lookup.
  by eapply (wf_params p Hwf).
Qed.

Lemma validate_all_instruction_pointers_set_decides :
  decides (validate_all_instruction_pointers_set p) (all_instruction_pointers_set p).
Proof.
  unfold validate_all_instruction_pointers_set, all_instruction_pointers_set.
  repeat (apply decides_and_then; [|intros _]).
  - eapply decides_iff; [|apply decides_for_all with
      (P := λ a, ∀ fn next params, call_instruction p a = Some (fn, next, params) →
                                   next ≠ None)]; [shuffle_binders|].
    intros a [[[fn next] params] Ha]%(wf_call_instructions p Hwf). rewrite Ha. simpl.
    apply decides_Some. rewrite nonnull_true. unpack_deref.
  - eapply decides_iff; [|apply decides_for_all with
      (P := λ a, ∀ variable next, destruct_instruction p a = Some (variable, next) →
                                  next ≠ None)]; [shuffle_binders|].
    intros a [[variable next] Ha]%(wf_destruct_instructions p Hwf). rewrite Ha. simpl.
    apply decides_Some. rewrite nonnull_true. unpack_deref.
  - eapply decides_iff; [|apply decides_for_all with
      (P := λ a, ∀ condition branch_true branch_false,
              branch_instruction p a = Some (condition, branch_true, branch_false) →
              branch_true ≠ None ∧ branch_false ≠ None)]; [shuffle_binders|].
    intros a [[[condition branch_true] branch_false] Ha]%(wf_branch_instructions p Hwf).
    rewrite Ha. simpl. apply decides_Some.
    rewrite andb_true_iff, !nonnull_true. unpack_deref.
  - eapply decides_iff; [|apply decides_for_all with
      (P := λ a, ∀ next, dummy_instruction p a = Some next → next ≠ None)];
      [shuffle_binders|].
    intros a [next Ha]%(wf_dummy_instructions p Hwf). rewrite Ha. simpl.
    apply decides_Some. rewrite nonnull_true. unpack_deref.
Qed.

Lemma validate_all_params_provided_decides :
  decides (validate_all_params_provided p) (all_params_provided p).
Proof.
  unfold validate_all_params_provided, all_params_provided.
  repeat (apply decides_and_then; [|intros _]).
  - eapply decides_iff; [|apply decides_for_all with
      (P := λ a, ∀ fn next params, call_instruction p a = Some (fn, next, params) →
                                   ∀ slot, slot ∈ params → slot ≠ None)]; [shuffle_binders|].
    intros a [[[fn next] params] Ha]%(wf_call_instructions p Hwf). rewrite Ha. simpl.
    eapply decides_iff; [|apply decides_for_all with (P := λ slot, slot ≠ None)].
    + split; [intros H ? ? ? ? **; simplify_eq; by apply H | intros H; by eapply H].
    + intros slot _. apply decides_Some, nonnull_true.
  - eapply decides_iff; [|apply decides_for_all with
      (P := λ a, ∀ condition branch_true branch_false,
              branch_instruction p a = Some (condition, branch_true, branch_false) →
              condition ≠ None)]; [shuffle_binders|].
    intros a [[[condition branch_true] branch_false] Ha]%(wf_branch_instructions p Hwf).
    rewrite Ha. simpl. apply decides_Some. rewrite nonnull_true. unpack_deref.
  - eapply decides_iff; [|apply decides_for_all with
      (P := λ a, ∀ variable next, destruct_instruction p a = Some (variable, next) →
                                  variable ≠ None)]; [shuffle_binders|].
    intros a [[variable next] Ha]%(wf_destruct_instructions p Hwf). rewrite Ha. simpl.
    apply decides_Some. rewrite nonnull_true. unpack_deref.
Qed.

Lemma same_variables_in_call_decides fn params :
  length params = param_amount fn →
  (∀ slot, slot ∈ params → slot ≠ None) →
  decides (same_variables_in_call fn params) (¬ aliased fn params).
Proof.
  intros Hlen Hprovided.
  destruct (same_variables_in_call_is_Some fn params Hlen) as [b Hb].
  exists b. split; [done|].
  rewrite <-(same_variables_in_call_false fn params Hlen Hprovided), Hb.
  destruct b; split; done.
Qed.

Lemma validate_same_variables_in_one_call_decides :
  all_params_provided p →
  decides (validate_same_variables_in_one_call p) (no_aliasing p).
Proof.
  intros (Hprovided & _). unfold validate_same_variables_in_one_call, no_aliasing.
  eapply decides_iff; [|apply decides_for_all with
    (P := λ a, ∀ fn next params, call_instruction p a = Some (fn, next, params) →
                                 ¬ aliased fn params)]; [shuffle_binders|].
  intros a Ha. destruct (wf_call_instructions p Hwf a Ha) as [[[fn next] params] Hcall].
  rewrite Hcall. simpl.
  eapply decides_iff; [|apply same_variables_in_call_decides].
  - unpack_deref.
  - by eapply call_params_allocated.
  - by eapply Hprovided.
Qed.
End stages.

(** ** The initialization stage *)

Lemma should_be_initialized_on_return_from_spec set params :
  NoDup (variable <$> params) →
  (∀ x, x ∈ variable <$> params → x ∉ set) →
  ∃ result, should_be_initialized_on_return_from set params = Some result ∧
    ∀ v, v ∈ result ↔
         v ∈ set ∨ ∃ param, param ∈ params ∧ variable param = v ∧
                            type param ∈ [Mutable; Output].
Proof.
  revert set. induction params as [|param params IH]; intros set; simpl.
  - intros _ _. exists set. split; [done|]. intros v. split; [by left|].
    intros [?|(param & Hin & _)]; [done|]. inversion Hin.
  - rewrite NoDup_cons. intros [Hhead Hnodup] Hfresh.
    unfold ELEM, Set_add_new. case_bool_decide as Hrole.
    + rewrite decide_False by (apply Hfresh; by left). simpl.
      destruct (IH ({[variable param]} ∪ set) Hnodup) as (result & -> & Hresult).
      { intros x Hx [->%elem_of_singleton|Hin]%elem_of_union; [done|].
        apply (Hfresh x); [by right | done]. }
      exists result. split; [done|]. intros v. rewrite Hresult, elem_of_union.
      rewrite elem_of_singleton. split.
      * intros [[->|?]|(param' & ? & ? & ?)]; [right|by left|right].
        -- exists param. split_and!; [by left|done..].
        -- exists param'. split_and!; [by right|done..].
      * intros [?|(param' & [->|?]%elem_of_cons & ? & ?)];
          [by left; right | by left; left | right]. by exists param'.
    + simpl. destruct (IH set Hnodup) as (result & -> & Hresult).
      { intros x Hx. apply Hfresh. by right. }
      exists result. split; [done|]. intros v. rewrite Hresult. split.
      * intros [?|(param' & ? & ? & ?)]; [by left|right].
        exists param'. split_and!; [by right|done..].
      * intros [?|(param' & [->|?]%elem_of_cons & ? & ?)]; [by left|done|right].
        by exists param'.
Qed.

Lemma variables_that_should_be_initialized_on_return_spec p :
  parameters_unique p →
  ∃ result, variables_that_should_be_initialized_on_return p = Some result ∧
            ∀ v, v ∈ result ↔ must_be_initialized_on_return p v.
Proof.
  intros Hunique.
  destruct (should_be_initialized_on_return_from_spec ∅ (params_ p) Hunique)
    as (result & Hresult & Hspec); [set_solver|].
  exists result. split; [done|]. intros v. rewrite Hspec.
  unfold must_be_initialized_on_return, listed_with. split.
  - intros [?|([role v'] & Hin & Hv & Hrole)]; [set_solver|]. simpl in *. subst v'.
    apply elem_of_cons in Hrole as [->|Hrole]; [by left|].
    apply list_elem_of_singleton in Hrole as ->. by right.
  - intros [?|?]; right; eexists; (split; [done|]); simpl; (split; [done|]); set_solver.
Qed.

Section initialization_stage.
Context (p : MFProcedure).
Hypothesis Hwf : well_formed p.

Lemma state_before_decides a v (check : InitState → bool) (P : InitState → Prop) :
  is_Some (instructions p !! a) →
  (∀ state, check state = true ↔ P state) →
  decides (state ← find_initialization_state_before_instruction p a v;
           Some (check state))
          (state_before p a v P).
Proof.
  intros Ha Hcheck.
  destruct (find_initialization_state_is_Some p v (wf_prev p Hwf) (wf_params p Hwf) a Ha)
    as [state Hstate].
  rewrite Hstate. simpl. apply decides_Some. rewrite Hcheck. unfold state_before. split.
  - intros ?. by exists state.
  - intros (state' & ? & ?). by simplify_eq.
Qed.

Lemma validate_initialization_decides :
  all_params_provided p →
  parameters_unique p →
  decides (validate_initialization p) (initialization_requirements p).
Proof.
  intros (Hcall & Hbranch & Hdestruct) Hunique.
  unfold validate_initialization, initialization_requirements.
  repeat (apply decides_and_then; [|intros _]).
  - eapply decides_iff; [|apply decides_for_all with
      (P := λ a, ∀ v next, destruct_instruction p a = Some (Some v, next) →
               state_before p a v (λ state, can_be_initialized state = true))];
      [shuffle_binders|].
    intros a Ha.
    destruct (wf_destruct_instructions p Hwf a Ha) as [[variable next] Hderef].
    rewrite Hderef. simpl.
    destruct variable as [v|]; [simpl|by destruct (Hdestruct _ _ _ Ha Hderef)].
    eapply decides_iff; [|apply state_before_decides
      with (check := can_be_initialized)
           (P := λ state, can_be_initialized state = true); [|done]].
    + unpack_deref.
    + apply destruct_instruction_lookup in Hderef as (? & -> & _). by eexists.
  - eapply decides_iff; [|apply decides_for_all with
      (P := λ a, ∀ v branch_true branch_false,
               branch_instruction p a = Some (Some v, branch_true, branch_false) →
               state_before p a v (λ state, can_be_initialized state = true))];
      [shuffle_binders|].
    intros a Ha.
    destruct (wf_branch_instructions p Hwf a Ha)
      as [[[condition branch_true] branch_false] Hderef].
    rewrite Hderef. simpl.
    destruct condition as [v|]; [simpl|by destruct (Hbranch _ _ _ _ Ha Hderef)].
    eapply decides_iff; [|apply state_before_decides
      with (check := can_be_initialized)
           (P := λ state, can_be_initialized state = true); [|done]].
    + unpack_deref.
    + apply branch_instruction_lookup in Hderef as (? & -> & _). by eexists.
  - eapply decides_iff; [|apply decides_for_all with
      (P := λ a, ∀ fn next params param_index param_type' v,
               call_instruction p a = Some (fn, next, params) →
               param_type fn param_index = Some param_type' →
               params !! param_index = Some (Some v) →
               state_before p a v
                 (λ state, call_requirement (interface_type param_type') state = true))];
      [shuffle_binders|].
    intros a Ha.
    destruct (wf_call_instructions p Hwf a Ha) as [[[fn next] params] Hderef].
    rewrite Hderef. simpl.
    pose proof (call_params_allocated p Hwf _ _ _ _ Hderef) as Hlen.
    eapply decides_iff; [|apply decides_for_all with
      (P := λ i, ∀ param_type' v,
               param_type fn i = Some param_type' →
               params !! i = Some (Some v) →
               state_before p a v
                 (λ state, call_requirement (interface_type param_type') state = true))].
    + split.
      * intros H fn' next' params' i pt v ? Hpt Hslot. simplify_eq.
        apply (H i); [|done..]. apply elem_of_param_indices. by eapply lookup_lt_Some.
      * intros H i _ pt v Hpt Hslot. by eapply H.
    + intros i Hi%elem_of_param_indices. cbv beta.
      destruct (param_type_is_Some fn i Hi) as [pt Hpt]. rewrite Hpt. simpl.
      destruct (lookup_lt_is_Some_2 params i) as [slot Hslot]; [lia|].
      rewrite Hslot. simpl.
      destruct slot as [v|];
        [simpl|by destruct (Hcall _ _ _ _ Ha Hderef None);
                  [eapply list_elem_of_lookup_2|]].
      eapply decides_iff; [|apply state_before_decides
        with (check := call_requirement (interface_type pt))
             (P := λ state, call_requirement (interface_type pt) state = true); [|done]].
      * unpack_deref.
      * apply call_instruction_lookup in Hderef as (? & -> & _). by eexists.
  - destruct (variables_that_should_be_initialized_on_return_spec p Hunique)
      as (should & -> & Hshould). simpl.
    eapply decides_iff; [|apply decides_for_all with
      (P := λ a, ∀ v, v ∈ variables_ p → state_before p a v (return_requirement_holds p v))];
      [shuffle_binders|].
    intros a Ha. apply decides_for_all. intros v Hv.
    apply state_before_decides.
    + destruct (wf_return_instructions p Hwf a Ha) as (object & -> & _). by eexists.
    + intros state. unfold return_requirement, return_requirement_holds.
      case_decide as Hin; rewrite Hshould in Hin; split; tauto.
Qed.
End initialization_stage.

(** The stages after the test of the entry, in their order. *)
Lemma validate_stages_decide p :
  well_formed p →
  decides (and_then (validate_all_instruction_pointers_set p)
          (and_then (validate_all_params_provided p)
          (and_then (validate_same_variables_in_one_call p)
          (and_then (Some (validate_parameters p))
                    (validate_initialization p)))))
          (all_instruction_pointers_set p ∧ all_params_provided p ∧ no_aliasing p ∧
           parameters_unique p ∧ initialization_requirements p).
Proof.
  intros Hwf.
  apply decides_and_then; [by apply validate_all_instruction_pointers_set_decides|].
  intros _. apply decides_and_then; [by apply validate_all_params_provided_decides|].
  intros Hprovided.
  apply decides_and_then; [by apply validate_same_variables_in_one_call_decides|].
  intros _. apply decides_and_then.
  { apply decides_Some, validate_parameters_NoDup. }
  intros Hunique. by apply validate_initialization_decides.
Qed.

(** [validate] returns, and a passing validation meets the requirements of the
    initialization analysis. *)
Lemma validate_requirements p :
  well_formed p →
  ∃ b, validate p = Some b ∧ (b = true → initialization_requirements p).
Proof.
  intros Hwf. unfold validate.
  destruct (decide (entry_ p = None)); [by exists false|].
  destruct (validate_stages_decide p Hwf) as (b & Hb & Hiff).
  exists b. split; [done|]. intros Htrue. by apply Hiff in Htrue as (_ & _ & _ & _ & ?).
Qed.

(** C2. On a well-formed arena [validate] returns, and it returns [true]
    exactly when all six stages pass: the entry is set; every successor
    pointer is set; every operand is present; no call aliases a variable
    through a [Mutable] or [Output] slot; the parameters of the procedure are
    unique; and the requirements of the initialization analysis hold.  A stage
    is only evaluated when the stages before it passed. *)
Theorem validate_decides_valid p :
  well_formed p → decides (validate p) (valid p).
Proof.
  intros Hwf. unfold validate, valid, entry_set.
  destruct (decide (entry_ p = None)) as [Hentry|Hentry].
  - exists false. split; [done|]. split; [done|]. by intros [? _].
  - eapply decides_iff; [|by apply validate_stages_decide]. tauto.
Qed.

Lemma validate_decides_valid_witness : decides (validate example_identity) (valid example_identity).
Proof.
  apply (validate_decides_valid example_identity).
  apply well_formedb_correct. vm_compute. reflexivity.
Defined.

(** ** Requirements at the return instructions *)

(** C5. For every return instruction and every variable of the procedure, a
    passing validation means that the state before the return has
    [can_be_initialized] when the variable is a [Mutable] or [Output]
    parameter of the procedure and [can_be_uninitialized] otherwise; a state
    that violates this makes [validate] return [false]. *)
Theorem validate_return_requirement p :
  well_formed p →
  (validate p = Some true →
     ∀ a v, a ∈ return_instructions_ p → v ∈ variables_ p →
            state_before p a v (return_requirement_holds p v)) ∧
  (∀ a v state, a ∈ return_instructions_ p → v ∈ variables_ p →
     find_initialization_state_before_instruction p a v = Some state →
     ¬ return_requirement_holds p v state →
     validate p = Some false).
Proof.
  intros Hwf. destruct (validate_requirements p Hwf) as (b & Hvalidate & Hvalid). split.
  - intros Htrue. rewrite Htrue in Hvalidate. injection Hvalidate as <-.
    destruct (Hvalid eq_refl) as (_ & _ & _ & Hreturn). exact Hreturn.
  - intros a v state Ha Hv Hstate Hviolated. rewrite Hvalidate. destruct b; [|done].
    destruct (Hvalid eq_refl) as (_ & _ & _ & Hreturn).
    destruct (Hreturn a v Ha Hv) as (state' & Hstate' & Hholds).
    rewrite Hstate in Hstate'. injection Hstate' as <-. by destruct Hviolated.
Qed.

Lemma validate_return_requirement_witness :
  state_before example_identity 2 1 (return_requirement_holds example_identity 1).
Proof.
  refine (proj1 (validate_return_requirement example_identity _) _ 2 1 _ _).
  - apply well_formedb_correct. vm_compute. reflexivity.
  - vm_compute. reflexivity.
  - simpl. left.
  - simpl. right. left.
Defined.

(** ** Termination of the backward search and what the log shows *)

Lemma examine_instruction_unmodified object target state state' :
  examine_instruction object target state = Some (state', false) → state' = state.
Proof.
  unfold examine_instruction.
  destruct (payload object) as [fn next params| |variable next| |]; try by intros [= <-].
  - destruct (call_outputs_variable fn params target) as [[]|]; simpl; [done| |done].
    by intros [= <-].
  - case_bool_decide; [done|]. by intros [= <-].
Qed.

Lemma examine_instruction_inv object target state state' modified :
  (∀ fn next params, payload object = CallData fn next params →
                     length params = param_amount fn) →
  examine_instruction object target state = Some (state', modified) →
  (modified = true ∧ writes_output object target ∧ state' = set_can_be_initialized state) ∨
  (modified = true ∧ destructs object target ∧ state' = set_can_be_uninitialized state) ∨
  (modified = false ∧ transparent object target ∧ state' = state).
Proof.
  intros Hparams Hexamine.
  destruct (examine_instruction_cases object target state Hparams) as (Hwrites & Hdestructs & _).
  destruct modified.
  - unfold examine_instruction in Hexamine.
    destruct (payload object) as [fn next params| |variable next| |] eqn:Hpayload; try done.
    + destruct (call_outputs_variable fn params target) as [[]|] eqn:Hcall;
        simpl in Hexamine; [|done..].
      injection Hexamine as <-. left. split_and!; [done| |done].
      apply call_outputs_variable_true in Hcall as (i & pt & ? & ? & ?); [|by eapply Hparams].
      by exists fn, next, params, i, pt.
    + case_bool_decide; [|done]. injection Hexamine as <-. subst variable.
      right. left. split_and!; [done| |done]. by exists next.
  - right. right. split_and!; [done| |by eapply examine_instruction_unmodified].
    split; intros H; [rewrite (Hwrites H) in Hexamine | rewrite (Hdestructs H) in Hexamine];
      done.
Qed.

Lemma search_logged_fuel_mono fuel fuel' p target_variable checked stack state log result :
  search_logged fuel p target_variable checked stack state log = Some result →
  fuel ≤ fuel' →
  search_logged fuel' p target_variable checked stack state log = Some result.
Proof.
  revert fuel' checked stack state log.
  induction fuel as [|fuel IH]; intros fuel' checked stack state log Hsearch Hle; [done|].
  destruct fuel' as [|fuel']; [lia|]. simpl in *.
  destruct stack as [|top stack]; [done|].
  destruct (decide (top ∈ checked)); [apply IH; [done|lia]|].
  destruct (instructions p !! top) as [object|]; [simpl in *|done].
  destruct (examine_instruction object target_variable state) as [[state' []]|];
    [simpl in *..|done]; (apply IH; [done|lia]).
Qed.

(** What a run of the search adds to the log: the instructions it examines,
    in order, and what each of them pushes; and the instructions on the stack
    or pushed during the run are the ones examined, up to those checked
    before. *)
Lemma search_logged_batches fuel p target_variable checked stack state log result :
  well_formed p →
  search_logged fuel p target_variable checked stack state log = Some result →
  ∃ trace batches,
    examined result.2 = examined log ++ trace ∧
    pushed result.2 = pushed log ++ concat batches ∧
    Forall2 (enqueues p target_variable) trace batches ∧
    (∀ x, x ∈ trace → x ∈ stack ∨ x ∈ concat batches) ∧
    (∀ x, x ∈ stack ∨ x ∈ concat batches → x ∈ checked ∨ x ∈ trace).
Proof.
  intros Hwf. revert checked stack state log.
  induction fuel as [|fuel IH]; intros checked stack state log Hsearch; [done|].
  simpl in Hsearch. destruct stack as [|top stack].
  { injection Hsearch as <-. exists [], []. simpl. rewrite !app_nil_r.
    split_and!; [done|done|constructor|by intros x []%elem_of_nil|].
    by intros x [[]%elem_of_nil|[]%elem_of_nil]. }
  destruct (decide (top ∈ checked)) as [Hchecked|Hnew].
  { destruct (IH _ _ _ _ Hsearch) as (trace & batches & Hexamined & Hpushed & Hall & Hsub & Hsup).
    exists trace, batches. split_and!; [done..| |].
    - intros x [?|?]%Hsub; [left; by right | by right].
    - intros x [[->|?]%elem_of_cons|?]; [by left|apply Hsup; by left|apply Hsup; by right]. }
  destruct (instructions p !! top) as [object|] eqn:Hobject; [simpl in Hsearch|done].
  destruct (examine_instruction object target_variable state) as [[state' modified]|]
    eqn:Hexamine; [simpl in Hsearch|done].
  assert (modified = true ∧ ¬ transparent object target_variable ∨
          modified = false ∧ transparent object target_variable) as [[-> Hcase]|[-> Hcase]].
  { apply examine_instruction_inv in Hexamine as [(-> & ? & _)|[(-> & ? & _)|(-> & ? & _)]];
      [| | |by intros fn next params; apply (wf_params p Hwf top)].
    - left. split; [done|]. by intros [? _].
    - left. split; [done|]. by intros [_ ?].
    - by right. }
  - destruct (IH _ _ _ _ Hsearch) as (trace & batches & Hexamined & Hpushed & Hall & Hsub & Hsup).
    exists (top :: trace), ([] :: batches). simpl in *. split_and!.
    + by rewrite Hexamined, <- app_assoc.
    + done.
    + constructor; [|done]. exists object. split; [done|]. by right.
    + intros x [->|[?|?]%Hsub]%elem_of_cons; [left; by left|left; by right|by right].
    + intros x [[->|?]%elem_of_cons|?]; [right; by left| |].
      * destruct (Hsup x) as [[->%elem_of_singleton|?]%elem_of_union|?];
          [by left|right; by left|by left|right; by right].
      * destruct (Hsup x) as [[->%elem_of_singleton|?]%elem_of_union|?];
          [by right|right; by left|by left|right; by right].
  - destruct (IH _ _ _ _ Hsearch) as (trace & batches & Hexamined & Hpushed & Hall & Hsub & Hsup).
    exists (top :: trace), (prev_ object :: batches). simpl in *. split_and!.
    + by rewrite Hexamined, <- app_assoc.
    + by rewrite Hpushed, <- app_assoc.
    + constructor; [|done]. exists object. split; [done|]. by left.
    + intros x [->|[[?|?]%elem_of_push_multiple|?]%Hsub]%elem_of_cons.
      * left. by left.
      * right. apply elem_of_app. by left.
      * left. by right.
      * right. apply elem_of_app. by right.
    + assert (∀ x, x ∈ push_multiple (prev_ object) stack ∨ x ∈ concat batches →
                   x ∈ checked ∨ x ∈ top :: trace) as Hsup'.
      { intros x Hx. destruct (Hsup x Hx) as [[->%elem_of_singleton|?]%elem_of_union|?];
          [right; by left|by left|right; by right]. }
      intros x [[->|?]%elem_of_cons|[?|?]%elem_of_app]; [right; by left|..]; apply Hsup'.
      * left. apply elem_of_push_multiple. by right.
      * left. apply elem_of_push_multiple. by left.
      * by right.
Qed.

(** C6, as the code has it.  On a well-formed arena the backward search
    terminates for every target instruction and variable, loops in the graph
    or not: [search_fuel] iterations are enough, and more iterations give the
    same result.  No instruction gets past the [checked_instructions] test
    twice.  An instruction can be pushed more than once: what is pushed is
    the [prev_] vector of the target instruction and then, for every examined
    instruction in turn, its whole [prev_] vector if it leaves the variable
    as it is and nothing otherwise, so an instruction is pushed once for each
    of its occurrences in these vectors.  The pushed instructions are the
    examined ones: every pushed instruction is examined, once, however often
    it was pushed. *)
Theorem search_terminates p a v target :
  well_formed p →
  instructions p !! a = Some target →
  ∃ state log batches,
    find_initialization_state_before_instruction p a v = Some state ∧
    (∀ fuel, search_fuel p target ≤ fuel →
             find_initialization_state_logged fuel p a v = Some (state, log)) ∧
    NoDup (examined log) ∧
    Forall2 (enqueues p v) (examined log) batches ∧
    pushed log = prev_ target ++ concat batches ∧
    (∀ x, x ∈ pushed log ↔ x ∈ examined log).
Proof.
  intros Hwf Htarget.
  destruct (find_initialization_state_is_Some p v (wf_prev p Hwf) (wf_params p Hwf) a)
    as [state Hstate]; [by eexists|].
  pose proof (find_initialization_state_logged_fst p a v target Htarget) as Hlogged.
  rewrite Hstate in Hlogged.
  destruct (find_initialization_state_logged (search_fuel p target) p a v)
    as [[state' log]|] eqn:Hrun; [|done].
  simpl in Hlogged. injection Hlogged as ->.
  pose proof Hrun as Hsearch. unfold find_initialization_state_logged in Hsearch.
  rewrite Htarget in Hsearch. cbn [mbind option_bind] in Hsearch.
  destruct (search_logged_batches _ _ _ _ _ _ _ _ Hwf Hsearch)
    as (trace & batches & Hexamined & Hpushed & Hall & Hsub & Hsup).
  simpl in Hexamined, Hpushed. subst trace.
  exists state, log, batches. split_and!; [done| | |done|done|].
  - intros fuel Hfuel. unfold find_initialization_state_logged in *.
    rewrite Htarget in *. by eapply search_logged_fuel_mono.
  - change log with (state, log).2.
    eapply search_logged_examined_NoDup; [| |exact Hsearch]; simpl; [constructor|].
    intros x Hx. inversion Hx.
  - intros x. rewrite Hpushed, elem_of_app. split.
    + intros Hx. destruct (Hsup x) as [[]%elem_of_empty|?]; [|done].
      destruct Hx as [?|?]; [left; apply elem_of_push_multiple; by left | by right].
    + intros [[?|[]%elem_of_nil]%elem_of_push_multiple|?]%Hsub; [by left | by right].
Qed.

Lemma search_terminates_witness :
  ∃ state log batches,
    find_initialization_state_before_instruction example_loop 1 1 = Some state ∧
    (∀ fuel, 6 ≤ fuel →
             find_initialization_state_logged fuel example_loop 1 1 = Some (state, log)) ∧
    NoDup (examined log) ∧
    Forall2 (enqueues example_loop 1) (examined log) batches ∧
    pushed log = [0] ++ concat batches ∧
    (∀ x, x ∈ pushed log ↔ x ∈ examined log).
Proof.
  apply (search_terminates example_loop 1 1
           {| prev_ := [0]; payload := CallData example_Out (Some 2) [Some 1] |}).
  - apply well_formedb_correct. vm_compute. reflexivity.
  - reflexivity.
Defined.

(** C6 as stated does not hold.  In the diamond the branch is pushed once by
    each of the two dummies: the search does not push every instruction at
    most once. *)
Lemma search_pushes_twice :
  let target := {| prev_ := [1; 2]; payload := DestructData (Some 0) (Some 4) |} in
  instructions example_diamond !! 3 = Some target ∧
  ¬ ∃ state log,
      find_initialization_state_before_instruction example_diamond 3 0 = Some state ∧
      (∀ fuel, search_fuel example_diamond target ≤ fuel →
               find_initialization_state_logged fuel example_diamond 3 0
               = Some (state, log)) ∧
      NoDup (examined log) ∧ NoDup (pushed log).
Proof.
  split; [reflexivity|].
  intros (state & log & _ & Hrun & _ & Hpushed).
  specialize (Hrun 8 (le_n 8)).
  vm_compute in Hrun. injection Hrun as <- <-. simpl in Hpushed.
  apply NoDup_cons in Hpushed as [_ Hpushed]. apply NoDup_cons in Hpushed as [_ Hpushed].
  apply NoDup_cons in Hpushed as [Hhead _]. apply Hhead. left.
Qed.

(** ** A state without any bit *)

Lemma examine_instruction_modified object target state state' :
  examine_instruction object target state = Some (state', true) → some_bit_set state'.
Proof.
  unfold examine_instruction, some_bit_set.
  destruct (payload object) as [fn next params| |variable next| |]; try done.
  - destruct (call_outputs_variable fn params target) as [[]|]; simpl; [|done..].
    intros [= <-]. by left.
  - case_bool_decide; [|done]. intros [= <-]. by right.
Qed.

Lemma examine_instruction_monotone object target state state' modified :
  examine_instruction object target state = Some (state', modified) →
  (can_be_initialized state = true → can_be_initialized state' = true) ∧
  (can_be_uninitialized state = true → can_be_uninitialized state' = true).
Proof.
  unfold examine_instruction.
  destruct (payload object) as [fn next params| |variable next| |];
    try by intros [= <- <-].
  - destruct (call_outputs_variable fn params target) as [[]|]; simpl; [| |done];
      by intros [= <- <-].
  - case_bool_decide; by intros [= <- <-].
Qed.

Lemma check_entry_instruction_some_bit_set p target state :
  some_bit_set (check_entry_instruction p target state).
Proof.
  unfold check_entry_instruction, some_bit_set.
  destruct (caller_initialized_variable p target); [by left | by right].
Qed.

Lemma check_entry_instruction_monotone p target state :
  (can_be_initialized state = true →
     can_be_initialized (check_entry_instruction p target state) = true) ∧
  (can_be_uninitialized state = true →
     can_be_uninitialized (check_entry_instruction p target state) = true).
Proof.
  unfold check_entry_instruction. by destruct (caller_initialized_variable p target).
Qed.

(** Both bits only ever go from [false] to [true]. *)
Lemma search_monotone fuel p target checked stack state result :
  search fuel p target checked stack state = Some result →
  (can_be_initialized state = true → can_be_initialized result = true) ∧
  (can_be_uninitialized state = true → can_be_uninitialized result = true).
Proof.
  revert checked stack state.
  induction fuel as [|fuel IH]; intros checked stack state Hsearch; [done|].
  destruct stack as [|top stack]; [by simplify_eq/=|]. rewrite search_unfold in Hsearch.
  destruct (decide (top ∈ checked)); [by eapply IH|].
  destruct (instructions p !! top) as [object|]; [simpl in Hsearch|done].
  destruct (examine_instruction object target state) as [[state' modified]|] eqn:Hexamine;
    [simpl in Hsearch|done].
  apply examine_instruction_monotone in Hexamine as [Hi Hu].
  destruct modified.
  - apply IH in Hsearch as [Hi' Hu']. split; auto.
  - apply IH in Hsearch as [Hi' Hu']. case_decide; [|split; auto].
    destruct (check_entry_instruction_monotone p target state') as [Hi'' Hu''].
    split; auto.
Qed.

Lemma search_some_bit_set fuel p target checked stack state result :
  search fuel p target checked stack state = Some result →
  some_bit_set state → some_bit_set result.
Proof.
  intros [Hi Hu]%search_monotone [?|?]; [left|right]; auto.
Qed.

(** When the search ends without any bit, the instructions it has reached form
    a set that is closed under [prev_] and does not contain the entry. *)
Lemma search_no_bit_closed fuel p target checked stack state result :
  search fuel p target checked stack state = Some result →
  (∀ c, c ∈ checked →
        entry_ p ≠ Some c ∧
        ∃ object, instructions p !! c = Some object ∧
                  ∀ q, q ∈ prev_ object → q ∈ checked ∨ q ∈ stack) →
  ¬ some_bit_set result →
  ∃ closed : gset nat,
    (∀ x, x ∈ checked → x ∈ closed) ∧
    (∀ x, x ∈ stack → x ∈ closed) ∧
    ∀ c, c ∈ closed →
         entry_ p ≠ Some c ∧
         ∃ object, instructions p !! c = Some object ∧
                   ∀ q, q ∈ prev_ object → q ∈ closed.
Proof.
  revert checked stack state.
  induction fuel as [|fuel IH]; intros checked stack state Hsearch Hinv Hnone; [done|].
  destruct stack as [|top stack]; [simpl in Hsearch|rewrite search_unfold in Hsearch].
  { exists checked. split_and!; [done|intros x Hx; inversion Hx|]. intros c Hc.
    destruct (Hinv c Hc) as (Hentry & object & Hobject & Hprev).
    split; [done|]. exists object. split; [done|]. intros q Hq.
    destruct (Hprev q Hq) as [?|Hnil]; [done|inversion Hnil]. }
  destruct (decide (top ∈ checked)) as [Hin|Hnotin].
  { destruct (IH checked stack state Hsearch) as (closed & Hchecked & Hstack & Hclosed);
      [|done|].
    - intros c Hc. destruct (Hinv c Hc) as (Hentry & object & Hobject & Hprev).
      split; [done|]. exists object. split; [done|]. intros q Hq.
      destruct (Hprev q Hq) as [?|[->|?]%elem_of_cons]; auto.
    - exists closed. split_and!; [done| |done].
      intros x [->|Hx]%elem_of_cons; [by apply Hchecked | by apply Hstack]. }
  destruct (instructions p !! top) as [object|] eqn:Hobject; [simpl in Hsearch|done].
  destruct (examine_instruction object target state) as [[state' modified]|] eqn:Hexamine;
    [simpl in Hsearch|done].
  destruct modified.
  { destruct Hnone. eapply search_some_bit_set; [done|].
    by eapply examine_instruction_modified. }
  apply examine_instruction_unmodified in Hexamine as ->.
  destruct (decide (entry_ p = Some top)) as [Hentry|Hentry].
  { destruct Hnone. eapply search_some_bit_set; [done|].
    apply check_entry_instruction_some_bit_set. }
  destruct (IH _ _ _ Hsearch) as (closed & Hchecked & Hstack & Hclosed); [|done|].
  - intros c [->%elem_of_singleton|Hc]%elem_of_union.
    + split; [done|]. exists object. split; [done|]. intros q Hq. right.
      apply elem_of_push_multiple. by left.
    + destruct (Hinv c Hc) as (Hentry' & object' & Hobject' & Hprev).
      split; [done|]. exists object'. split; [done|]. intros q Hq.
      destruct (Hprev q Hq) as [?|[->|?]%elem_of_cons].
      * left. set_solver.
      * left. set_solver.
      * right. apply elem_of_push_multiple. by right.
  - exists closed. split_and!; [| |done].
    + intros x Hx. apply Hchecked. set_solver.
    + intros x [->|Hx]%elem_of_cons; [apply Hchecked; set_solver|].
      apply Hstack, elem_of_push_multiple. by right.
Qed.

(** With mirrored edges, a target whose state has no bit cannot be reached
    from the entry. *)
Lemma no_bit_unreachable p a v state :
  edges_mirrored p →
  find_initialization_state_before_instruction p a v = Some state →
  ¬ some_bit_set state →
  ¬ reachable p a.
Proof.
  intros Hmirrored Hfind Hnone (entry & Hentry & Hpath).
  unfold find_initialization_state_before_instruction in Hfind.
  destruct (instructions p !! a) as [target|] eqn:Htarget; [|done].
  change (search (search_fuel p target) p v ∅ (push_multiple (prev_ target) [])
            (if decide (entry_ p = Some a)
             then check_entry_instruction p v InitState_default
             else InitState_default) = Some state) in Hfind.
  destruct (decide (entry_ p = Some a)) as [Hat|Hat].
  { destruct Hnone. eapply search_some_bit_set; [done|].
    apply check_entry_instruction_some_bit_set. }
  destruct (search_no_bit_closed _ _ _ _ _ _ _ Hfind) as (closed & _ & Hstack & Hclosed);
    [set_solver|done|].
  assert (∀ x, rtc (cfg_edge p) entry x → x ∈ closed ∨ x = a → entry ∈ closed ∨ entry = a)
    as Hback.
  { apply (rtc_ind_r (λ x, x ∈ closed ∨ x = a → entry ∈ closed ∨ entry = a)); [done|].
    intros x y _ Hedge IH Hy. apply IH. left.
    destruct (Hmirrored x y Hedge) as (object & Hobject & Hprev).
    destruct Hy as [Hy| ->].
    - destruct (Hclosed y Hy) as (_ & object' & Hobject' & Hprev').
      simplify_eq. by apply Hprev'.
    - simplify_eq. apply Hstack, elem_of_push_multiple. by left. }
  destruct (Hback a Hpath) as [Hin| ->]; [by right| |by rewrite Hentry in Hat].
  by destruct (Hclosed entry Hin) as [? _].
Qed.

Lemma call_requirement_some_bit_set role state :
  call_requirement role state = true → some_bit_set state.
Proof. destruct role; simpl; intros ?; [by left | by left | by right]. Qed.

Lemma return_requirement_holds_some_bit_set p v state :
  return_requirement_holds p v state → some_bit_set state.
Proof.
  intros [Hmust Hother]. unfold must_be_initialized_on_return, listed_with in *.
  destruct (decide ({| type := Mutable; variable := v |} ∈ params_ p));
    [left; apply Hmust; by left|].
  destruct (decide ({| type := Output; variable := v |} ∈ params_ p));
    [left; apply Hmust; by right|].
  right. apply Hother. by intros [?|?].
Qed.

(** C1, as the code has it.  When the state that the analysis computes before
    an instruction has neither bit, the instruction cannot be reached from the
    entry (the successor edges being mirrored in the [prev_] vectors), and the
    requirement on that state is not met: every requirement asks for one of
    the two bits, so [validate] returns [false]. *)
Theorem no_bit_unreachable_and_rejected p a v state :
  well_formed p →
  edges_mirrored p →
  examined_pair p a v →
  find_initialization_state_before_instruction p a v = Some state →
  can_be_initialized state = false →
  can_be_uninitialized state = false →
  ¬ reachable p a ∧ validate p = Some false.
Proof.
  intros Hwf Hmirrored Hpair Hfind Hi Hu.
  assert (¬ some_bit_set state) as Hnone by (intros [?|?]; congruence).
  split; [by eapply no_bit_unreachable|].
  destruct (validate_requirements p Hwf) as (b & -> & Hvalid).
  destruct b; [|done].
  destruct (Hvalid eq_refl) as (Hdestruct & Hbranch & Hcall & Hreturn).
  destruct Hnone.
  destruct Hpair as [[Ha [next Hderef]]|[[Ha (branch_true & branch_false & Hderef)]|
                     [[Ha (fn & next & params & i & Hderef & Hslot)]|[Ha Hv]]]].
  - destruct (Hdestruct _ _ _ Ha Hderef) as (state' & ? & ?). simplify_eq. by left.
  - destruct (Hbranch _ _ _ _ Ha Hderef) as (state' & ? & ?). simplify_eq. by left.
  - destruct (param_type_is_Some fn i) as [pt Hpt].
    { rewrite <-(call_params_allocated p Hwf _ _ _ _ Hderef). by eapply lookup_lt_Some. }
    destruct (Hcall _ _ _ _ _ _ _ Ha Hderef Hpt Hslot) as (state' & ? & ?). simplify_eq.
    by eapply call_requirement_some_bit_set.
  - destruct (Hreturn _ _ Ha Hv) as (state' & ? & ?). simplify_eq.
    by eapply return_requirement_holds_some_bit_set.
Qed.

Lemma edges_mirroredb_correct p : edges_mirroredb p = true → edges_mirrored p.
Proof.
  unfold edges_mirroredb. rewrite forallb_elem_of.
  intros Hall a b (object & Hobject%elem_of_map_to_list & Hsucc).
  apply Hall in Hobject. simpl in Hobject. rewrite forallb_elem_of in Hobject.
  apply Hobject in Hsucc. destruct (instructions p !! b) as [object'|]; [|done].
  exists object'. split; [done|]. by apply bool_decide_eq_true in Hsucc.
Qed.

Lemma no_bit_unreachable_and_rejected_witness :
  ¬ reachable example_unreachable 1 ∧ validate example_unreachable = Some false.
Proof.
  apply (no_bit_unreachable_and_rejected example_unreachable 1 0 InitState_default).
  - apply well_formedb_correct. vm_compute. reflexivity.
  - apply edges_mirroredb_correct. vm_compute. reflexivity.
  - left. split; [simpl; left|]. exists (Some 0). reflexivity.
  - vm_compute. reflexivity.
  - reflexivity.
  - reflexivity.
Defined.

(** C1 as stated does not hold.  In [example_unreachable] the state before the
    destruct instruction has neither bit.  All structural stages pass and the
    requirement at the return instruction is met, and still [validate] returns
    [false]: the missing bits do not make the requirement of the destruct
    instruction hold vacuously. *)
Lemma no_bit_not_vacuously_valid :
  find_initialization_state_before_instruction example_unreachable 1 0
    = Some InitState_default ∧
  examined_pair example_unreachable 1 0 ∧
  entry_ example_unreachable ≠ None ∧
  validate_all_instruction_pointers_set example_unreachable = Some true ∧
  validate_all_params_provided example_unreachable = Some true ∧
  validate_same_variables_in_one_call example_unreachable = Some true ∧
  validate_parameters example_unreachable = true ∧
  return_requirement ∅ 0 <$> find_initialization_state_before_instruction
                               example_unreachable 0 0 = Some true ∧
  validate example_unreachable = Some false.
Proof.
  split_and!; try (vm_compute; reflexivity); [|done].
  left. split; [simpl; left|]. exists (Some 0). reflexivity.
Qed.

(** ** The aliasing rule *)

Lemma validate_all_params_provided_true p :
  well_formed p → validate_all_params_provided p = Some true → all_params_provided p.
Proof.
  intros Hwf Htrue. destruct (validate_all_params_provided_decides p Hwf) as (b & Hb & Hiff).
  rewrite Htrue in Hb. injection Hb as <-. by apply Hiff.
Qed.

(** C7. Once all operands are present, the check of one call instruction
    fails exactly when some variable sits in a [Mutable] or [Output] slot of
    the call and in another slot of the same call as well, and
    [validate_same_variables_in_one_call] fails exactly when there is such a
    call.  A variable that only repeats in [Input] slots is therefore
    accepted. *)
Theorem aliasing_check p :
  well_formed p →
  validate_all_params_provided p = Some true →
  (∀ a fn next params,
     a ∈ call_instructions_ p → call_instruction p a = Some (fn, next, params) →
     ∃ b, same_variables_in_call fn params = Some b ∧ (b = false ↔ aliased fn params)) ∧
  ∃ b, validate_same_variables_in_one_call p = Some b ∧
       (b = false ↔
          ∃ a fn next params,
            a ∈ call_instructions_ p ∧ call_instruction p a = Some (fn, next, params) ∧
            aliased fn params).
Proof.
  intros Hwf Hprovided. apply (validate_all_params_provided_true p Hwf) in Hprovided.
  assert (∀ a fn next params,
            a ∈ call_instructions_ p → call_instruction p a = Some (fn, next, params) →
            ∃ b, same_variables_in_call fn params = Some b ∧ (b = false ↔ aliased fn params))
    as Hcall.
  { intros a fn next params Ha Hderef.
    pose proof (call_params_allocated p Hwf _ _ _ _ Hderef) as Hlen.
    destruct (same_variables_in_call_is_Some fn params Hlen) as [b Hb].
    exists b. split; [done|].
    rewrite <-(same_variables_in_call_false fn params Hlen), Hb; [|by eapply Hprovided].
    split; [by intros -> | by intros [= ->]]. }
  split; [done|].
  destruct (validate_same_variables_in_one_call_decides p Hwf Hprovided) as (b & Hb & _).
  exists b. split; [done|]. unfold validate_same_variables_in_one_call in Hb. split.
  - intros ->. apply for_all_false_inv in Hb as (a & Ha & Hbody).
    destruct (wf_call_instructions p Hwf a Ha) as [[[fn next] params] Hderef].
    rewrite Hderef in Hbody. simpl in Hbody.
    destruct (Hcall _ _ _ _ Ha Hderef) as (b & Hb & Hiff).
    exists a, fn, next, params. split_and!; [done..|].
    apply Hiff. congruence.
  - intros (a & fn & next & params & Ha & Hderef & Haliased).
    destruct b; [|done]. rewrite for_all_true in Hb. specialize (Hb a Ha).
    rewrite Hderef in Hb. simpl in Hb.
    destruct (Hcall _ _ _ _ Ha Hderef) as (b & Hb' & Hiff).
    apply Hiff in Haliased. congruence.
Qed.

Lemma aliasing_check_witness :
  (∃ b, same_variables_in_call example_G [Some 0; Some 0; Some 1] = Some b ∧
        (b = false ↔ aliased example_G [Some 0; Some 0; Some 1])) ∧
  same_variables_in_call example_G [Some 0; Some 0; Some 1] = Some true ∧
  same_variables_in_call example_H [Some 0; Some 0] = Some false.
Proof.
  split; [|split; vm_compute; reflexivity].
  refine (proj1 (aliasing_check example_shared_input _ _) 0 example_G (Some 1) _ _ _).
  - apply well_formedb_correct. vm_compute. reflexivity.
  - vm_compute. reflexivity.
  - simpl. left.
  - reflexivity.
Defined.

(** ** Removing from and appending to a vector *)

Lemma first_index_of_try_lookup value vector index :
  first_index_of_try value vector = Some index → vector !! index = Some value.
Proof.
  revert index. induction vector as [|x vector IH]; intros index; simpl; [done|].
  case_decide as Hx; [by intros [= <-]; subst|].
  destruct (first_index_of_try value vector) as [i|]; [|done].
  intros [= <-]. simpl. by apply IH.
Qed.

Lemma first_index_of_try_is_Some value vector :
  value ∈ vector → is_Some (first_index_of_try value vector).
Proof.
  induction vector as [|x vector IH]; simpl; [by intros H; inversion H|].
  intros Hin. case_decide as Hx; [by eexists|].
  apply elem_of_cons in Hin as [->|Hin]; [done|].
  destruct (IH Hin) as [i ->]. by eexists.
Qed.

Lemma insert_Permutation_swap {A} (l : list A) i x y :
  l !! i = Some x → x :: <[i := y]> l ≡ₚ y :: l.
Proof.
  revert i. induction l as [|a l IH]; intros i Hi; [done|].
  destruct i as [|i]; simpl in *.
  - simplify_eq. apply perm_swap.
  - rewrite perm_swap, (IH i Hi). apply perm_swap.
Qed.

Lemma remove_first_occurrence_and_reorder_Permutation value vector result :
  remove_first_occurrence_and_reorder value vector = Some result →
  value :: result ≡ₚ vector.
Proof.
  unfold remove_first_occurrence_and_reorder.
  destruct (first_index_of_try value vector) as [index|] eqn:Hindex; [simpl|done].
  apply first_index_of_try_lookup in Hindex.
  destruct vector as [|x vector _] using rev_ind; [done|].
  rewrite last_snoc. simpl. intros [= <-].
  rewrite length_app. simpl. replace (length vector + 1 - 1) with (length vector) by lia.
  destruct (decide (index < length vector)) as [Hlt|Hge].
  - rewrite insert_app_l by done. rewrite take_app_length'; [|by rewrite length_insert].
    rewrite lookup_app_l in Hindex by done.
    rewrite (insert_Permutation_swap _ _ _ _ Hindex).
    by rewrite Permutation_app_comm.
  - assert (index = length vector) as ->.
    { apply lookup_lt_Some in Hindex. rewrite length_app in Hindex. simpl in Hindex. lia. }
    rewrite list_lookup_middle in Hindex by done. injection Hindex as ->.
    rewrite insert_app_r_alt by done. rewrite Nat.sub_diag. simpl.
    rewrite take_app_length. by rewrite Permutation_app_comm.
Qed.

Lemma remove_first_occurrence_and_reorder_is_Some value vector :
  value ∈ vector → is_Some (remove_first_occurrence_and_reorder value vector).
Proof.
  intros Hin. unfold remove_first_occurrence_and_reorder.
  destruct (first_index_of_try_is_Some value vector Hin) as [index ->]. simpl.
  destruct vector as [|x vector _] using rev_ind; [inversion Hin|].
  rewrite last_snoc. by eexists.
Qed.

Lemma multiplicity_Permutation x l l' : l ≡ₚ l' → multiplicity x l = multiplicity x l'.
Proof. intros Hperm. unfold multiplicity. by apply Permutation_count_occ. Qed.

Lemma multiplicity_cons x y l :
  multiplicity x (y :: l) = (if decide (y = x) then 1 else 0) + multiplicity x l.
Proof.
  unfold multiplicity. simpl. destruct (Nat.eq_dec y x); case_decide; done.
Qed.

Lemma multiplicity_app x l l' :
  multiplicity x (l ++ l') = multiplicity x l + multiplicity x l'.
Proof. unfold multiplicity. apply count_occ_app. Qed.

Lemma multiplicity_nil x : multiplicity x [] = 0.
Proof. done. Qed.

Lemma multiplicity_pos x l : x ∈ l ↔ 0 < multiplicity x l.
Proof. unfold multiplicity. rewrite list_elem_of_In. apply count_occ_In. Qed.

(** ** What the edge mutations do *)

Ltac indicators :=
  unfold indicator in *; repeat case_decide; simplify_eq; try lia; try tauto;
  try (exfalso; naive_solver).

Lemma prev_remove_effect this target p p' :
  prev_remove this target p = Some p' →
  (∀ X, payload_of p' X = payload_of p X) ∧
  variable_store p' = variable_store p ∧
  (∀ J I, prev_count p' J I + indicator (Some target = Some J ∧ I = this) = prev_count p J I).
Proof.
  unfold prev_remove.
  destruct (instructions p !! target) as [object|] eqn:Hobject; [simpl|done].
  destruct (remove_first_occurrence_and_reorder this (prev_ object)) as [prev|] eqn:Hprev;
    [simpl|done].
  intros [= <-]. apply remove_first_occurrence_and_reorder_Permutation in Hprev.
  split_and!; [|done|].
  - intros X. unfold payload_of. simpl. rewrite lookup_insert. case_decide; [|done].
    subst X. by rewrite Hobject.
  - intros J I. unfold prev_count. simpl. rewrite lookup_insert.
    case_decide as HJ.
    + subst J. rewrite Hobject. simpl.
      rewrite <-(multiplicity_Permutation I _ _ Hprev), multiplicity_cons. indicators.
    + indicators.
Qed.

Lemma prev_append_effect this target p p' :
  prev_append this target p = Some p' →
  (∀ X, payload_of p' X = payload_of p X) ∧
  variable_store p' = variable_store p ∧
  (∀ J I, prev_count p' J I = prev_count p J I + indicator (Some target = Some J ∧ I = this)).
Proof.
  unfold prev_append.
  destruct (instructions p !! target) as [object|] eqn:Hobject; [simpl|done].
  intros [= <-]. split_and!; [|done|].
  - intros X. unfold payload_of. simpl. rewrite lookup_insert. case_decide; [|done].
    subst X. by rewrite Hobject.
  - intros J I. unfold prev_count. simpl. rewrite lookup_insert.
    case_decide as HJ.
    + subst J. rewrite Hobject. simpl.
      rewrite multiplicity_app, multiplicity_cons, multiplicity_nil. indicators.
    + indicators.
Qed.

Lemma users_remove_effect this target p p' :
  users_remove this target p = Some p' →
  instructions p' = instructions p ∧
  (∀ V, data_type_ <$> variable_store p' !! V = data_type_ <$> variable_store p !! V) ∧
  (∀ V I, users_count p' V I + indicator (Some target = Some V ∧ I = this)
          = users_count p V I).
Proof.
  unfold users_remove.
  destruct (variable_store p !! target) as [object|] eqn:Hobject; [simpl|done].
  destruct (remove_first_occurrence_and_reorder this (users_ object)) as [users|] eqn:Husers;
    [simpl|done].
  intros [= <-]. apply remove_first_occurrence_and_reorder_Permutation in Husers.
  split_and!; [done| |].
  - intros V. simpl. rewrite lookup_insert. case_decide; [|done].
    subst V. by rewrite Hobject.
  - intros V I. unfold users_count. simpl. rewrite lookup_insert.
    case_decide as HV.
    + subst V. rewrite Hobject. simpl.
      rewrite <-(multiplicity_Permutation I _ _ Husers), multiplicity_cons. indicators.
    + indicators.
Qed.

Lemma users_append_effect this target p p' :
  users_append this target p = Some p' →
  instructions p' = instructions p ∧
  (∀ V, data_type_ <$> variable_store p' !! V = data_type_ <$> variable_store p !! V) ∧
  (∀ V I, users_count p' V I
          = users_count p V I + indicator (Some target = Some V ∧ I = this)).
Proof.
  unfold users_append.
  destruct (variable_store p !! target) as [object|] eqn:Hobject; [simpl|done].
  intros [= <-]. split_and!; [done| |].
  - intros V. simpl. rewrite lookup_insert. case_decide; [|done].
    subst V. by rewrite Hobject.
  - intros V I. unfold users_count. simpl. rewrite lookup_insert.
    case_decide as HV.
    + subst V. rewrite Hobject. simpl.
      rewrite multiplicity_app, multiplicity_cons, multiplicity_nil. indicators.
    + indicators.
Qed.

Lemma set_payload_effect this new_payload p p' :
  set_payload this new_payload p = Some p' →
  (∀ X, payload_of p' X = if decide (X = this) then Some new_payload else payload_of p X) ∧
  is_Some (instructions p !! this) ∧
  variable_store p' = variable_store p ∧
  (∀ J I, prev_count p' J I = prev_count p J I).
Proof.
  unfold set_payload.
  destruct (instructions p !! this) as [object|] eqn:Hobject; [simpl|done].
  intros [= <-]. split_and!; [|by eexists|done|].
  - intros X. unfold payload_of. simpl. rewrite lookup_insert.
    case_decide; case_decide; simplify_eq; done.
  - intros J I. unfold prev_count. simpl. rewrite lookup_insert.
    case_decide; [|done]. subst J. by rewrite Hobject.
Qed.

Lemma store_live_iff p p' :
  (∀ V, data_type_ <$> variable_store p' !! V = data_type_ <$> variable_store p !! V) →
  ∀ V, is_Some (variable_store p' !! V) ↔ is_Some (variable_store p !! V).
Proof.
  intros Htypes V. specialize (Htypes V).
  destruct (variable_store p' !! V), (variable_store p !! V); simplify_eq/=;
    split; intros [? ?]; by eauto.
Qed.

Lemma payload_of_is_Some p X : is_Some (payload_of p X) ↔ is_Some (instructions p !! X).
Proof. unfold payload_of. by rewrite fmap_is_Some. Qed.

Lemma same_directory_refl p : same_directory p p.
Proof. by repeat split. Qed.

Lemma same_directory_trans p1 p2 p3 :
  same_directory p1 p2 → same_directory p2 p3 → same_directory p1 p3.
Proof.
  unfold same_directory. intros (? & ? & ? & ? & ? & ? & ? & ?) (? & ? & ? & ? & ? & ? & ? & ?).
  split_and!; congruence.
Qed.

Lemma prev_remove_directory this target p p' :
  prev_remove this target p = Some p' → same_directory p p'.
Proof.
  unfold prev_remove. destruct (instructions p !! target) as [object|]; [simpl|done].
  destruct (remove_first_occurrence_and_reorder this (prev_ object)); [simpl|done].
  intros [= <-]. by repeat split.
Qed.

Lemma prev_append_directory this target p p' :
  prev_append this target p = Some p' → same_directory p p'.
Proof.
  unfold prev_append. destruct (instructions p !! target) as [object|]; [simpl|done].
  intros [= <-]. by repeat split.
Qed.

Lemma users_remove_directory this target p p' :
  users_remove this target p = Some p' → same_directory p p'.
Proof.
  unfold users_remove. destruct (variable_store p !! target) as [object|]; [simpl|done].
  destruct (remove_first_occurrence_and_reorder this (users_ object)); [simpl|done].
  intros [= <-]. by repeat split.
Qed.

Lemma users_append_directory this target p p' :
  users_append this target p = Some p' → same_directory p p'.
Proof.
  unfold users_append. destruct (variable_store p !! target) as [object|]; [simpl|done].
  intros [= <-]. by repeat split.
Qed.

Lemma set_payload_directory this new_payload p p' :
  set_payload this new_payload p = Some p' → same_directory p p'.
Proof.
  unfold set_payload. destruct (instructions p !! this) as [object|]; [simpl|done].
  intros [= <-]. by repeat split.
Qed.

Lemma if_nonnull_directory {A} (pointer : option A)
    (action : A → MFProcedure → option MFProcedure) p p' :
  (∀ target q q', action target q = Some q' → same_directory q q') →
  if_nonnull pointer action p = Some p' → same_directory p p'.
Proof.
  intros Haction. destruct pointer as [target|]; simpl; [by apply Haction|].
  intros [= <-]. apply same_directory_refl.
Qed.

(** The three steps of a mutation of a successor pointer. *)
Lemma relink_successor this old new new_payload p p1 p2 p' :
  if_nonnull old (prev_remove this) p = Some p1 →
  if_nonnull new (prev_append this) p1 = Some p2 →
  set_payload this new_payload p2 = Some p' →
  mutation_effect p p' this new_payload old new None None.
Proof.
  intros Hremove Hattach Hset.
  assert (same_directory p p') as Hdirectory.
  { eapply same_directory_trans;
      [eapply if_nonnull_directory; [apply prev_remove_directory|done]|].
    eapply same_directory_trans;
      [eapply if_nonnull_directory; [apply prev_append_directory|done]|].
    by eapply set_payload_directory. }
  assert ((∀ X, payload_of p1 X = payload_of p X) ∧
          variable_store p1 = variable_store p ∧
          ∀ J I, prev_count p1 J I + indicator (old = Some J ∧ I = this) = prev_count p J I)
    as (Hpayload1 & Hvars1 & Hprev1).
  { destruct old as [target|]; simpl in Hremove.
    - by apply prev_remove_effect.
    - injection Hremove as <-. split_and!; [done..|]. intros J I. indicators. }
  assert ((∀ X, payload_of p2 X = payload_of p1 X) ∧
          variable_store p2 = variable_store p1 ∧
          ∀ J I, prev_count p2 J I = prev_count p1 J I + indicator (new = Some J ∧ I = this))
    as (Hpayload2 & Hvars2 & Hprev2).
  { destruct new as [target|]; simpl in Hattach.
    - by apply prev_append_effect.
    - injection Hattach as <-. split_and!; [done..|]. intros J I. indicators. }
  apply set_payload_effect in Hset as (Hpayload & Hthis & Hvars & Hprev).
  split_and!.
  - intros X. rewrite Hpayload. case_decide; [done|]. by rewrite Hpayload2, Hpayload1.
  - by rewrite <-payload_of_is_Some, <-Hpayload1, <-Hpayload2, payload_of_is_Some.
  - intros J I. rewrite Hprev, Hprev2. specialize (Hprev1 J I). lia.
  - intros V I. unfold users_count. rewrite Hvars, Hvars2, Hvars1. indicators.
  - intros V. by rewrite Hvars, Hvars2, Hvars1.
  - done.
Qed.

Lemma users_count_instructions p p' :
  variable_store p' = variable_store p → ∀ V I, users_count p' V I = users_count p V I.
Proof. intros Hvars V I. unfold users_count. by rewrite Hvars. Qed.

Lemma prev_count_instructions p p' :
  instructions p' = instructions p →
  (∀ J I, prev_count p' J I = prev_count p J I) ∧ (∀ X, payload_of p' X = payload_of p X).
Proof. intros Heq. unfold prev_count, payload_of. by rewrite Heq. Qed.

(** The three steps of a mutation of a variable slot. *)
Lemma relink_variable this old new new_payload p p1 p2 p' :
  if_nonnull old (users_remove this) p = Some p1 →
  if_nonnull new (users_append this) p1 = Some p2 →
  set_payload this new_payload p2 = Some p' →
  mutation_effect p p' this new_payload None None old new.
Proof.
  intros Hremove Hattach Hset.
  assert (same_directory p p') as Hdirectory.
  { eapply same_directory_trans;
      [eapply if_nonnull_directory; [apply users_remove_directory|done]|].
    eapply same_directory_trans;
      [eapply if_nonnull_directory; [apply users_append_directory|done]|].
    by eapply set_payload_directory. }
  assert (instructions p1 = instructions p ∧
          (∀ V, data_type_ <$> variable_store p1 !! V = data_type_ <$> variable_store p !! V) ∧
          ∀ V I, users_count p1 V I + indicator (old = Some V ∧ I = this)
                 = users_count p V I)
    as (Hinstr1 & Hlive1 & Husers1).
  { destruct old as [target|]; simpl in Hremove.
    - by apply users_remove_effect.
    - injection Hremove as <-. split_and!; [done..|]. intros V I. indicators. }
  assert (instructions p2 = instructions p1 ∧
          (∀ V, data_type_ <$> variable_store p2 !! V = data_type_ <$> variable_store p1 !! V) ∧
          ∀ V I, users_count p2 V I
                 = users_count p1 V I + indicator (new = Some V ∧ I = this))
    as (Hinstr2 & Hlive2 & Husers2).
  { destruct new as [target|]; simpl in Hattach.
    - by apply users_append_effect.
    - injection Hattach as <-. split_and!; [done..|]. intros V I. indicators. }
  apply set_payload_effect in Hset as (Hpayload & Hthis & Hvars & Hprev).
  destruct (prev_count_instructions _ _ Hinstr1) as [Hprev1 Hpayload1].
  destruct (prev_count_instructions _ _ Hinstr2) as [Hprev2 Hpayload2].
  split_and!.
  - intros X. rewrite Hpayload. case_decide; [done|]. by rewrite Hpayload2, Hpayload1.
  - by rewrite <-Hinstr1, <-Hinstr2.
  - intros J I. rewrite Hprev, Hprev2, Hprev1. indicators.
  - intros V I. rewrite (users_count_instructions _ _ Hvars), Husers2.
    specialize (Husers1 V I). lia.
  - intros V. by rewrite Hvars, Hlive2, Hlive1.
  - done.
Qed.

(** ** The two consistency invariants *)

Lemma edge_consistent_counts p :
  edge_consistent p ↔
  ∀ I J payload_I, payload_of p I = Some payload_I → is_Some (payload_of p J) →
                   multiplicity J (successors payload_I) = prev_count p J I.
Proof.
  unfold edge_consistent, payload_of, prev_count. split.
  - intros H I J payload_I HI [payload_J HJ].
    destruct (instructions p !! I) as [object_I|] eqn:HI'; [|done].
    destruct (instructions p !! J) as [object_J|] eqn:HJ'; [|done].
    simpl in *. simplify_eq. by eapply H.
  - intros H I J object_I object_J HI HJ.
    specialize (H I J (payload object_I)). rewrite HI, HJ in H. simpl in H.
    apply H; [done | by eexists].
Qed.

Lemma user_consistent_counts p :
  user_consistent p ↔
  ∀ I V payload_I, payload_of p I = Some payload_I → is_Some (variable_store p !! V) →
                   multiplicity V (referenced_variables payload_I) = users_count p V I.
Proof.
  unfold user_consistent, payload_of, users_count. split.
  - intros H I V payload_I HI [object_V HV].
    destruct (instructions p !! I) as [object_I|] eqn:HI'; [|done].
    rewrite HV. simpl in *. simplify_eq. by eapply H.
  - intros H I V object_I object_V HI HV.
    specialize (H I V (payload object_I)). rewrite HI, HV in H. simpl in H.
    apply H; [done | by eexists].
Qed.

Lemma slot_mutation_consistent p p' same :
  slot_mutation p p' same →
  edge_consistent p → user_consistent p →
  edge_consistent p' ∧ user_consistent p'.
Proof.
  intros (this & old_payload & new_payload & os & ns & ov & nv & Hold &
          (Hpayload & Hthis & Hprev & Husers & Hlive & _) & (Hsucc & Hrefs & _) & _).
  rewrite !edge_consistent_counts, !user_consistent_counts. intros Hedge Huser.
  assert (∀ X, is_Some (payload_of p' X) → is_Some (payload_of p X)) as Hdom.
  { intros X. rewrite Hpayload. case_decide; [|done]. subst X. intros _.
    by rewrite payload_of_is_Some. }
  split.
  - intros I J payload_I HI HJ%Hdom. rewrite Hpayload in HI.
    specialize (Hprev J I). case_decide.
    + subst I. injection HI as <-. specialize (Hsucc J).
      specialize (Hedge this J old_payload Hold HJ). indicators.
    + specialize (Hedge I J payload_I HI HJ). indicators.
  - intros I V payload_I HI HV. apply (store_live_iff _ _ Hlive) in HV.
    rewrite Hpayload in HI.
    specialize (Husers V I). case_decide.
    + subst I. injection HI as <-. specialize (Hrefs V).
      specialize (Huser this V old_payload Hold HV). indicators.
    + specialize (Huser I V payload_I HI HV). indicators.
Qed.

Lemma slot_mutation_same_counts p p' same :
  slot_mutation p p' same → same → same_counts p p'.
Proof.
  intros (this & old_payload & new_payload & os & ns & ov & nv & Hold &
          (Hpayload & Hthis & Hprev & Husers & Hlive & _) & _ & Hsame) Hholds.
  destruct (Hsame Hholds) as [-> ->]. split_and!; [|done| |].
  - intros X. rewrite Hpayload. case_decide; [|done]. subst X.
    rewrite Hold. split; by eexists.
  - intros J I. specialize (Hprev J I). lia.
  - intros V I. specialize (Husers V I). lia.
Qed.

Lemma same_counts_refl p : same_counts p p.
Proof. by split_and!. Qed.

Lemma same_counts_trans p1 p2 p3 : same_counts p1 p2 → same_counts p2 p3 → same_counts p1 p3.
Proof.
  intros (H1 & H2 & H3 & H4) (H1' & H2' & H3' & H4'). split_and!.
  - intros X. by rewrite H1', H1.
  - intros V. by rewrite H2', H2.
  - intros J I. by rewrite H3', H3.
  - intros V I. by rewrite H4', H4.
Qed.

Lemma Permutation_multiplicity (l l' : list nat) :
  (∀ x, multiplicity x l' = multiplicity x l) → l' ≡ₚ l.
Proof. intros H. by apply (Permutation_count_occ Nat.eq_dec). Qed.

Lemma same_counts_same_multisets p p' : same_counts p p' → same_multisets p p'.
Proof.
  intros (_ & _ & Hprev & Husers). split.
  - intros J object object' Hobject Hobject'. apply Permutation_multiplicity. intros I.
    specialize (Hprev J I). unfold prev_count in Hprev.
    by rewrite Hobject, Hobject' in Hprev.
  - intros V object object' Hobject Hobject'. apply Permutation_multiplicity. intros I.
    specialize (Husers V I). unfold users_count in Husers.
    by rewrite Hobject, Hobject' in Husers.
Qed.

(** ** Every edge mutation is a slot mutation *)

Lemma multiplicity_option_list J (pointer : option nat) :
  multiplicity J (option_list pointer) = indicator (pointer = Some J).
Proof.
  destruct pointer as [x|]; simpl; [|by indicators].
  rewrite multiplicity_cons, multiplicity_nil. indicators.
Qed.

Lemma multiplicity_omap_insert V (params : list (option nat)) i old new :
  params !! i = Some old →
  multiplicity V (omap id (<[i := new]> params)) + indicator (old = Some V)
  = multiplicity V (omap id params) + indicator (new = Some V).
Proof.
  revert i. induction params as [|slot params IH]; intros i Hi; [done|].
  destruct i as [|i]; simpl in *.
  - injection Hi as ->.
    destruct old as [x|], new as [y|]; simpl; rewrite ?multiplicity_cons; indicators.
  - specialize (IH i Hi).
    destruct slot as [x|]; simpl; rewrite ?multiplicity_cons; unfold omap in IH; lia.
Qed.

Lemma call_instruction_payload_of p a fn next params :
  call_instruction p a = Some (fn, next, params) ↔
  payload_of p a = Some (CallData fn next params).
Proof.
  unfold call_instruction, payload_of.
  destruct (instructions p !! a) as [object|]; simpl; [|done].
  destruct (payload object); split; intros ?; by simplify_eq.
Qed.

Lemma branch_instruction_payload_of p a condition branch_true branch_false :
  branch_instruction p a = Some (condition, branch_true, branch_false) ↔
  payload_of p a = Some (BranchData condition branch_true branch_false).
Proof.
  unfold branch_instruction, payload_of.
  destruct (instructions p !! a) as [object|]; simpl; [|done].
  destruct (payload object); split; intros ?; by simplify_eq.
Qed.

Lemma destruct_instruction_payload_of p a variable next :
  destruct_instruction p a = Some (variable, next) ↔
  payload_of p a = Some (DestructData variable next).
Proof.
  unfold destruct_instruction, payload_of.
  destruct (instructions p !! a) as [object|]; simpl; [|done].
  destruct (payload object); split; intros ?; by simplify_eq.
Qed.

Lemma dummy_instruction_payload_of p a next :
  dummy_instruction p a = Some next ↔ payload_of p a = Some (DummyData next).
Proof.
  unfold dummy_instruction, payload_of.
  destruct (instructions p !! a) as [object|]; simpl; [|done].
  destruct (payload object); split; intros ?; by simplify_eq.
Qed.

(** Splits the run of a mutation into its three steps. *)
Ltac three_steps Hderef H1 H2 Hset :=
  match goal with
  | |- context [if_nonnull ?old ?f ?p] =>
      destruct (if_nonnull old f p) as [?p1|] eqn:H1; [simpl|done]
  end;
  match goal with
  | |- context [if_nonnull ?new ?f ?p] =>
      destruct (if_nonnull new f p) as [?p2|] eqn:H2; [simpl|done]
  end;
  intros Hset.

Ltac balance :=
  split_and!; [intros ?; simpl;
               rewrite ?multiplicity_app, ?multiplicity_option_list, ?multiplicity_nil;
               indicators..|done].

Lemma Call_set_next_slot this instruction p p' :
  MFCallInstruction_set_next this instruction p = Some p' →
  slot_mutation p p' (rewrites_same p (Call_set_next this instruction)).
Proof.
  unfold MFCallInstruction_set_next.
  destruct (call_instruction p this) as [[[fn next] params]|] eqn:Hderef; [simpl|done].
  three_steps Hderef H1 H2 Hset.
  exists this, (CallData fn next params), (CallData fn instruction params),
         next, instruction, None, None.
  split_and!; [by apply call_instruction_payload_of | by eapply relink_successor
              | balance | ].
  intros (fn' & params' & Hsame). by simplify_eq.
Qed.

Lemma Branch_set_branch_true_slot this instruction p p' :
  MFBranchInstruction_set_branch_true this instruction p = Some p' →
  slot_mutation p p' (rewrites_same p (Branch_set_branch_true this instruction)).
Proof.
  unfold MFBranchInstruction_set_branch_true.
  destruct (branch_instruction p this) as [[[condition branch_true] branch_false]|]
    eqn:Hderef; [simpl|done].
  three_steps Hderef H1 H2 Hset.
  exists this, (BranchData condition branch_true branch_false),
         (BranchData condition instruction branch_false),
         branch_true, instruction, None, None.
  split_and!; [by apply branch_instruction_payload_of | by eapply relink_successor
              | balance | ].
  intros (condition' & branch_false' & Hsame). by simplify_eq.
Qed.

Lemma Branch_set_branch_false_slot this instruction p p' :
  MFBranchInstruction_set_branch_false this instruction p = Some p' →
  slot_mutation p p' (rewrites_same p (Branch_set_branch_false this instruction)).
Proof.
  unfold MFBranchInstruction_set_branch_false.
  destruct (branch_instruction p this) as [[[condition branch_true] branch_false]|]
    eqn:Hderef; [simpl|done].
  three_steps Hderef H1 H2 Hset.
  exists this, (BranchData condition branch_true branch_false),
         (BranchData condition branch_true instruction),
         branch_false, instruction, None, None.
  split_and!; [by apply branch_instruction_payload_of | by eapply relink_successor
              | balance | ].
  intros (condition' & branch_true' & Hsame). by simplify_eq.
Qed.

Lemma Destruct_set_next_slot this instruction p p' :
  MFDestructInstruction_set_next this instruction p = Some p' →
  slot_mutation p p' (rewrites_same p (Destruct_set_next this instruction)).
Proof.
  unfold MFDestructInstruction_set_next.
  destruct (destruct_instruction p this) as [[variable next]|] eqn:Hderef; [simpl|done].
  three_steps Hderef H1 H2 Hset.
  exists this, (DestructData variable next), (DestructData variable instruction),
         next, instruction, None, None.
  split_and!; [by apply destruct_instruction_payload_of | by eapply relink_successor
              | balance | ].
  intros (variable' & Hsame). by simplify_eq.
Qed.

Lemma Dummy_set_next_slot this instruction p p' :
  MFDummyInstruction_set_next this instruction p = Some p' →
  slot_mutation p p' (rewrites_same p (Dummy_set_next this instruction)).
Proof.
  unfold MFDummyInstruction_set_next.
  destruct (dummy_instruction p this) as [next|] eqn:Hderef; [simpl|done].
  three_steps Hderef H1 H2 Hset.
  exists this, (DummyData next), (DummyData instruction), next, instruction, None, None.
  split_and!; [by apply dummy_instruction_payload_of | by eapply relink_successor
              | balance | ].
  simpl. intros Hsame. by simplify_eq.
Qed.

Lemma Branch_set_condition_slot this variable p p' :
  MFBranchInstruction_set_condition this variable p = Some p' →
  slot_mutation p p' (rewrites_same p (Branch_set_condition this variable)).
Proof.
  unfold MFBranchInstruction_set_condition.
  destruct (branch_instruction p this) as [[[condition branch_true] branch_false]|]
    eqn:Hderef; [simpl|done].
  three_steps Hderef H1 H2 Hset.
  exists this, (BranchData condition branch_true branch_false),
         (BranchData variable branch_true branch_false),
         None, None, condition, variable.
  split_and!; [by apply branch_instruction_payload_of | by eapply relink_variable
              | balance | ].
  intros (branch_true' & branch_false' & Hsame). by simplify_eq.
Qed.

Lemma Destruct_set_variable_slot this variable p p' :
  MFDestructInstruction_set_variable this variable p = Some p' →
  slot_mutation p p' (rewrites_same p (Destruct_set_variable this variable)).
Proof.
  unfold MFDestructInstruction_set_variable.
  destruct (destruct_instruction p this) as [[old_variable next]|] eqn:Hderef; [simpl|done].
  three_steps Hderef H1 H2 Hset.
  exists this, (DestructData old_variable next), (DestructData variable next),
         None, None, old_variable, variable.
  split_and!; [by apply destruct_instruction_payload_of | by eapply relink_variable
              | balance | ].
  intros (next' & Hsame). by simplify_eq.
Qed.

Lemma Call_set_param_variable_slot this param_index variable p p' :
  MFCallInstruction_set_param_variable this param_index variable p = Some p' →
  slot_mutation p p' (rewrites_same p (Call_set_param_variable this param_index variable)) ∧
  ∃ fn next params,
    call_instruction p this = Some (fn, next, params) ∧
    call_instruction p' this = Some (fn, next, <[param_index := variable]> params).
Proof.
  unfold MFCallInstruction_set_param_variable.
  destruct (call_instruction p this) as [[[fn next] params]|] eqn:Hderef; [simpl|done].
  destruct (params !! param_index) as [old_variable|] eqn:Hold; [simpl|done].
  three_steps Hderef H1 H2 Hset.
  assert (if_nonnull variable (users_append this) p1 = Some p2) as H2'.
  { destruct variable as [target|]; [simpl in *|done].
    destruct (param_type fn param_index); [simpl in H2|done].
    destruct (variable_store p1 !! target); [simpl in H2|done].
    by case_decide. }
  pose proof (relink_variable _ _ _ _ _ _ _ _ H1 H2' Hset) as Heffect.
  split.
  - exists this, (CallData fn next params),
           (CallData fn next (<[param_index := variable]> params)),
           None, None, old_variable, variable.
    split_and!; [by apply call_instruction_payload_of | done | | ].
    + split_and!; [intros ?; simpl; indicators| |by simpl; rewrite length_insert].
      intros ?. by apply multiplicity_omap_insert.
    + intros (fn' & next' & params' & Hsame & Hslot). by simplify_eq.
  - exists fn, next, params. split; [done|]. apply call_instruction_payload_of.
    destruct Heffect as (Hpayload & _). rewrite Hpayload. by rewrite decide_True.
Qed.

Lemma consistentb_correct p :
  consistentb p = true → edge_consistent p ∧ user_consistent p.
Proof.
  unfold consistentb. rewrite forallb_elem_of. intros Hall. split.
  - intros I J object_I object_J HI%elem_of_map_to_list HJ%elem_of_map_to_list.
    apply Hall in HI. apply andb_true_iff in HI as [HI _].
    rewrite forallb_elem_of in HI. apply HI in HJ. by apply bool_decide_eq_true in HJ.
  - intros I V object_I object_V HI%elem_of_map_to_list HV%elem_of_map_to_list.
    apply Hall in HI. apply andb_true_iff in HI as [_ HI].
    rewrite forallb_elem_of in HI. apply HI in HV. by apply bool_decide_eq_true in HV.
Qed.

(** ** [set_params] *)

Lemma set_params_from_consistent this variables index_range p p' :
  set_params_from this variables index_range p = Some p' →
  edge_consistent p → user_consistent p →
  edge_consistent p' ∧ user_consistent p'.
Proof.
  revert p. induction index_range as [|i index_range IH]; intros p; simpl.
  { by intros [= <-]. }
  destruct (variables !! i) as [variable|]; [simpl|done].
  destruct (MFCallInstruction_set_param_variable this i variable p) as [p1|] eqn:Hstep;
    [simpl|done].
  intros Hrest Hedge Huser.
  apply Call_set_param_variable_slot in Hstep as [Hslot _].
  destruct (slot_mutation_consistent _ _ _ Hslot Hedge Huser). by eapply IH.
Qed.

Lemma set_params_from_same_counts this variables index_range fn next p p' :
  call_instruction p this = Some (fn, next, variables) →
  set_params_from this variables index_range p = Some p' →
  same_counts p p'.
Proof.
  revert p. induction index_range as [|i index_range IH]; intros p Hderef; simpl.
  { intros [= <-]. apply same_counts_refl. }
  destruct (variables !! i) as [variable|] eqn:Hvariable; [simpl|done].
  destruct (MFCallInstruction_set_param_variable this i variable p) as [p1|] eqn:Hstep;
    [simpl|done].
  intros Hrest.
  apply Call_set_param_variable_slot in Hstep
    as [Hslot (fn' & next' & params' & Hderef' & Hderef1)].
  rewrite Hderef in Hderef'. injection Hderef' as <- <- <-.
  rewrite list_insert_id in Hderef1 by done.
  eapply same_counts_trans; [|by eapply IH].
  eapply slot_mutation_same_counts; [done|]. by exists fn, next, variables.
Qed.

(** ** The invariants of the edges *)

(** C8. Every edge mutation keeps the two invariants: for all instructions
    [I] and [J] the multiplicity of [J] among the successor slots of [I] is the
    multiplicity of [I] in the [prev_] vector of [J], and for every
    instruction [I] and variable [V] the number of slots of [I] that refer to
    [V] is the multiplicity of [I] in the [users_] vector of [V]. *)
Theorem edge_mutation_consistent m p p' :
  edge_consistent p → user_consistent p →
  apply_mutation m p = Some p' →
  edge_consistent p' ∧ user_consistent p'.
Proof.
  intros Hedge Huser Hrun. destruct m; simpl in Hrun.
  - eapply slot_mutation_consistent; [by apply Call_set_next_slot|done..].
  - eapply slot_mutation_consistent; [by eapply Call_set_param_variable_slot|done..].
  - unfold MFCallInstruction_set_params in Hrun.
    destruct (call_instruction p this) as [[[fn next] params]|]; [simpl in Hrun|done].
    case_decide; [|done]. by eapply set_params_from_consistent.
  - eapply slot_mutation_consistent; [by apply Branch_set_condition_slot|done..].
  - eapply slot_mutation_consistent; [by apply Branch_set_branch_true_slot|done..].
  - eapply slot_mutation_consistent; [by apply Branch_set_branch_false_slot|done..].
  - eapply slot_mutation_consistent; [by apply Destruct_set_variable_slot|done..].
  - eapply slot_mutation_consistent; [by apply Destruct_set_next_slot|done..].
  - eapply slot_mutation_consistent; [by apply Dummy_set_next_slot|done..].
Qed.

Lemma edge_mutation_consistent_witness :
  ∃ p', apply_mutation (Branch_set_branch_true 0 (Some 2)) example_diamond = Some p' ∧
        edge_consistent p' ∧ user_consistent p'.
Proof.
  eexists. split; [vm_compute; reflexivity|].
  apply (edge_mutation_consistent (Branch_set_branch_true 0 (Some 2)) example_diamond).
  - apply consistentb_correct. vm_compute. reflexivity.
  - apply consistentb_correct. vm_compute. reflexivity.
  - vm_compute. reflexivity.
Defined.

(** C10. A mutation that writes into a slot the value the slot already holds
    leaves every [prev_] vector and every [users_] vector unchanged as a
    multiset: the instruction is removed once and appended once. *)
Theorem edge_mutation_same_value m p p' :
  rewrites_same p m →
  apply_mutation m p = Some p' →
  same_multisets p p'.
Proof.
  intros Hsame Hrun. apply same_counts_same_multisets. destruct m; simpl in Hrun.
  - eapply slot_mutation_same_counts; [by apply Call_set_next_slot|done].
  - eapply slot_mutation_same_counts; [by eapply Call_set_param_variable_slot|done].
  - destruct Hsame as (fn & next & Hderef).
    unfold MFCallInstruction_set_params in Hrun. rewrite Hderef in Hrun. simpl in Hrun.
    case_decide; [|done]. by eapply set_params_from_same_counts.
  - eapply slot_mutation_same_counts; [by apply Branch_set_condition_slot|done].
  - eapply slot_mutation_same_counts; [by apply Branch_set_branch_true_slot|done].
  - eapply slot_mutation_same_counts; [by apply Branch_set_branch_false_slot|done].
  - eapply slot_mutation_same_counts; [by apply Destruct_set_variable_slot|done].
  - eapply slot_mutation_same_counts; [by apply Destruct_set_next_slot|done].
  - eapply slot_mutation_same_counts; [by apply Dummy_set_next_slot|done].
Qed.

Lemma edge_mutation_same_value_witness :
  ∃ p', apply_mutation (Call_set_next 0 (Some 1)) example_identity = Some p' ∧
        same_multisets example_identity p'.
Proof.
  eexists. split; [vm_compute; reflexivity|].
  apply (edge_mutation_same_value (Call_set_next 0 (Some 1)) example_identity).
  - exists example_F, [Some 0; Some 1]. reflexivity.
  - vm_compute. reflexivity.
Defined.

(** ** The edge mutations are defined on consistent procedures *)

Lemma prev_count_pos p J I :
  0 < prev_count p J I → ∃ object, instructions p !! J = Some object ∧ I ∈ prev_ object.
Proof.
  unfold prev_count. destruct (instructions p !! J) as [object|]; simpl; [|lia].
  intros Hpos%multiplicity_pos. by exists object.
Qed.

Lemma users_count_pos p V I :
  0 < users_count p V I → ∃ object, variable_store p !! V = Some object ∧ I ∈ users_ object.
Proof.
  unfold users_count. destruct (variable_store p !! V) as [object|]; simpl; [|lia].
  intros Hpos%multiplicity_pos. by exists object.
Qed.

Lemma relink_successor_is_Some this old new new_payload p :
  is_Some (instructions p !! this) →
  (∀ n, old = Some n → 0 < prev_count p n this) →
  target_live p new →
  is_Some (if_nonnull old (prev_remove this) p ≫= λ p1,
           if_nonnull new (prev_append this) p1 ≫= λ p2,
           set_payload this new_payload p2).
Proof.
  intros Hthis Hold Hnew.
  assert (∃ p1, if_nonnull old (prev_remove this) p = Some p1 ∧
                ∀ X, payload_of p1 X = payload_of p X) as (p1 & -> & Hpayload1).
  { destruct old as [n|]; simpl; [|by exists p].
    destruct (prev_count_pos p n this) as (object & Hobject & Hin); [by apply Hold|].
    unfold prev_remove at 1. rewrite Hobject. simpl.
    destruct (remove_first_occurrence_and_reorder_is_Some _ _ Hin) as [prev Hprev].
    rewrite Hprev. simpl. eexists. split; [done|].
    eapply prev_remove_effect. unfold prev_remove. rewrite Hobject. simpl.
    by rewrite Hprev. }
  simpl.
  assert (∃ p2, if_nonnull new (prev_append this) p1 = Some p2 ∧
                ∀ X, payload_of p2 X = payload_of p1 X) as (p2 & -> & Hpayload2).
  { destruct new as [t|]; simpl; [|by exists p1].
    destruct (Hnew t eq_refl) as [object Hobject].
    assert (is_Some (instructions p1 !! t)) as [object1 Hobject1].
    { by rewrite <-payload_of_is_Some, Hpayload1, payload_of_is_Some, Hobject. }
    unfold prev_append at 1. rewrite Hobject1. simpl. eexists. split; [done|].
    eapply prev_append_effect. unfold prev_append. by rewrite Hobject1. }
  simpl. unfold set_payload.
  assert (is_Some (instructions p2 !! this)) as [object ->]; [|by eexists].
  by rewrite <-payload_of_is_Some, Hpayload2, Hpayload1, payload_of_is_Some.
Qed.

Lemma relink_variable_is_Some this old new new_payload p
    (attach : nat → MFProcedure → option MFProcedure) :
  is_Some (instructions p !! this) →
  (∀ v, old = Some v → 0 < users_count p v this) →
  (∀ p1 target,
     instructions p1 = instructions p →
     (∀ V, data_type_ <$> variable_store p1 !! V = data_type_ <$> variable_store p !! V) →
     new = Some target →
     is_Some (variable_store p1 !! target) ∧
     attach target p1 = users_append this target p1) →
  is_Some (if_nonnull old (users_remove this) p ≫= λ p1,
           if_nonnull new attach p1 ≫= λ p2,
           set_payload this new_payload p2).
Proof.
  intros Hthis Hold Hnew.
  assert (∃ p1, if_nonnull old (users_remove this) p = Some p1 ∧
                instructions p1 = instructions p ∧
                ∀ V, data_type_ <$> variable_store p1 !! V
                     = data_type_ <$> variable_store p !! V)
    as (p1 & -> & Hinstr1 & Htypes1).
  { destruct old as [v|]; simpl; [|by exists p].
    destruct (users_count_pos p v this) as (object & Hobject & Hin); [by apply Hold|].
    destruct (remove_first_occurrence_and_reorder_is_Some _ _ Hin) as [users Husers].
    assert (is_Some (users_remove this v p)) as [p1 Hp1].
    { unfold users_remove. rewrite Hobject. simpl. rewrite Husers. by eexists. }
    exists p1. split; [done|].
    apply users_remove_effect in Hp1 as (? & ? & _). by split. }
  simpl.
  assert (∃ p2, if_nonnull new attach p1 = Some p2 ∧ instructions p2 = instructions p1)
    as (p2 & -> & Hinstr2).
  { destruct new as [target|]; simpl; [|by exists p1].
    destruct (Hnew p1 target Hinstr1 Htypes1 eq_refl) as [[object Hobject] ->].
    assert (is_Some (users_append this target p1)) as [p2 Hp2].
    { unfold users_append. rewrite Hobject. by eexists. }
    exists p2. split; [done|]. by apply users_append_effect in Hp2 as (? & _). }
  simpl. unfold set_payload. rewrite Hinstr2, Hinstr1.
  destruct Hthis as [object ->]. by eexists.
Qed.

Lemma successor_registered p this payload_this n :
  edge_consistent p → pointers_live p →
  payload_of p this = Some payload_this → n ∈ successors payload_this →
  0 < prev_count p n this.
Proof.
  intros Hedge Hlive Hthis Hn. rewrite edge_consistent_counts in Hedge.
  rewrite <-(Hedge this n payload_this Hthis); [by apply multiplicity_pos|].
  unfold payload_of in Hthis.
  destruct (instructions p !! this) as [object|] eqn:Hobject; [|done].
  injection Hthis as <-. rewrite payload_of_is_Some.
  by eapply (proj1 (Hlive this object Hobject)).
Qed.

Lemma variable_registered p this payload_this v :
  user_consistent p → pointers_live p →
  payload_of p this = Some payload_this → v ∈ referenced_variables payload_this →
  0 < users_count p v this.
Proof.
  intros Huser Hlive Hthis Hv. rewrite user_consistent_counts in Huser.
  rewrite <-(Huser this v payload_this Hthis); [by apply multiplicity_pos|].
  unfold payload_of in Hthis.
  destruct (instructions p !! this) as [object|] eqn:Hobject; [|done].
  injection Hthis as <-. by eapply (proj2 (Hlive this object Hobject)).
Qed.

Lemma users_append_when_live this new p :
  variable_live p new →
  ∀ p1 target,
    instructions p1 = instructions p →
    (∀ V, data_type_ <$> variable_store p1 !! V = data_type_ <$> variable_store p !! V) →
    new = Some target →
    is_Some (variable_store p1 !! target) ∧
    users_append this target p1 = users_append this target p1.
Proof.
  intros Hnew p1 target _ Htypes Htarget. split; [|done].
  apply (store_live_iff _ _ Htypes). by apply Hnew.
Qed.

Lemma slot_mutation_types p p' same :
  slot_mutation p p' same →
  ∀ V, data_type_ <$> variable_store p' !! V = data_type_ <$> variable_store p !! V.
Proof. by intros (? & ? & ? & ? & ? & ? & ? & _ & (_ & _ & _ & _ & ? & _) & _). Qed.

Lemma slot_mutation_live p p' same :
  slot_mutation p p' same → pointers_live p → pointers_live p'.
Proof.
  intros (this & old_payload & new_payload & os & ns & ov & nv & Hold &
          (Hpayload & Hthis & Hprev & Husers & Htypes & _) & (Hsucc & Hrefs & _) & _) Hlive.
  assert (∀ X, is_Some (instructions p !! X) → is_Some (instructions p' !! X)) as Hkeep.
  { intros X HX. rewrite <-payload_of_is_Some, Hpayload. case_decide; [by eexists|].
    by rewrite payload_of_is_Some. }
  assert (∃ object, instructions p !! this = Some object ∧ payload object = old_payload)
    as (old_object & Hold_object & Hold_payload).
  { unfold payload_of in Hold. destruct (instructions p !! this) as [object|]; [|done].
    exists object. split; [done|]. by injection Hold. }
  intros I object' HI.
  assert (payload_of p' I = Some (payload object')) as HI' by (unfold payload_of; by rewrite HI).
  rewrite Hpayload in HI'. case_decide as Hcase.
  - subst I. injection HI' as HI'. rewrite <-HI'. split.
    + intros J HJ%multiplicity_pos. specialize (Hsucc J).
      destruct (decide (J ∈ successors old_payload)) as [Hin|Hnotin].
      { apply Hkeep. eapply (proj1 (Hlive this old_object Hold_object)).
        by rewrite Hold_payload. }
      assert (multiplicity J (successors old_payload) = 0) as Hzero.
      { destruct (multiplicity J (successors old_payload)) eqn:Hm; [done|].
        destruct Hnotin. apply multiplicity_pos. lia. }
      specialize (Hprev J this).
      destruct (prev_count_pos p' J this) as (object & -> & _); [indicators|by eexists].
    + intros V HV%multiplicity_pos. specialize (Hrefs V).
      destruct (decide (V ∈ referenced_variables old_payload)) as [Hin|Hnotin].
      { apply (store_live_iff _ _ Htypes).
        eapply (proj2 (Hlive this old_object Hold_object)). by rewrite Hold_payload. }
      assert (multiplicity V (referenced_variables old_payload) = 0) as Hzero.
      { destruct (multiplicity V (referenced_variables old_payload)) eqn:Hm; [done|].
        destruct Hnotin. apply multiplicity_pos. lia. }
      specialize (Husers V this).
      destruct (users_count_pos p' V this) as (object & -> & _); [indicators|by eexists].
  - unfold payload_of in HI'.
    destruct (instructions p !! I) as [object|] eqn:Hobject; [|done].
    injection HI' as HI'. rewrite <-HI'.
    destruct (Hlive I object Hobject) as [Hs Hv]. split.
    + intros J HJ. by apply Hkeep, Hs.
    + intros V HV. by apply (store_live_iff _ _ Htypes), Hv.
Qed.

Lemma payload_of_live p this payload_this :
  payload_of p this = Some payload_this → is_Some (instructions p !! this).
Proof. intros H. rewrite <-payload_of_is_Some, H. by eexists. Qed.

Lemma Call_set_param_variable_is_Some this param_index variable p :
  edge_consistent p → user_consistent p → pointers_live p →
  applicable p (Call_set_param_variable this param_index variable) →
  is_Some (MFCallInstruction_set_param_variable this param_index variable p).
Proof.
  intros Hedge Huser Hlive (fn & next & params & Hderef & Hindex & Hfits).
  unfold MFCallInstruction_set_param_variable. rewrite Hderef. simpl.
  destruct (lookup_lt_is_Some_2 params param_index Hindex) as [old Hold].
  rewrite Hold. simpl.
  apply call_instruction_payload_of in Hderef.
  apply relink_variable_is_Some.
  - by eapply payload_of_live.
  - intros v ->. eapply variable_registered; [done..|]. simpl.
    apply list_elem_of_omap. exists (Some v). split; [|done].
    by eapply list_elem_of_lookup_2.
  - intros p1 target Hinstr Htypes ->.
    destruct (Hfits target eq_refl) as (pt & object & Hpt & Hobject & Hdt).
    specialize (Htypes target). rewrite Hobject in Htypes.
    destruct (variable_store p1 !! target) as [object1|] eqn:Hobject1; [|done].
    split; [by eexists|]. rewrite Hpt. simpl.
    rewrite decide_True; [done|]. simpl in Htypes. congruence.
Qed.

Lemma variable_fits_types p p' fn param_index variable :
  (∀ V, data_type_ <$> variable_store p' !! V = data_type_ <$> variable_store p !! V) →
  variable_fits p fn param_index variable → variable_fits p' fn param_index variable.
Proof.
  intros Htypes Hfits target Htarget.
  destruct (Hfits target Htarget) as (pt & object & Hpt & Hobject & Hdt).
  specialize (Htypes target). rewrite Hobject in Htypes.
  destruct (variable_store p' !! target) as [object'|]; [|done].
  exists pt, object'. split_and!; [done..|]. simpl in Htypes. congruence.
Qed.

Lemma set_params_from_is_Some this variables fn next index_range p params :
  edge_consistent p → user_consistent p → pointers_live p →
  call_instruction p this = Some (fn, next, params) →
  length variables = length params →
  (∀ i, i ∈ index_range → i < length variables) →
  (∀ i variable, variables !! i = Some variable → variable_fits p fn i variable) →
  is_Some (set_params_from this variables index_range p).
Proof.
  revert p params.
  induction index_range as [|i index_range IH];
    intros p params Hedge Huser Hlive Hderef Hlen Hrange Hfits; simpl; [by eexists|].
  destruct (lookup_lt_is_Some_2 variables i) as [variable Hvariable];
    [apply Hrange; by left|].
  rewrite Hvariable. simpl.
  destruct (Call_set_param_variable_is_Some this i variable p) as [p1 Hstep]; [done..| |].
  { exists fn, next, params. split_and!; [done| |by eapply Hfits].
    rewrite <-Hlen. by eapply lookup_lt_Some. }
  rewrite Hstep. simpl.
  destruct (Call_set_param_variable_slot _ _ _ _ _ Hstep)
    as [Hslot (fn' & next' & params' & Hderef' & Hderef1)].
  rewrite Hderef in Hderef'. injection Hderef' as <- <- <-.
  destruct (slot_mutation_consistent _ _ _ Hslot Hedge Huser) as [Hedge1 Huser1].
  apply (IH p1 (<[i := variable]> params)); [done|done| |done| | |].
  - by eapply slot_mutation_live.
  - by rewrite length_insert.
  - intros j Hj. apply Hrange. by right.
  - intros j variable' Hj. eapply variable_fits_types; [by eapply slot_mutation_types|].
    by eapply Hfits.
Qed.

(** On a procedure that satisfies the invariants and has no dangling pointer,
    an edge mutation with fitting arguments is defined. *)
Lemma edge_mutation_succeeds m p :
  edge_consistent p → user_consistent p → pointers_live p →
  applicable p m →
  is_Some (apply_mutation m p).
Proof.
  intros Hedge Huser Hlive Happlicable. destruct m; simpl in *.
  - destruct Happlicable as [[[[fn next] params] Hderef] Htarget].
    unfold MFCallInstruction_set_next. rewrite Hderef. simpl.
    apply call_instruction_payload_of in Hderef.
    apply relink_successor_is_Some; [by eapply payload_of_live| |done].
    intros n ->. eapply successor_registered; [done..|]. simpl. left.
  - by apply Call_set_param_variable_is_Some.
  - destruct Happlicable as (fn & next & params & Hderef & Hlen & Hfits).
    unfold MFCallInstruction_set_params. rewrite Hderef. simpl.
    rewrite decide_True by done.
    eapply set_params_from_is_Some; [done..| |done].
    intros i Hi%elem_of_seq. lia.
  - destruct Happlicable as [[[[condition branch_true] branch_false] Hderef] Htarget].
    unfold MFBranchInstruction_set_condition. rewrite Hderef. simpl.
    apply branch_instruction_payload_of in Hderef.
    apply relink_variable_is_Some;
      [by eapply payload_of_live| |by apply users_append_when_live].
    intros v ->. eapply variable_registered; [done..|]. simpl. left.
  - destruct Happlicable as [[[[condition branch_true] branch_false] Hderef] Htarget].
    unfold MFBranchInstruction_set_branch_true. rewrite Hderef. simpl.
    apply branch_instruction_payload_of in Hderef.
    apply relink_successor_is_Some; [by eapply payload_of_live| |done].
    intros n ->. eapply successor_registered; [done..|]. simpl. left.
  - destruct Happlicable as [[[[condition branch_true] branch_false] Hderef] Htarget].
    unfold MFBranchInstruction_set_branch_false. rewrite Hderef. simpl.
    apply branch_instruction_payload_of in Hderef.
    apply relink_successor_is_Some; [by eapply payload_of_live| |done].
    intros n ->. eapply successor_registered; [done..|]. simpl.
    apply elem_of_app. right. left.
  - destruct Happlicable as [[[variable' next] Hderef] Htarget].
    unfold MFDestructInstruction_set_variable. rewrite Hderef. simpl.
    apply destruct_instruction_payload_of in Hderef.
    apply relink_variable_is_Some;
      [by eapply payload_of_live| |by apply users_append_when_live].
    intros v ->. eapply variable_registered; [done..|]. simpl. left.
  - destruct Happlicable as [[[variable next] Hderef] Htarget].
    unfold MFDestructInstruction_set_next. rewrite Hderef. simpl.
    apply destruct_instruction_payload_of in Hderef.
    apply relink_successor_is_Some; [by eapply payload_of_live| |done].
    intros n ->. eapply successor_registered; [done..|]. simpl. left.
  - destruct Happlicable as [[next Hderef] Htarget].
    unfold MFDummyInstruction_set_next. rewrite Hderef. simpl.
    apply dummy_instruction_payload_of in Hderef.
    apply relink_successor_is_Some; [by eapply payload_of_live| |done].
    intros n ->. eapply successor_registered; [done..|]. simpl. left.
Qed.

(** ** What the builder and the edge mutations maintain *)

Lemma call_instruction_is_Some p a :
  is_Some (call_instruction p a) ↔ payload_type <$> payload_of p a = Some Call.
Proof.
  unfold call_instruction, payload_of.
  destruct (instructions p !! a) as [object|]; simpl; [|by split; [intros [? ?]|]].
  destruct (payload object); simpl; split; try done; try (by intros [? ?]); by eexists.
Qed.

Lemma branch_instruction_is_Some p a :
  is_Some (branch_instruction p a) ↔ payload_type <$> payload_of p a = Some Branch.
Proof.
  unfold branch_instruction, payload_of.
  destruct (instructions p !! a) as [object|]; simpl; [|by split; [intros [? ?]|]].
  destruct (payload object); simpl; split; try done; try (by intros [? ?]); by eexists.
Qed.

Lemma destruct_instruction_is_Some p a :
  is_Some (destruct_instruction p a) ↔ payload_type <$> payload_of p a = Some Destruct.
Proof.
  unfold destruct_instruction, payload_of.
  destruct (instructions p !! a) as [object|]; simpl; [|by split; [intros [? ?]|]].
  destruct (payload object); simpl; split; try done; try (by intros [? ?]); by eexists.
Qed.

Lemma dummy_instruction_is_Some p a :
  is_Some (dummy_instruction p a) ↔ payload_type <$> payload_of p a = Some Dummy.
Proof.
  unfold dummy_instruction, payload_of.
  destruct (instructions p !! a) as [object|]; simpl; [|by split; [intros [? ?]|]].
  destruct (payload object); simpl; split; try done; try (by intros [? ?]); by eexists.
Qed.

Lemma return_instruction_is_Some p a :
  (∃ object, instructions p !! a = Some object ∧ type_ object = Return) ↔
  payload_type <$> payload_of p a = Some Return.
Proof.
  unfold payload_of, type_.
  destruct (instructions p !! a) as [object|]; simpl.
  - split; [intros (? & [= <-] & ->); done | intros [= ?]; by exists object].
  - split; [by intros (? & ? & _) | done].
Qed.

(** Well-formedness in terms of what is stored at the addresses. *)
Lemma well_formed_alt p :
  well_formed p ↔
  (∀ a, a ∈ call_instructions_ p → payload_type <$> payload_of p a = Some Call) ∧
  (∀ a, a ∈ branch_instructions_ p → payload_type <$> payload_of p a = Some Branch) ∧
  (∀ a, a ∈ destruct_instructions_ p → payload_type <$> payload_of p a = Some Destruct) ∧
  (∀ a, a ∈ dummy_instructions_ p → payload_type <$> payload_of p a = Some Dummy) ∧
  (∀ a, a ∈ return_instructions_ p → payload_type <$> payload_of p a = Some Return) ∧
  (∀ a q, 0 < prev_count p a q → is_Some (payload_of p q)) ∧
  (∀ a fn next params, payload_of p a = Some (CallData fn next params) →
                       length params = param_amount fn).
Proof.
  split.
  - intros [H1 H2 H3 H4 H5 H6 H7]. split_and!.
    + intros a Ha. by apply call_instruction_is_Some, H1.
    + intros a Ha. by apply branch_instruction_is_Some, H2.
    + intros a Ha. by apply destruct_instruction_is_Some, H3.
    + intros a Ha. by apply dummy_instruction_is_Some, H4.
    + intros a Ha. by apply return_instruction_is_Some, H5.
    + intros a q (object & Hobject & Hq)%prev_count_pos.
      rewrite payload_of_is_Some. by eapply H6.
    + intros a fn next params Ha. unfold payload_of in Ha.
      destruct (instructions p !! a) as [object|] eqn:Hobject; [|done].
      injection Ha as Ha. by eapply H7.
  - intros (H1 & H2 & H3 & H4 & H5 & H6 & H7). split.
    + intros a Ha. by apply call_instruction_is_Some, H1.
    + intros a Ha. by apply branch_instruction_is_Some, H2.
    + intros a Ha. by apply destruct_instruction_is_Some, H3.
    + intros a Ha. by apply dummy_instruction_is_Some, H4.
    + intros a Ha. by apply return_instruction_is_Some, H5.
    + intros a object q Hobject Hq. rewrite <-payload_of_is_Some. apply (H6 a).
      unfold prev_count. rewrite Hobject. simpl. by apply multiplicity_pos.
    + intros a object fn next params Hobject Hpayload. apply (H7 a fn next).
      unfold payload_of. rewrite Hobject. simpl. by rewrite Hpayload.
Qed.

Lemma users_live_alt p :
  users_live p ↔ ∀ V I, 0 < users_count p V I → is_Some (payload_of p I).
Proof.
  unfold users_live. split.
  - intros H V I (object & Hobject & HI)%users_count_pos.
    rewrite payload_of_is_Some. by eapply H.
  - intros H V object I Hobject HI. rewrite <-payload_of_is_Some. apply (H V).
    unfold users_count. rewrite Hobject. simpl. by apply multiplicity_pos.
Qed.

Lemma same_shape_type old_payload new_payload :
  same_shape old_payload new_payload → payload_type new_payload = payload_type old_payload.
Proof. by destruct old_payload, new_payload. Qed.

Lemma slot_mutation_sound p p' same :
  slot_mutation p p' same → sound p → sound p'.
Proof.
  intros Hslot [Hwf Hedge Huser Hlive Husers].
  destruct (slot_mutation_consistent _ _ _ Hslot Hedge Huser) as [Hedge' Huser'].
  pose proof (slot_mutation_live _ _ _ Hslot Hlive) as Hlive'.
  destruct Hslot as (this & old_payload & new_payload & os & ns & ov & nv & Hold &
    (Hpayload & Hthis & Hprev & Husers_count & Htypes & Hdirectory) &
    (_ & _ & Hshape) & _).
  assert (∀ X, payload_type <$> payload_of p' X = payload_type <$> payload_of p X) as Htype.
  { intros X. rewrite Hpayload. case_decide; [|done]. subst X. rewrite Hold. simpl.
    by rewrite (same_shape_type _ _ Hshape). }
  assert (∀ X, is_Some (payload_of p X) → is_Some (payload_of p' X)) as Hkeep.
  { intros X. rewrite <-!fmap_is_Some with (f := payload_type). by rewrite Htype. }
  destruct Hdirectory as (Dcall & Dbranch & Ddestruct & Ddummy & Dreturn & _).
  apply well_formed_alt in Hwf as (W1 & W2 & W3 & W4 & W5 & W6 & W7).
  split; [|done..|].
  - apply well_formed_alt. rewrite Dcall, Dbranch, Ddestruct, Ddummy, Dreturn.
    split_and!; try (intros a Ha; rewrite Htype; auto).
    + intros a q Hq. specialize (Hprev a q).
      destruct (decide (q = this)) as [->|Hne].
      * apply Hkeep. by rewrite payload_of_is_Some.
      * apply Hkeep, (W6 a). indicators.
    + intros a fn next params. rewrite Hpayload. case_decide.
      * subst a. intros [= ->]. destruct old_payload; try done.
        destruct Hshape as [-> ->]. by eapply (W7 this).
      * apply W7.
  - apply users_live_alt. rewrite users_live_alt in Husers. intros V I HI.
    specialize (Husers_count V I).
    destruct (decide (I = this)) as [->|Hne].
    + apply Hkeep. by rewrite payload_of_is_Some.
    + apply Hkeep, (Husers V). indicators.
Qed.

Lemma set_params_from_sound this variables index_range p p' :
  set_params_from this variables index_range p = Some p' → sound p → sound p'.
Proof.
  revert p. induction index_range as [|i index_range IH]; intros p; simpl.
  { by intros [= <-]. }
  destruct (variables !! i) as [variable|]; [simpl|done].
  destruct (MFCallInstruction_set_param_variable this i variable p) as [p1|] eqn:Hstep;
    [simpl|done].
  intros Hrest Hsound. apply Call_set_param_variable_slot in Hstep as [Hslot _].
  eapply IH; [done|]. by eapply slot_mutation_sound.
Qed.

Lemma apply_mutation_sound m p p' :
  sound p → apply_mutation m p = Some p' → sound p'.
Proof.
  intros Hsound Hrun. destruct m; simpl in Hrun.
  - eapply slot_mutation_sound; [by apply Call_set_next_slot|done].
  - eapply slot_mutation_sound; [by eapply Call_set_param_variable_slot|done].
  - unfold MFCallInstruction_set_params in Hrun.
    destruct (call_instruction p this) as [[[fn next] params]|]; [simpl in Hrun|done].
    case_decide; [|done]. by eapply set_params_from_sound.
  - eapply slot_mutation_sound; [by apply Branch_set_condition_slot|done].
  - eapply slot_mutation_sound; [by apply Branch_set_branch_true_slot|done].
  - eapply slot_mutation_sound; [by apply Branch_set_branch_false_slot|done].
  - eapply slot_mutation_sound; [by apply Destruct_set_variable_slot|done].
  - eapply slot_mutation_sound; [by apply Destruct_set_next_slot|done].
  - eapply slot_mutation_sound; [by apply Dummy_set_next_slot|done].
Qed.

Lemma pointers_live_alt p :
  pointers_live p ↔
  ∀ I payload_I, payload_of p I = Some payload_I →
    (∀ J, J ∈ successors payload_I → is_Some (payload_of p J)) ∧
    (∀ V, V ∈ referenced_variables payload_I → is_Some (variable_store p !! V)).
Proof.
  unfold pointers_live. split.
  - intros H I payload_I HI. unfold payload_of in HI.
    destruct (instructions p !! I) as [object|] eqn:Hobject; [|done].
    injection HI as <-. destruct (H I object Hobject) as [Hs Hv]. split; [|done].
    intros J HJ. apply payload_of_is_Some. by apply Hs.
  - intros H I object Hobject. destruct (H I (payload object)) as [Hs Hv].
    { unfold payload_of. by rewrite Hobject. }
    split; [|done]. intros J HJ. apply payload_of_is_Some. by apply Hs.
Qed.

Lemma allocate_fresh {A} (arena : gmap nat A) : arena !! allocate arena = None.
Proof. apply not_elem_of_dom. unfold allocate. apply is_fresh. Qed.

Lemma sound_empty : sound empty_procedure.
Proof.
  split.
  - split; simpl; try (by intros a Ha; inversion Ha);
      intros a object ? **; by simplify_map_eq.
  - intros I J object_I object_J HI. simpl in HI. by simplify_map_eq.
  - intros I V object_I object_V HI. simpl in HI. by simplify_map_eq.
  - intros I object HI. simpl in HI. by simplify_map_eq.
  - intros V object I HV. simpl in HV. by simplify_map_eq.
Qed.

Lemma sound_add_parameter interface_type variable p :
  sound p → sound (add_parameter interface_type variable p).
Proof. intros [[] ? ? ? ?]. split; [split|..]; assumption. Qed.

Lemma sound_set_entry entry p : sound p → sound (set_entry entry p).
Proof. intros [[] ? ? ? ?]. split; [split|..]; assumption. Qed.

Lemma sound_new_variable data_type name p :
  sound p → sound (new_variable data_type name p).2.
Proof.
  intros [Hwf Hedge Huser Hlive Husers].
  pose proof (allocate_fresh (variable_store p)) as Hfresh.
  set (v := allocate (variable_store p)) in *.
  split.
  - by destruct Hwf.
  - done.
  - intros I V object_I object_V HI HV. simpl in *.
    rewrite lookup_insert in HV. case_decide as HVv.
    + subst V. injection HV as <-. simpl. rewrite multiplicity_nil.
      destruct (multiplicity v (referenced_variables (payload object_I))) eqn:Hm; [done|].
      assert (v ∈ referenced_variables (payload object_I)) as Hin
        by (apply multiplicity_pos; lia).
      apply (proj2 (Hlive I object_I HI)) in Hin as [? Hin]. congruence.
    + by eapply Huser.
  - intros I object HI. destruct (Hlive I object HI) as [Hs Hv]. split; [done|].
    intros V HV. simpl. rewrite lookup_insert. case_decide; [by eexists | by apply Hv].
  - intros V object I HV HI. simpl in *. rewrite lookup_insert in HV.
    case_decide; [injection HV as <-; inversion HI | by eapply Husers].
Qed.

Lemma new_instruction_payload_of new_payload p X :
  payload_of (new_instruction new_payload p).2 X
  = if decide (X = allocate (instructions p)) then Some new_payload else payload_of p X.
Proof.
  unfold payload_of. simpl. rewrite lookup_insert.
  case_decide; case_decide; simplify_eq; done.
Qed.

Lemma new_instruction_prev_count new_payload p J I :
  prev_count (new_instruction new_payload p).2 J I
  = if decide (J = allocate (instructions p)) then 0 else prev_count p J I.
Proof.
  unfold prev_count. simpl. rewrite lookup_insert.
  case_decide; case_decide; simplify_eq; done.
Qed.

Lemma new_instruction_vectors new_payload p :
  let a := allocate (instructions p) in
  let append (class : MFInstructionType) (vector : list nat) :=
    if decide (payload_type new_payload = class) then vector ++ [a] else vector in
  call_instructions_ (new_instruction new_payload p).2 = append Call (call_instructions_ p) ∧
  branch_instructions_ (new_instruction new_payload p).2
    = append Branch (branch_instructions_ p) ∧
  destruct_instructions_ (new_instruction new_payload p).2
    = append Destruct (destruct_instructions_ p) ∧
  dummy_instructions_ (new_instruction new_payload p).2 = append Dummy (dummy_instructions_ p) ∧
  return_instructions_ (new_instruction new_payload p).2
    = append Return (return_instructions_ p).
Proof. done. Qed.

Lemma elem_of_new_instruction_vector class (vector : list nat) new_payload a a' :
  a' ∈ (if decide (payload_type new_payload = class) then vector ++ [a] else vector) →
  a' ∈ vector ∨ a' = a ∧ payload_type new_payload = class.
Proof.
  case_decide; [|by left].
  intros [?| ->%list_elem_of_singleton]%elem_of_app; [by left | by right].
Qed.

Lemma sound_new_instruction new_payload p :
  successors new_payload = [] →
  referenced_variables new_payload = [] →
  (∀ fn next params, new_payload = CallData fn next params →
                     length params = param_amount fn) →
  sound p → sound (new_instruction new_payload p).2.
Proof.
  intros Hsucc Hrefs Hparams [Hwf Hedge Huser Hlive Husers].
  pose proof (allocate_fresh (instructions p)) as Hfresh.
  assert (payload_of p (allocate (instructions p)) = None) as Hfresh'
    by (unfold payload_of; by rewrite Hfresh).
  set (a := allocate (instructions p)) in *.
  apply well_formed_alt in Hwf as (W1 & W2 & W3 & W4 & W5 & W6 & W7).
  rewrite edge_consistent_counts in Hedge. rewrite user_consistent_counts in Huser.
  rewrite pointers_live_alt in Hlive. rewrite users_live_alt in Husers.
  assert (∀ X, is_Some (payload_of p X) →
               is_Some (payload_of (new_instruction new_payload p).2 X)) as Hkeep.
  { intros X HX. rewrite new_instruction_payload_of. case_decide; [by eexists | done]. }
  assert (∀ X class, payload_type <$> payload_of p X = Some class →
            payload_type <$> payload_of (new_instruction new_payload p).2 X = Some class)
    as Hclass.
  { intros X class HX. rewrite new_instruction_payload_of. case_decide; [|done].
    subst X. fold a in HX. by rewrite Hfresh' in HX. }
  assert (∀ J, prev_count p J a = 0) as Hprev_fresh.
  { intros J. destruct (prev_count p J a) eqn:Hcount; [done|].
    destruct (W6 J a) as [? Hlive_a]; [lia|]. congruence. }
  split.
  - apply well_formed_alt.
    destruct (new_instruction_vectors new_payload p) as (-> & -> & -> & -> & ->).
    split_and!;
      try (intros a' [Ha'|[-> Htype]]%elem_of_new_instruction_vector;
           [by auto | rewrite new_instruction_payload_of, decide_True by done;
                      simpl; by rewrite Htype]).
    + intros J q. rewrite new_instruction_prev_count. case_decide; [lia|].
      intros Hq. by eapply Hkeep, W6.
    + intros X fn next params. rewrite new_instruction_payload_of. case_decide.
      * intros [= ->]. by eapply Hparams.
      * apply W7.
  - apply edge_consistent_counts. intros I J payload_I.
    rewrite !new_instruction_payload_of, new_instruction_prev_count.
    case_decide as HI; case_decide as HJ.
    + intros [= <-] _. by rewrite Hsucc.
    + intros [= <-] _. subst I. by rewrite Hsucc, Hprev_fresh.
    + intros HI' _. subst J.
      destruct (multiplicity a (successors payload_I)) eqn:Hm; [done|].
      assert (a ∈ successors payload_I) as Hin by (apply multiplicity_pos; lia).
      apply (proj1 (Hlive I payload_I HI')) in Hin as [? Hin]. congruence.
    + apply Hedge.
  - apply user_consistent_counts. intros I V payload_I.
    rewrite new_instruction_payload_of. unfold users_count. simpl.
    fold (users_count p V I). case_decide as HI.
    + intros [= <-] _. subst I. rewrite Hrefs, multiplicity_nil.
      destruct (users_count p V a) eqn:Hcount; [done|].
      destruct (Husers V a) as [? Hlive_a]; [lia|]. congruence.
    + apply Huser.
  - apply pointers_live_alt. intros I payload_I.
    rewrite new_instruction_payload_of. case_decide as HI.
    + intros [= <-]. rewrite Hsucc, Hrefs. split; intros ? H; inversion H.
    + intros HI'. destruct (Hlive I payload_I HI') as [Hs Hv]. split; [|done].
      intros J HJ. by apply Hkeep, Hs.
  - apply users_live_alt. intros V I HI. by eapply Hkeep, Husers.
Qed.

(** Every procedure that is built with the builder and the edge mutations is
    well-formed and satisfies the invariants. *)
Lemma constructed_sound p : constructed p → sound p.
Proof.
  induction 1 as [|data_type name p _ IH|fn p _ IH|p _ IH|p _ IH|p _ IH|p _ IH
                 |interface_type variable p _ IH|entry p _ IH|m p p' _ IH Hrun].
  - apply sound_empty.
  - by apply sound_new_variable.
  - apply sound_new_instruction; [done| |by intros ? ? ? [= <- _ <-];
                                           rewrite length_replicate|done].
    simpl. induction (param_amount fn) as [|n IHn]; [done|]. simpl. apply IHn.
  - by apply sound_new_instruction.
  - by apply sound_new_instruction.
  - by apply sound_new_instruction.
  - by apply sound_new_instruction.
  - by apply sound_add_parameter.
  - by apply sound_set_entry.
  - by eapply apply_mutation_sound.
Qed.

Corollary constructed_well_formed p : constructed p → well_formed p.
Proof. by intros [? _ _ _ _]%constructed_sound. Qed.

Corollary constructed_consistent p :
  constructed p → edge_consistent p ∧ user_consistent p.
Proof. by intros [_ ? ? _ _]%constructed_sound. Qed.

(** Consistent edges without dangling pointers are mirrored. *)
Lemma sound_edges_mirrored p : sound p → edges_mirrored p.
Proof.
  intros [_ Hedge _ Hlive _] a b (object & Hobject & Hb).
  destruct (proj1 (Hlive a object Hobject) b Hb) as [object' Hobject'].
  exists object'. split; [done|]. apply multiplicity_pos.
  rewrite <-(Hedge a b object object' Hobject Hobject'). by apply multiplicity_pos.
Qed.

Corollary constructed_edges_mirrored p : constructed p → edges_mirrored p.
Proof. intros ?. by apply sound_edges_mirrored, constructed_sound. Qed.

(** ** The example procedures *)

Lemma builder_calls_constructed calls p p' :
  constructed p → builder_calls calls p = Some p' → constructed p'.
Proof.
  revert p. induction calls as [|call calls IH]; intros p Hp; simpl.
  { by intros [= <-]. }
  destruct (builder_call call p) as [p1|] eqn:Hcall; [simpl|done].
  apply IH. destruct call; simpl in Hcall; try injection Hcall as <-.
  - by apply constructed_new_variable.
  - by apply constructed_new_call_instruction.
  - by apply constructed_new_branch_instruction.
  - by apply constructed_new_destruct_instruction.
  - by apply constructed_new_dummy_instruction.
  - by apply constructed_new_return_instruction.
  - by apply constructed_add_parameter.
  - by apply constructed_set_entry.
  - by eapply constructed_mutation.
Qed.

Example example_identity_constructed : constructed example_identity.
Proof.
  apply (builder_calls_constructed build_identity empty_procedure); [constructor|].
  vm_compute. reflexivity.
Qed.

Example example_unreachable_constructed : constructed example_unreachable.
Proof.
  apply (builder_calls_constructed build_unreachable empty_procedure); [constructor|].
  vm_compute. reflexivity.
Qed.

Example example_diamond_constructed : constructed example_diamond.
Proof.
  apply (builder_calls_constructed build_diamond empty_procedure); [constructor|].
  vm_compute. reflexivity.
Qed.

Example example_loop_constructed : constructed example_loop.
Proof.
  apply (builder_calls_constructed build_loop empty_procedure); [constructor|].
  vm_compute. reflexivity.
Qed.

Example example_shared_input_constructed : constructed example_shared_input.
Proof.
  apply (builder_calls_constructed build_shared_input empty_procedure); [constructor|].
  vm_compute. reflexivity.
Qed.

(** The end-to-end scenarios. *)
Example validate_example_identity : validate example_identity = Some true.
Proof. vm_compute. reflexivity. Qed.

Example validate_example_use_before_init : validate example_use_before_init = Some false.
Proof. vm_compute. reflexivity. Qed.

Example validate_example_double_output : validate example_double_output = Some false.
Proof. vm_compute. reflexivity. Qed.

Example validate_example_shared_input : validate example_shared_input = Some true.
Proof. vm_compute. reflexivity. Qed.

Example validate_example_loop : validate example_loop = Some true.
Proof. vm_compute. reflexivity. Qed.

(** Writing a pointer that is there already can change the order of a vector:
    the second dummy of the diamond moves to the front of the [prev_] vector
    of the destruct instruction when the first one sets its successor again. *)
Example same_value_reorders :
  (λ p, prev_ <$> instructions p !! 3)
    <$> apply_mutation (Dummy_set_next 1 (Some 3)) example_diamond
  = Some (Some [2; 1]).
Proof. vm_compute. reflexivity. Qed.
(** ** Renaming a variable *)



Lemma for_all_ext {A} (body body' : A → option bool) xs :
  (∀ x, body x = body' x) → for_all body xs = for_all body' xs.
Proof. intros Hext. induction xs as [|x xs IH]; simpl; [done|]. by rewrite Hext, IH. Qed.





(** ** What an edge mutation changes, spelled out *)

Lemma same_variables_refl p : same_variables p p.
Proof. by intros V. Qed.

Lemma same_variables_trans p1 p2 p3 :
  same_variables p1 p2 → same_variables p2 p3 → same_variables p1 p3.
Proof. intros H12 H23 V. by rewrite H23, H12. Qed.

Lemma same_variables_store p p' : variable_store p' = variable_store p → same_variables p p'.
Proof. intros Hstore V. by rewrite Hstore. Qed.

Lemma users_remove_variables this target p p' :
  users_remove this target p = Some p' → same_variables p p'.
Proof.
  unfold users_remove. destruct (variable_store p !! target) as [object|] eqn:Hobject;
    [simpl|done].
  destruct (remove_first_occurrence_and_reorder this (users_ object)); [simpl|done].
  intros [= <-] V. simpl. rewrite lookup_insert. case_decide; [|done].
  subst V. by rewrite Hobject.
Qed.

Lemma users_append_variables this target p p' :
  users_append this target p = Some p' → same_variables p p'.
Proof.
  unfold users_append. destruct (variable_store p !! target) as [object|] eqn:Hobject;
    [simpl|done].
  intros [= <-] V. simpl. rewrite lookup_insert. case_decide; [|done].
  subst V. by rewrite Hobject.
Qed.

Lemma prev_remove_variables this target p p' :
  prev_remove this target p = Some p' → same_variables p p'.
Proof. intros (_ & ? & _)%prev_remove_effect. by apply same_variables_store. Qed.

Lemma prev_append_variables this target p p' :
  prev_append this target p = Some p' → same_variables p p'.
Proof. intros (_ & ? & _)%prev_append_effect. by apply same_variables_store. Qed.

Lemma set_payload_variables this new_payload p p' :
  set_payload this new_payload p = Some p' → same_variables p p'.
Proof. intros (_ & _ & ? & _)%set_payload_effect. by apply same_variables_store. Qed.

Lemma if_nonnull_variables {A} (pointer : option A)
    (action : A → MFProcedure → option MFProcedure) p p' :
  (∀ target q q', action target q = Some q' → same_variables q q') →
  if_nonnull pointer action p = Some p' → same_variables p p'.
Proof.
  intros Haction. destruct pointer as [target|]; simpl; [by apply Haction|].
  intros [= <-]. apply same_variables_refl.
Qed.

Lemma relink_successor_rewired this old new old_payload new_payload p p1 p2 p' :
  (∀ J, multiplicity J (successors new_payload) + indicator (old = Some J)
        = multiplicity J (successors old_payload) + indicator (new = Some J)) →
  referenced_variables new_payload = referenced_variables old_payload →
  if_nonnull old (prev_remove this) p = Some p1 →
  if_nonnull new (prev_append this) p1 = Some p2 →
  set_payload this new_payload p2 = Some p' →
  rewired p p' this old_payload new_payload.
Proof.
  intros Hbalance Hrefs H1 H2 Hset.
  destruct (relink_successor _ _ _ _ _ _ _ _ H1 H2 Hset)
    as (Hpayload & _ & Hprev & Husers & _ & Hdirectory).
  split_and!; [done| | | |done].
  - intros J I. specialize (Hprev J I). specialize (Hbalance J). indicators.
  - intros V I. specialize (Husers V I). rewrite Hrefs. indicators.
  - eapply same_variables_trans;
      [eapply if_nonnull_variables; [apply prev_remove_variables|done]|].
    eapply same_variables_trans;
      [eapply if_nonnull_variables; [apply prev_append_variables|done]|].
    by eapply set_payload_variables.
Qed.

Lemma relink_variable_rewired this old new old_payload new_payload p p1 p2 p' :
  (∀ V, multiplicity V (referenced_variables new_payload) + indicator (old = Some V)
        = multiplicity V (referenced_variables old_payload) + indicator (new = Some V)) →
  successors new_payload = successors old_payload →
  if_nonnull old (users_remove this) p = Some p1 →
  if_nonnull new (users_append this) p1 = Some p2 →
  set_payload this new_payload p2 = Some p' →
  rewired p p' this old_payload new_payload.
Proof.
  intros Hbalance Hsuccessors H1 H2 Hset.
  destruct (relink_variable _ _ _ _ _ _ _ _ H1 H2 Hset)
    as (Hpayload & _ & Hprev & Husers & _ & Hdirectory).
  split_and!; [done| | | |done].
  - intros J I. specialize (Hprev J I). rewrite Hsuccessors. indicators.
  - intros V I. specialize (Husers V I). specialize (Hbalance V). indicators.
  - eapply same_variables_trans;
      [eapply if_nonnull_variables; [apply users_remove_variables|done]|].
    eapply same_variables_trans;
      [eapply if_nonnull_variables; [apply users_append_variables|done]|].
    by eapply set_payload_variables.
Qed.

Lemma rewired_trans p1 p2 p3 this payload1 payload2 payload3 :
  rewired p1 p2 this payload1 payload2 → rewired p2 p3 this payload2 payload3 →
  rewired p1 p3 this payload1 payload3.
Proof.
  intros (Hpayload & Hprev & Husers & Hvariables & Hdirectory)
         (Hpayload' & Hprev' & Husers' & Hvariables' & Hdirectory').
  split_and!.
  - intros X. rewrite Hpayload', Hpayload. by case_decide.
  - intros J I. specialize (Hprev J I). specialize (Hprev' J I). lia.
  - intros V I. specialize (Husers V I). specialize (Husers' V I). lia.
  - by eapply same_variables_trans.
  - by eapply same_directory_trans.
Qed.

Lemma rewired_refl p this payload_this :
  payload_of p this = Some payload_this → rewired p p this payload_this payload_this.
Proof.
  intros Hthis. split_and!; [|done..|apply same_variables_refl|apply same_directory_refl].
  intros X. case_decide; [by subst X | done].
Qed.

Ltac balance_slots :=
  intros ?; simpl;
  rewrite ?multiplicity_app, ?multiplicity_option_list, ?multiplicity_nil; indicators.

Lemma Call_set_param_variable_rewired this param_index variable p p' :
  MFCallInstruction_set_param_variable this param_index variable p = Some p' →
  ∃ old_payload,
    payload_of p this = Some old_payload ∧
    rewired p p' this old_payload
            (mutated_payload (Call_set_param_variable this param_index variable) old_payload).
Proof.
  unfold MFCallInstruction_set_param_variable.
  destruct (call_instruction p this) as [[[fn next] params]|] eqn:Hderef; [simpl|done].
  destruct (params !! param_index) as [old_variable|] eqn:Hold; [simpl|done].
  three_steps Hderef H1 H2 Hset.
  assert (if_nonnull variable (users_append this) p1 = Some p2) as H2'.
  { destruct variable as [target|]; [simpl in *|done].
    destruct (param_type fn param_index); [simpl in H2|done].
    destruct (variable_store p1 !! target); [simpl in H2|done].
    by case_decide. }
  exists (CallData fn next params). split; [by apply call_instruction_payload_of|].
  eapply relink_variable_rewired; [| |exact H1|exact H2'|exact Hset]; [|done].
  intros V. by apply multiplicity_omap_insert.
Qed.

Lemma apply_mutation_rewired_slot m p p' :
  (∀ this variables, m ≠ Call_set_params this variables) →
  apply_mutation m p = Some p' →
  ∃ old_payload,
    payload_of p (this_of m) = Some old_payload ∧
    rewired p p' (this_of m) old_payload (mutated_payload m old_payload).
Proof.
  intros Hslot. destruct m as [this instruction|this param_index variable|this variables
    |this variable|this instruction|this instruction|this variable|this instruction
    |this instruction]; simpl.
  - unfold MFCallInstruction_set_next.
    destruct (call_instruction p this) as [[[fn next] params]|] eqn:Hderef; [simpl|done].
    three_steps Hderef H1 H2 Hset.
    exists (CallData fn next params). split; [by apply call_instruction_payload_of|].
    eapply relink_successor_rewired; [| |exact H1|exact H2|exact Hset]; [balance_slots|done].
  - apply Call_set_param_variable_rewired.
  - by destruct (Hslot this variables).
  - unfold MFBranchInstruction_set_condition.
    destruct (branch_instruction p this) as [[[condition branch_true] branch_false]|]
      eqn:Hderef; [simpl|done].
    three_steps Hderef H1 H2 Hset.
    exists (BranchData condition branch_true branch_false).
    split; [by apply branch_instruction_payload_of|].
    eapply relink_variable_rewired; [| |exact H1|exact H2|exact Hset]; [balance_slots|done].
  - unfold MFBranchInstruction_set_branch_true.
    destruct (branch_instruction p this) as [[[condition branch_true] branch_false]|]
      eqn:Hderef; [simpl|done].
    three_steps Hderef H1 H2 Hset.
    exists (BranchData condition branch_true branch_false).
    split; [by apply branch_instruction_payload_of|].
    eapply relink_successor_rewired; [| |exact H1|exact H2|exact Hset]; [balance_slots|done].
  - unfold MFBranchInstruction_set_branch_false.
    destruct (branch_instruction p this) as [[[condition branch_true] branch_false]|]
      eqn:Hderef; [simpl|done].
    three_steps Hderef H1 H2 Hset.
    exists (BranchData condition branch_true branch_false).
    split; [by apply branch_instruction_payload_of|].
    eapply relink_successor_rewired; [| |exact H1|exact H2|exact Hset]; [balance_slots|done].
  - unfold MFDestructInstruction_set_variable.
    destruct (destruct_instruction p this) as [[old_variable next]|] eqn:Hderef;
      [simpl|done].
    three_steps Hderef H1 H2 Hset.
    exists (DestructData old_variable next).
    split; [by apply destruct_instruction_payload_of|].
    eapply relink_variable_rewired; [| |exact H1|exact H2|exact Hset]; [balance_slots|done].
  - unfold MFDestructInstruction_set_next.
    destruct (destruct_instruction p this) as [[variable next]|] eqn:Hderef; [simpl|done].
    three_steps Hderef H1 H2 Hset.
    exists (DestructData variable next).
    split; [by apply destruct_instruction_payload_of|].
    eapply relink_successor_rewired; [| |exact H1|exact H2|exact Hset]; [balance_slots|done].
  - unfold MFDummyInstruction_set_next.
    destruct (dummy_instruction p this) as [next|] eqn:Hderef; [simpl|done].
    three_steps Hderef H1 H2 Hset.
    exists (DummyData next). split; [by apply dummy_instruction_payload_of|].
    eapply relink_successor_rewired; [| |exact H1|exact H2|exact Hset]; [balance_slots|done].
Qed.

Lemma rewired_payload p p' this old_payload new_payload :
  rewired p p' this old_payload new_payload → payload_of p' this = Some new_payload.
Proof. intros (Hpayload & _). rewrite Hpayload. by rewrite decide_True. Qed.

Lemma set_params_from_rewired this variables fn next index len p p' params :
  payload_of p this = Some (CallData fn next params) →
  length params = length variables → index + len = length variables →
  take index params = take index variables →
  set_params_from this variables (seq index len) p = Some p' →
  rewired p p' this (CallData fn next params) (CallData fn next variables).
Proof.
  revert index p params. induction len as [|len IH]; intros index p params Hthis Hlen Hend Hdone.
  { simpl. intros [= <-]. rewrite !take_ge in Hdone by lia. subst params.
    by apply rewired_refl. }
  simpl. destruct (variables !! index) as [variable|] eqn:Hvariable; [simpl|done].
  destruct (MFCallInstruction_set_param_variable this index variable p) as [p1|] eqn:Hstep;
    [simpl|done].
  intros Hrest.
  apply Call_set_param_variable_rewired in Hstep as (old_payload & Hold & Hstep).
  rewrite Hthis in Hold. injection Hold as <-. simpl in Hstep.
  eapply rewired_trans; [done|].
  apply (IH (S index)); [by eapply rewired_payload|by rewrite length_insert|lia| |done].
  rewrite (take_S_r variables index variable) by done.
  rewrite (take_S_r (<[index:=variable]> params) index variable)
    by (apply list_lookup_insert_eq; lia).
  by rewrite take_insert_ge, Hdone by lia.
Qed.

Lemma apply_mutation_rewired m p p' :
  apply_mutation m p = Some p' →
  ∃ old_payload,
    payload_of p (this_of m) = Some old_payload ∧
    rewired p p' (this_of m) old_payload (mutated_payload m old_payload).
Proof.
  destruct m as [| |this variables| | | | | |];
    try (apply apply_mutation_rewired_slot; by intros ? ?).
  simpl. unfold MFCallInstruction_set_params.
  destruct (call_instruction p this) as [[[fn next] params]|] eqn:Hderef; [simpl|done].
  apply call_instruction_payload_of in Hderef.
  case_decide; [|done]. intros Hrun.
  exists (CallData fn next params). split; [done|].
  by apply (set_params_from_rewired this variables fn next 0 (length variables)).
Qed.

Lemma mutated_payload_type m old_payload :
  payload_type (mutated_payload m old_payload) = payload_type old_payload.
Proof. by destruct m, old_payload. Qed.

Lemma mutated_payload_override m1 m2 old_payload :
  same_slot m1 m2 →
  mutated_payload m2 (mutated_payload m1 old_payload) = mutated_payload m2 old_payload.
Proof.
  destruct m1, m2, old_payload; simpl; try done.
  intros [_ ->]. by rewrite list_insert_insert_eq.
Qed.

Lemma same_slot_this m1 m2 : same_slot m1 m2 → this_of m1 = this_of m2.
Proof. destruct m1, m2; simpl; try done. by intros [? _]. Qed.

Lemma same_variables_types p p' :
  same_variables p p' →
  ∀ V, data_type_ <$> variable_store p' !! V = data_type_ <$> variable_store p !! V.
Proof.
  intros Hsame V. specialize (Hsame V).
  destruct (variable_store p' !! V), (variable_store p !! V); simplify_eq/=; congruence.
Qed.

Lemma same_variables_sym p p' : same_variables p p' → same_variables p' p.
Proof. intros Hsame V. by rewrite Hsame. Qed.

Lemma same_directory_sym p p' : same_directory p p' → same_directory p' p.
Proof. unfold same_directory. intros (? & ? & ? & ? & ? & ? & ? & ?). by split_and!. Qed.

(** Two procedures that come from the same procedure by rewirings with the
    same sums. *)
Lemma same_up_to_order_intro p q q' :
  (∀ X, payload_of q' X = payload_of q X) →
  (∀ J I, prev_count q' J I = prev_count q J I) →
  (∀ V I, users_count q' V I = users_count q V I) →
  same_variables p q → same_variables p q' →
  same_directory p q → same_directory p q' →
  same_up_to_order q q'.
Proof.
  intros Hpayload Hprev Husers Hvariables Hvariables' Hdirectory Hdirectory'.
  assert (same_variables q q') as Hsame.
  { eapply same_variables_trans; [by apply same_variables_sym|done]. }
  split_and!; [done|done| |].
  - eapply same_directory_trans; [by apply same_directory_sym|done].
  - apply same_counts_same_multisets. split_and!; [|by apply same_variables_types|done..].
    intros X. by rewrite Hpayload.
Qed.

(** X2. An edge mutation with fitting arguments on a procedure that keeps
    the invariants is defined, that is, no assertion fails and no dangling
    pointer is followed, and the procedure it gives keeps the invariants
    again. *)
Theorem edge_mutation_safe m p :
  sound p → applicable p m →
  ∃ p', apply_mutation m p = Some p' ∧ sound p'.
Proof.
  intros Hsound Happlicable.
  destruct (edge_mutation_succeeds m p) as [p' Hrun]; [by destruct Hsound..|done|].
  exists p'. split; [done|]. by eapply apply_mutation_sound.
Qed.

Lemma edge_mutation_safe_witness :
  ∃ p', apply_mutation (Call_set_next 0 (Some 2)) example_identity = Some p' ∧ sound p'.
Proof.
  apply (edge_mutation_safe (Call_set_next 0 (Some 2)) example_identity).
  - apply constructed_sound, example_identity_constructed.
  - split; [vm_compute; eauto|]. intros target [= <-]. vm_compute. eauto.
Defined.

(** X3. What an edge mutation leaves alone.  It sets the members of [this]
    as the setter says.  The members of every other instruction stay, and so
    do the occurrences of every other instruction in the [prev_] and [users_]
    vectors, the data types, names and identifiers of the variables, the
    vectors of the procedure, its parameters and its entry; no object is
    created or freed. *)
Theorem edge_mutation_frame m p p' :
  apply_mutation m p = Some p' →
  (∃ old_payload,
     payload_of p (this_of m) = Some old_payload ∧
     payload_of p' (this_of m) = Some (mutated_payload m old_payload)) ∧
  (∀ X, X ≠ this_of m → payload_of p' X = payload_of p X) ∧
  (∀ J I, I ≠ this_of m → prev_count p' J I = prev_count p J I) ∧
  (∀ V I, I ≠ this_of m → users_count p' V I = users_count p V I) ∧
  same_variables p p' ∧ same_directory p p'.
Proof.
  intros (old_payload & Hold & Hrewired)%apply_mutation_rewired.
  pose proof (rewired_payload _ _ _ _ _ Hrewired) as Hnew.
  destruct Hrewired as (Hpayload & Hprev & Husers & Hvariables & Hdirectory).
  split_and!; [by exists old_payload| | | |done..].
  - intros X ?. rewrite Hpayload. by rewrite decide_False.
  - intros J I ?. specialize (Hprev J I). indicators.
  - intros V I ?. specialize (Husers V I). indicators.
Qed.

Lemma edge_mutation_frame_witness :
  ∃ p',
    apply_mutation (Destruct_set_next 1 None) example_identity = Some p' ∧
    (∃ old_payload,
       payload_of example_identity 1 = Some old_payload ∧
       payload_of p' 1 = Some (mutated_payload (Destruct_set_next 1 None) old_payload)) ∧
    (∀ X, X ≠ 1 → payload_of p' X = payload_of example_identity X) ∧
    (∀ J I, I ≠ 1 → prev_count p' J I = prev_count example_identity J I) ∧
    (∀ V I, I ≠ 1 → users_count p' V I = users_count example_identity V I) ∧
    same_variables example_identity p' ∧ same_directory example_identity p'.
Proof.
  eexists. split; [vm_compute; reflexivity|].
  apply (edge_mutation_frame (Destruct_set_next 1 None) example_identity).
  vm_compute. reflexivity.
Defined.

(** X4. Setting a slot twice is setting it once: when a setter is called on
    a slot and then again, the procedure is the one that the second call
    alone gives, up to the order within the [prev_] and [users_] vectors.
    [set_params] after [set_param_variable] on the same call counts as the
    same slot. *)
Theorem edge_mutation_override m1 m2 p p1 p2 p2' :
  same_slot m1 m2 →
  apply_mutation m1 p = Some p1 → apply_mutation m2 p1 = Some p2 →
  apply_mutation m2 p = Some p2' →
  same_up_to_order p2' p2.
Proof.
  intros Hslot (payload0 & Hpayload0 & Hfirst)%apply_mutation_rewired
         (payload1 & Hpayload1 & Hsecond)%apply_mutation_rewired
         (payload0' & Hpayload0' & Honce)%apply_mutation_rewired.
  rewrite <-(same_slot_this m1 m2 Hslot) in Hpayload1, Hsecond, Hpayload0', Honce.
  rewrite (rewired_payload _ _ _ _ _ Hfirst) in Hpayload1. injection Hpayload1 as <-.
  rewrite Hpayload0 in Hpayload0'. injection Hpayload0' as <-.
  rewrite mutated_payload_override in Hsecond by done.
  pose proof (rewired_trans _ _ _ _ _ _ _ Hfirst Hsecond) as Htwice.
  destruct Htwice as (Hpayload & Hprev & Husers & Hvariables & Hdirectory).
  destruct Honce as (Hpayload' & Hprev' & Husers' & Hvariables' & Hdirectory').
  apply (same_up_to_order_intro p); try done.
  - intros X. by rewrite Hpayload, Hpayload'.
  - intros J I. specialize (Hprev J I). specialize (Hprev' J I). lia.
  - intros V I. specialize (Husers V I). specialize (Husers' V I). lia.
Qed.

Lemma edge_mutation_override_witness :
  ∃ p1 p2 p2',
    apply_mutation (Call_set_next 0 (Some 2)) example_identity = Some p1 ∧
    apply_mutation (Call_set_next 0 (Some 0)) p1 = Some p2 ∧
    apply_mutation (Call_set_next 0 (Some 0)) example_identity = Some p2' ∧
    same_up_to_order p2' p2.
Proof.
  eexists _, _, _. split_and!; [vm_compute; reflexivity..|].
  eapply (edge_mutation_override (Call_set_next 0 (Some 2)) (Call_set_next 0 (Some 0))
            example_identity); [reflexivity | vm_compute; reflexivity..].
Defined.

(** X5. Setters on two different instructions can be called in either
    order: the two procedures are the same up to the order within the
    [prev_] and [users_] vectors. *)
Theorem edge_mutations_commute m1 m2 p p1 p2 q1 q2 :
  this_of m1 ≠ this_of m2 →
  apply_mutation m1 p = Some p1 → apply_mutation m2 p1 = Some p2 →
  apply_mutation m2 p = Some q1 → apply_mutation m1 q1 = Some q2 →
  same_up_to_order p2 q2.
Proof.
  intros Hdifferent (payload1 & Hpayload1 & Hp1)%apply_mutation_rewired
         (payload2 & Hpayload2 & Hp2)%apply_mutation_rewired
         (payload2' & Hpayload2' & Hq1)%apply_mutation_rewired
         (payload1' & Hpayload1' & Hq2)%apply_mutation_rewired.
  destruct Hp1 as (Hpay_p1 & Hprev_p1 & Husers_p1 & Hvar_p1 & Hdir_p1).
  destruct Hq1 as (Hpay_q1 & Hprev_q1 & Husers_q1 & Hvar_q1 & Hdir_q1).
  rewrite Hpay_p1, decide_False, Hpayload2' in Hpayload2 by done.
  injection Hpayload2 as <-.
  rewrite Hpay_q1, decide_False, Hpayload1 in Hpayload1' by done.
  injection Hpayload1' as <-.
  destruct Hp2 as (Hpay_p2 & Hprev_p2 & Husers_p2 & Hvar_p2 & Hdir_p2).
  destruct Hq2 as (Hpay_q2 & Hprev_q2 & Husers_q2 & Hvar_q2 & Hdir_q2).
  apply (same_up_to_order_intro p).
  - intros X. rewrite Hpay_q2, Hpay_q1, Hpay_p2, Hpay_p1.
    repeat case_decide; by simplify_eq.
  - intros J I. specialize (Hprev_p1 J I). specialize (Hprev_p2 J I).
    specialize (Hprev_q1 J I). specialize (Hprev_q2 J I). lia.
  - intros V I. specialize (Husers_p1 V I). specialize (Husers_p2 V I).
    specialize (Husers_q1 V I). specialize (Husers_q2 V I). lia.
  - exact (same_variables_trans _ _ _ Hvar_p1 Hvar_p2).
  - exact (same_variables_trans _ _ _ Hvar_q1 Hvar_q2).
  - exact (same_directory_trans _ _ _ Hdir_p1 Hdir_p2).
  - exact (same_directory_trans _ _ _ Hdir_q1 Hdir_q2).
Qed.

Lemma edge_mutations_commute_witness :
  ∃ p1 p2 q1 q2,
    apply_mutation (Call_set_next 0 (Some 2)) example_identity = Some p1 ∧
    apply_mutation (Destruct_set_next 1 (Some 0)) p1 = Some p2 ∧
    apply_mutation (Destruct_set_next 1 (Some 0)) example_identity = Some q1 ∧
    apply_mutation (Call_set_next 0 (Some 2)) q1 = Some q2 ∧
    same_up_to_order p2 q2.
Proof.
  eexists _, _, _, _. split_and!; [vm_compute; reflexivity..|].
  eapply (edge_mutations_commute (Call_set_next 0 (Some 2)) (Destruct_set_next 1 (Some 0))
            example_identity); [simpl; lia | vm_compute; reflexivity..].
Defined.

(** ** The directory of a procedure *)

Lemma elem_of_all_instructions p a :
  a ∈ all_instructions p ↔ ∃ class, a ∈ instructions_of_type p class.
Proof.
  unfold all_instructions. rewrite !elem_of_app. split.
  - intros [?|[?|[?|[?|?]]]];
      [by exists Call | by exists Branch | by exists Destruct | by exists Dummy
      | by exists Return].
  - intros [[] ?]; simpl in *; tauto.
Qed.

Lemma instructions_of_type_live p class a :
  well_formed p → a ∈ instructions_of_type p class →
  ∃ object, instructions p !! a = Some object ∧ type_ object = class.
Proof.
  intros Hwf%well_formed_alt Ha.
  assert (payload_type <$> payload_of p a = Some class) as Hclass.
  { destruct Hwf as (? & ? & ? & ? & ? & _). destruct class; simpl in Ha; auto. }
  unfold payload_of in Hclass. destruct (instructions p !! a) as [object|]; [|done].
  exists object. split; [done|]. by injection Hclass.
Qed.

Lemma registered_empty : registered empty_procedure.
Proof.
  split; simpl.
  - intros a object Ha. by simplify_map_eq.
  - constructor.
  - intros v [? Hv]. by simplify_map_eq.
  - by intros [|?] v.
Qed.

Lemma registered_new_variable data_type name p :
  registered p → registered (new_variable data_type name p).2.
Proof.
  intros [Hinstructions Honce Hvariables Hids].
  pose proof (allocate_fresh (variable_store p)) as Hfresh.
  split; simpl; [done..| |].
  - intros v. rewrite lookup_insert. case_decide as Hv.
    + subst v. intros _. apply elem_of_app. right. by left.
    + intros ?. apply elem_of_app. left. by apply Hvariables.
  - intros i v [[_ Hi]|[-> <-]]%lookup_snoc_Some.
    + destruct (Hids i v Hi) as (object & Hv & ?). exists object. split; [|done].
      rewrite lookup_insert_ne; [done|]. intros <-. congruence.
    + eexists. split; [by rewrite lookup_insert_eq|done].
Qed.

Lemma new_instruction_all_instructions new_payload p :
  all_instructions (new_instruction new_payload p).2
  ≡ₚ allocate (instructions p) :: all_instructions p.
Proof.
  unfold all_instructions.
  destruct (new_instruction_vectors new_payload p) as (-> & -> & -> & -> & ->).
  destruct new_payload; simpl; solve_Permutation.
Qed.

Lemma new_instruction_of_type new_payload p class a :
  a ∈ instructions_of_type (new_instruction new_payload p).2 class ↔
  a ∈ instructions_of_type p class ∨
  a = allocate (instructions p) ∧ payload_type new_payload = class.
Proof.
  destruct class; simpl; unfold type_; simpl;
    (case_decide; [rewrite elem_of_app, list_elem_of_singleton|]); naive_solver.
Qed.

Lemma registered_new_instruction new_payload p :
  well_formed p → registered p → registered (new_instruction new_payload p).2.
Proof.
  intros Hwf [Hinstructions Honce Hvariables Hids].
  pose proof (allocate_fresh (instructions p)) as Hfresh.
  split; [| |done..].
  - intros a object. simpl. rewrite lookup_insert. case_decide as Ha.
    + subst a. intros [= <-]. apply new_instruction_of_type. by right.
    + intros ?. apply new_instruction_of_type. left. by apply Hinstructions.
  - rewrite new_instruction_all_instructions. apply NoDup_cons. split; [|done].
    intros (class & Hin)%elem_of_all_instructions.
    destruct (instructions_of_type_live p class _ Hwf Hin) as (? & ? & _). congruence.
Qed.

Lemma registered_mutation m p p' :
  apply_mutation m p = Some p' → registered p → registered p'.
Proof.
  intros (old_payload & Hold & Hpayload & _ & _ & Hvariables & Hdirectory)%apply_mutation_rewired
         [Hinstructions Honce Hvariables' Hids].
  assert (∀ class, instructions_of_type p' class = instructions_of_type p class) as Hclass.
  { destruct Hdirectory as (? & ? & ? & ? & ? & _). by intros []. }
  assert (variables_ p' = variables_ p) as Hlist
    by by destruct Hdirectory as (_ & _ & _ & _ & _ & ? & _).
  split.
  - intros a object' Ha. rewrite Hclass.
    assert (payload_of p' a = Some (payload object')) as Hpayload'
      by (unfold payload_of; by rewrite Ha).
    rewrite Hpayload in Hpayload'. unfold type_. case_decide as Hthis.
    + subst a. injection Hpayload' as <-. rewrite mutated_payload_type.
      unfold payload_of in Hold.
      destruct (instructions p !! this_of m) as [object|] eqn:Hobject; [|done].
      injection Hold as <-. by apply Hinstructions.
    + unfold payload_of in Hpayload'.
      destruct (instructions p !! a) as [object|] eqn:Hobject; [|done].
      injection Hpayload' as <-. by apply Hinstructions.
  - unfold all_instructions in *. destruct Hdirectory as (-> & -> & -> & -> & -> & _). done.
  - intros v Hv. rewrite Hlist. apply Hvariables'.
    by apply (store_live_iff _ _ (same_variables_types _ _ Hvariables)).
  - intros i v Hi. rewrite Hlist in Hi. destruct (Hids i v Hi) as (object & Hv & Hid).
    specialize (Hvariables v). rewrite Hv in Hvariables.
    destruct (variable_store p' !! v) as [object'|]; [|done].
    exists object'. split; [done|]. simpl in Hvariables. by simplify_eq.
Qed.

Lemma constructed_registered p : constructed p → registered p.
Proof.
  induction 1 as [|data_type name p _ IH|fn p Hp IH|p Hp IH|p Hp IH|p Hp IH|p Hp IH
                 |interface_type variable p _ IH|entry p _ IH|m p p' _ IH Hrun].
  - apply registered_empty.
  - by apply registered_new_variable.
  - by apply registered_new_instruction; [apply constructed_sound|].
  - by apply registered_new_instruction; [apply constructed_sound|].
  - by apply registered_new_instruction; [apply constructed_sound|].
  - by apply registered_new_instruction; [apply constructed_sound|].
  - by apply registered_new_instruction; [apply constructed_sound|].
  - by destruct IH.
  - by destruct IH.
  - by eapply registered_mutation.
Qed.

(** X6. In a procedure built with the builder and the setters, the
    variable at position [i] of [variables_] has the identifier [i], and a
    variable with the identifier [i] is at position [i]: the identifiers are
    the numbers from 0 in the order of creation, without gaps and without
    repetition. *)
Theorem variable_ids_dense p i v :
  constructed p →
  variables_ p !! i = Some v ↔
  ∃ object, variable_store p !! v = Some object ∧ id_ object = i.
Proof.
  intros [_ _ Hvariables Hids]%constructed_registered. split; [by apply Hids|].
  intros (object & Hv & Hid).
  destruct (proj1 (list_elem_of_lookup (variables_ p) v)) as [j Hj];
    [apply Hvariables; by eexists|].
  destruct (Hids j v Hj) as (object' & Hv' & Hid'). by simplify_eq.
Qed.

Lemma variable_ids_dense_witness :
  variables_ example_identity !! 1 = Some 1 ↔
  ∃ object, variable_store example_identity !! 1 = Some object ∧ id_ object = 1.
Proof.
  apply (variable_ids_dense example_identity 1 1). apply example_identity_constructed.
Defined.

(** X7. In a procedure built with the builder and the setters, the five
    vectors of instructions list exactly the instructions of the arena, each
    one once and in the vector of its class. *)
Theorem instructions_registered p :
  constructed p →
  NoDup (all_instructions p) ∧
  ∀ class a,
    a ∈ instructions_of_type p class ↔
    ∃ object, instructions p !! a = Some object ∧ type_ object = class.
Proof.
  intros Hconstructed.
  pose proof (constructed_registered p Hconstructed) as [Hinstructions Honce _ _].
  pose proof (constructed_sound p Hconstructed) as [Hwf _ _ _ _].
  split; [done|]. intros class a. split.
  - by apply instructions_of_type_live.
  - intros (object & Ha & <-). by apply Hinstructions.
Qed.

Lemma instructions_registered_witness :
  NoDup (all_instructions example_diamond) ∧
  ∀ class a,
    a ∈ instructions_of_type example_diamond class ↔
    ∃ object, instructions example_diamond !! a = Some object ∧ type_ object = class.
Proof. apply (instructions_registered example_diamond), example_diamond_constructed. Defined.

(** X8. Every call of the builder keeps the invariants: after
    [new_variable], one of the five [new_*_instruction] functions,
    [add_parameter], [set_entry] or a setter that is defined, the arena is
    well-formed again, the [prev_] and [users_] vectors mirror the slots, no
    pointer dangles, and every object is in the vector of its class. *)
Theorem builder_call_keeps_invariants call p p' :
  sound p → registered p → builder_call call p = Some p' →
  sound p' ∧ registered p'.
Proof.
  intros Hsound Hregistered Hcall. pose proof Hsound as [Hwf _ _ _ _].
  destruct call as [data_type name|fn| | | | |interface_type variable|entry|m];
    simpl in Hcall; try injection Hcall as <-.
  - split; [by apply sound_new_variable | by apply registered_new_variable].
  - split; [|by apply registered_new_instruction].
    apply sound_new_instruction; [done| |by intros ? ? ? [= <- _ <-];
                                             rewrite length_replicate|done].
    simpl. induction (param_amount fn) as [|n IHn]; [done|]. simpl. apply IHn.
  - split; [by apply sound_new_instruction | by apply registered_new_instruction].
  - split; [by apply sound_new_instruction | by apply registered_new_instruction].
  - split; [by apply sound_new_instruction | by apply registered_new_instruction].
  - split; [by apply sound_new_instruction | by apply registered_new_instruction].
  - split; [by apply sound_add_parameter | by destruct Hregistered].
  - split; [by apply sound_set_entry | by destruct Hregistered].
  - split; [by eapply apply_mutation_sound | by eapply registered_mutation].
Qed.

Lemma builder_call_keeps_invariants_witness :
  sound (new_call_instruction example_G example_identity).2 ∧
  registered (new_call_instruction example_G example_identity).2.
Proof.
  apply (builder_call_keeps_invariants (NewCallInstruction example_G) example_identity).
  - apply constructed_sound, example_identity_constructed.
  - apply constructed_registered, example_identity_constructed.
  - reflexivity.
Defined.
(** ** What the initialization analysis finds *)

Lemma caller_initialized_variable_spec p target :
  caller_initialized_variable p target = true ↔ caller_initialized p target.
Proof.
  rewrite caller_initialized_variable_true. unfold caller_initialized, listed_with. split.
  - intros ([role v] & Hin & Hv & Hrole). simpl in *. subst v.
    apply elem_of_cons in Hrole as [->|[->|[]%elem_of_nil]%elem_of_cons]; auto.
  - intros [H|H]; eexists; (split; [exact H|]); simpl; set_solver.
Qed.

Lemma check_entry_instruction_bits p target state :
  let state' := check_entry_instruction p target state in
  (caller_initialized p target → can_be_initialized state' = true) ∧
  (¬ caller_initialized p target → can_be_uninitialized state' = true) ∧
  (can_be_initialized state' = true →
     can_be_initialized state = true ∨ caller_initialized p target) ∧
  (can_be_uninitialized state' = true →
     can_be_uninitialized state = true ∨ ¬ caller_initialized p target).
Proof.
  unfold check_entry_instruction.
  destruct (caller_initialized_variable p target) eqn:Hcaller; simpl.
  - apply caller_initialized_variable_spec in Hcaller. tauto.
  - assert (¬ caller_initialized p target) as Hnot.
    { intros ?%caller_initialized_variable_spec. congruence. }
    tauto.
Qed.

Lemma writes_output_not_destructs object target :
  writes_output object target → destructs object target → False.
Proof. intros (? & ? & ? & ? & ? & ? & _) [? ?]. congruence. Qed.

Section search_exact.
Context (p : MFProcedure) (target_instruction : InstrPtr) (target : VarPtr).
Hypothesis Hwf : well_formed p.

#[local] Abbreviation Inv := (search_invariant p target_instruction target).

Lemma search_invariant_skip checked top rest state :
  Inv checked (top :: rest) state → top ∈ checked → Inv checked rest state.
Proof.
  intros [Hexposed Hinit Huninit Hchecked Hfirst Hentry] Htop.
  split; try done.
  - intros x [?|?]; apply Hexposed; [by left | right; by right].
  - intros x Hx. destruct (Hchecked x Hx) as (object & ? & ? & ? & Htransparent).
    exists object. split_and!; try done. intros [? Hprev]%Htransparent. split; [done|].
    intros y [?|[->|?]%elem_of_cons]%Hprev; auto.
  - intros object y ? [?|[->|?]%elem_of_cons]%(Hfirst object y); auto.
Qed.

Lemma search_invariant_modified checked top rest state state' object :
  Inv checked (top :: rest) state →
  instructions p !! top = Some object →
  (writes_output object target ∧ state' = set_can_be_initialized state) ∨
  (destructs object target ∧ state' = set_can_be_uninitialized state) →
  Inv ({[top]} ∪ checked) rest state'.
Proof.
  intros [Hexposed Hinit Huninit Hchecked Hfirst Hentry] Hobject Hcase.
  assert (exposed p target_instruction target top) as Htop by (apply Hexposed; right; by left).
  assert ((can_be_initialized state = true → can_be_initialized state' = true) ∧
          (can_be_uninitialized state = true → can_be_uninitialized state' = true))
    as [Hmono Hmono'] by by destruct Hcase as [[_ ->]|[_ ->]].
  split.
  - intros x [[->%elem_of_singleton|?]%elem_of_union|?]; [done|..];
      apply Hexposed; [by left | right; by right].
  - destruct Hcase as [[? ->]|[_ ->]]; [|done]. intros _. left. by exists top, object.
  - destruct Hcase as [[_ ->]|[? ->]]; [done|]. intros _. left. by exists top, object.
  - intros x [->%elem_of_singleton|Hx]%elem_of_union.
    + exists object. split; [done|].
      destruct Hcase as [[Hwrites ->]|[Hdestructs ->]].
      * split_and!; [done|by intros ?%(writes_output_not_destructs object target)|].
        by intros [? _].
      * split_and!; [by intros ?%(writes_output_not_destructs object target)|done|].
        by intros [_ ?].
    + destruct (Hchecked x Hx) as (object' & ? & ? & ? & Htransparent).
      exists object'. split_and!; [done|by auto..|].
      intros [Hrecorded Hprev]%Htransparent. split.
      * intros [? ?]%Hrecorded. split; auto.
      * intros y [?|[->|?]%elem_of_cons]%Hprev; [left| left | by right]; set_solver.
  - intros object' y ? [?|[->|?]%elem_of_cons]%(Hfirst object' y);
      [left| left | by right | done]; set_solver.
  - intros [? ?]%Hentry. split; auto.
Qed.

Lemma search_invariant_unmodified checked top rest state object :
  Inv checked (top :: rest) state →
  instructions p !! top = Some object → transparent object target →
  Inv ({[top]} ∪ checked) (push_multiple (prev_ object) rest)
      (if decide (entry_ p = Some top)
       then check_entry_instruction p target state else state).
Proof.
  intros [Hexposed Hinit Huninit Hchecked Hfirst Hentry] Hobject Htransparent.
  assert (exposed p target_instruction target top) as Htop by (apply Hexposed; right; by left).
  set (state' := if decide (entry_ p = Some top)
                 then check_entry_instruction p target state else state).
  destruct (check_entry_instruction_bits p target state) as (Hyes & Hno & Hinit' & Huninit').
  assert ((can_be_initialized state = true → can_be_initialized state' = true) ∧
          (can_be_uninitialized state = true → can_be_uninitialized state' = true))
    as [Hmono Hmono'].
  { unfold state'. case_decide; [|done]. apply check_entry_instruction_monotone. }
  assert (entry_ p = Some top → entry_exposed p target_instruction target) as Hreached.
  { intros ?. right. by exists top, object. }
  split.
  - intros x [[->%elem_of_singleton|?]%elem_of_union|[Hx|?]%elem_of_push_multiple];
      [done|apply Hexposed; by left| |apply Hexposed; right; by right].
    destruct Htop as (object_target & first & ? & ? & Hpath).
    exists object_target, first. split_and!; [done..|].
    eapply rtc_r; [done|]. by exists object.
  - unfold state'. case_decide; [|done].
    intros [?|?]%Hinit'; [by auto|]. right. by auto.
  - unfold state'. case_decide; [|done].
    intros [?|?]%Huninit'; [by auto|]. right. by auto.
  - intros x [->%elem_of_singleton|Hx]%elem_of_union.
    + exists object. destruct Htransparent as [? ?]. split_and!; [done..|]. intros _. split.
      * intros ?. unfold state'. by rewrite decide_True.
      * intros y ?. right. apply elem_of_push_multiple. by left.
    + destruct (Hchecked x Hx) as (object' & ? & ? & ? & Htransparent').
      exists object'. split_and!; [done|by auto..|].
      intros [Hrecorded Hprev]%Htransparent'. split.
      * intros [? ?]%Hrecorded. split; auto.
      * intros y [?|[->|?]%elem_of_cons]%Hprev; [left; set_solver|left; set_solver|].
        right. apply elem_of_push_multiple. by right.
  - intros object' y ? [?|[->|?]%elem_of_cons]%(Hfirst object' y);
      [left; set_solver|left; set_solver| |done].
    right. apply elem_of_push_multiple. by right.
  - intros [? ?]%Hentry. split; auto.
Qed.

Lemma search_invariant_end fuel checked stack state result :
  Inv checked stack state →
  search fuel p target checked stack state = Some result →
  ∃ checked', Inv checked' [] result.
Proof.
  revert checked stack state.
  induction fuel as [|fuel IH]; intros checked stack state Hinv Hsearch; [done|].
  destruct stack as [|top stack]; [simpl in Hsearch; simplify_eq; by exists checked|].
  rewrite search_unfold in Hsearch.
  destruct (decide (top ∈ checked)) as [Hin|Hnotin].
  { eapply IH; [|done]. by eapply search_invariant_skip. }
  destruct (instructions p !! top) as [object|] eqn:Hobject; [simpl in Hsearch|done].
  destruct (examine_instruction object target state) as [[state' modified]|] eqn:Hexamine;
    [simpl in Hsearch|done].
  apply examine_instruction_inv in Hexamine
    as [(-> & ? & ->)|[(-> & ? & ->)|(-> & ? & ->)]];
    [| | |by intros fn next params; apply (wf_params p Hwf top)].
  - eapply IH; [|done]. eapply search_invariant_modified; [done..|]. by left.
  - eapply IH; [|done]. eapply search_invariant_modified; [done..|]. by right.
  - eapply IH; [|done]. by eapply search_invariant_unmodified.
Qed.

Lemma search_logged_invariant_end fuel checked stack state log result :
  Inv checked stack state →
  (∀ x, x ∈ checked ↔ x ∈ examined log) →
  search_logged fuel p target checked stack state log = Some result →
  ∃ checked', Inv checked' [] result.1 ∧ ∀ x, x ∈ checked' ↔ x ∈ examined result.2.
Proof.
  revert checked stack state log.
  induction fuel as [|fuel IH]; intros checked stack state log Hinv Hlog Hsearch; [done|].
  simpl in Hsearch.
  destruct stack as [|top stack]; [injection Hsearch as <-; by exists checked|].
  destruct (decide (top ∈ checked)) as [Hin|Hnotin].
  { eapply IH; [|exact Hlog|exact Hsearch]. by eapply search_invariant_skip. }
  destruct (instructions p !! top) as [object|] eqn:Hobject; [simpl in Hsearch|done].
  destruct (examine_instruction object target state) as [[state' modified]|] eqn:Hexamine;
    [simpl in Hsearch|done].
  assert (∀ x, x ∈ {[top]} ∪ checked ↔ x ∈ examined (log_examined top log)) as Hlog'.
  { intros x. simpl. rewrite elem_of_union, elem_of_singleton, elem_of_app,
      list_elem_of_singleton, Hlog. tauto. }
  apply examine_instruction_inv in Hexamine
    as [(-> & ? & ->)|[(-> & ? & ->)|(-> & ? & ->)]];
    [| | |by intros fn next params; apply (wf_params p Hwf top)].
  - eapply IH; [|exact Hlog'|exact Hsearch].
    eapply search_invariant_modified; [done..|]. by left.
  - eapply IH; [|exact Hlog'|exact Hsearch].
    eapply search_invariant_modified; [done..|]. by right.
  - eapply IH; [| |exact Hsearch]; [by eapply search_invariant_unmodified|exact Hlog'].
Qed.

Lemma search_invariant_closed checked state x :
  Inv checked [] state → exposed p target_instruction target x → x ∈ checked.
Proof.
  intros [_ _ _ Hchecked Hfirst _] (object & first & Hobject & Hin & Hpath).
  revert x Hpath. apply rtc_ind_r.
  - destruct (Hfirst object first Hobject Hin) as [?|[]%elem_of_nil]. done.
  - intros a b _ (object_a & Ha & Htransparent & Hb) Hchecked_a.
    destruct (Hchecked a Hchecked_a) as (object_a' & Ha' & _ & _ & Hprev). simplify_eq.
    destruct (Hprev Htransparent) as [_ Hprev'].
    destruct (Hprev' b Hb) as [?|[]%elem_of_nil]. done.
Qed.

Lemma search_invariant_result checked state :
  Inv checked [] state →
  (can_be_initialized state = true ↔ may_be_initialized p target_instruction target) ∧
  (can_be_uninitialized state = true ↔ may_be_uninitialized p target_instruction target).
Proof.
  intros Hinv. pose proof (search_invariant_closed checked state) as Hclosed.
  pose proof Hinv as [_ Hinit Huninit Hchecked _ Hentry].
  assert (entry_exposed p target_instruction target →
          (caller_initialized p target → can_be_initialized state = true) ∧
          (¬ caller_initialized p target → can_be_uninitialized state = true)) as Hreached.
  { intros [?|(entry & object & ? & Hexposed & Hobject & Htransparent)]; [by apply Hentry|].
    destruct (Hchecked entry) as (object' & ? & _ & _ & Hrecorded); [by apply Hclosed|].
    simplify_eq. destruct (Hrecorded Htransparent) as [Hrecorded' _]. by apply Hrecorded'. }
  split; (split; [done|]).
  - intros [(x & object & Hexposed & Hobject & ?)|[? ?]]; [|by apply Hreached].
    destruct (Hchecked x) as (object' & ? & Hwrites & _); [by apply Hclosed|].
    simplify_eq. by apply Hwrites.
  - intros [(x & object & Hexposed & Hobject & ?)|[? ?]]; [|by apply Hreached].
    destruct (Hchecked x) as (object' & ? & _ & Hdestructs & _); [by apply Hclosed|].
    simplify_eq. by apply Hdestructs.
Qed.

End search_exact.

Lemma search_invariant_begin p target_instruction target object :
  instructions p !! target_instruction = Some object →
  search_invariant p target_instruction target ∅ (push_multiple (prev_ object) [])
    (if decide (entry_ p = Some target_instruction)
     then check_entry_instruction p target InitState_default else InitState_default).
Proof.
  intros Hobject.
  destruct (check_entry_instruction_bits p target InitState_default)
    as (Hyes & Hno & Hinit & Huninit).
  split.
  - intros x [[]%elem_of_empty|[Hx|[]%elem_of_nil]%elem_of_push_multiple].
    by exists object, x.
  - case_decide; [|done]. intros [?|?]%Hinit; [done|]. right. split; [by left | done].
  - case_decide; [|done]. intros [?|?]%Huninit; [done|]. right. split; [by left | done].
  - by intros x []%elem_of_empty.
  - intros object' y ? ?. simplify_eq. right. apply elem_of_push_multiple. by left.
  - intros ?. by rewrite decide_True.
Qed.

Lemma find_initialization_state_invariant p target_instruction target state :
  well_formed p →
  find_initialization_state_before_instruction p target_instruction target = Some state →
  ∃ checked, search_invariant p target_instruction target checked [] state.
Proof.
  intros Hwf. unfold find_initialization_state_before_instruction.
  destruct (instructions p !! target_instruction) as [object|] eqn:Hobject; [|done].
  intros Hsearch.
  eapply (search_invariant_end p target_instruction target Hwf (search_fuel p object));
    [|exact Hsearch].
  by apply search_invariant_begin.
Qed.

(** X9. What the analysis finds.  On a well-formed arena the analysis
    returns a state for a live target instruction, and
    [can_be_initialized] is set exactly when, on the way back from the target
    instruction past instructions that leave the variable as it is, a call
    is met that has the variable in an [Output] slot, or the begin of the
    procedure is met and the variable is an [Input] or [Mutable] parameter;
    [can_be_uninitialized] is set exactly when a destruct instruction for the
    variable is met, or the begin of the procedure is met and the variable is
    no such parameter. *)
Theorem analysis_exact p target_instruction target :
  well_formed p → is_Some (instructions p !! target_instruction) →
  ∃ state,
    find_initialization_state_before_instruction p target_instruction target = Some state ∧
    (can_be_initialized state = true ↔ may_be_initialized p target_instruction target) ∧
    (can_be_uninitialized state = true ↔ may_be_uninitialized p target_instruction target).
Proof.
  intros Hwf Hlive.
  destruct (find_initialization_state_is_Some p target (wf_prev p Hwf) (wf_params p Hwf)
              target_instruction Hlive) as [state Hstate].
  exists state. split; [done|].
  destruct (find_initialization_state_invariant p target_instruction target state Hwf Hstate)
    as [checked Hinv].
  by apply (search_invariant_result p target_instruction target checked).
Qed.

Lemma analysis_exact_witness :
  ∃ state,
    find_initialization_state_before_instruction example_loop 3 1 = Some state ∧
    (can_be_initialized state = true ↔ may_be_initialized example_loop 3 1) ∧
    (can_be_uninitialized state = true ↔ may_be_uninitialized example_loop 3 1).
Proof.
  apply (analysis_exact example_loop 3 1).
  - apply well_formedb_correct. vm_compute. reflexivity.
  - vm_compute. eauto.
Defined.

Lemma state_before_meaning p a v (P : InitState → Prop) :
  well_formed p → state_before p a v P →
  ∃ state, P state ∧
    (can_be_initialized state = true ↔ may_be_initialized p a v) ∧
    (can_be_uninitialized state = true ↔ may_be_uninitialized p a v).
Proof.
  intros Hwf (state & Hstate & ?). exists state. split; [done|].
  destruct (find_initialization_state_invariant p a v state Hwf Hstate) as [checked Hinv].
  by apply (search_invariant_result p a v checked).
Qed.

Lemma validate_true p :
  well_formed p → validate p = Some true →
  entry_set p ∧ all_instruction_pointers_set p ∧ all_params_provided p ∧ no_aliasing p ∧
  parameters_unique p ∧ initialization_requirements p.
Proof.
  intros Hwf. unfold validate, entry_set.
  destruct (decide (entry_ p = None)); [done|]. intros Hstages.
  destruct (validate_stages_decide p Hwf) as (b & Hb & Hiff).
  rewrite Hstages in Hb. injection Hb as <-. split; [done|]. by apply Hiff.
Qed.

Lemma listed_with_unique p v role role' :
  parameters_unique p → listed_with p v role → listed_with p v role' → role = role'.
Proof.
  unfold parameters_unique, listed_with. intros Hunique Hrole Hrole'.
  by pose proof (NoDup_fmap_elem_eq variable (params_ p) _ _ Hunique Hrole Hrole' eq_refl)
    as [= ->].
Qed.

(** X10. In a procedure that passes validation, every variable that an
    instruction uses may be in the state that the use asks for: before a
    destruct instruction, before a branch on the variable and before a call
    with the variable in an [Input] or [Mutable] slot the variable may be
    initialized, and before a call with the variable in an [Output] slot it
    may be uninitialized, always in the sense of what is met on the way back
    from the instruction. *)
Theorem validated_uses p :
  well_formed p → validate p = Some true →
  (∀ a v next, a ∈ destruct_instructions_ p →
     destruct_instruction p a = Some (Some v, next) → may_be_initialized p a v) ∧
  (∀ a v branch_true branch_false, a ∈ branch_instructions_ p →
     branch_instruction p a = Some (Some v, branch_true, branch_false) →
     may_be_initialized p a v) ∧
  (∀ a fn next params param_index param_type' v, a ∈ call_instructions_ p →
     call_instruction p a = Some (fn, next, params) →
     param_type fn param_index = Some param_type' →
     params !! param_index = Some (Some v) →
     if decide (interface_type param_type' = Output)
     then may_be_uninitialized p a v else may_be_initialized p a v).
Proof.
  intros Hwf (_ & _ & _ & _ & _ & Hdestruct & Hbranch & Hcall & _)%validate_true; [|done].
  split_and!.
  - intros a v next Ha Hobject.
    destruct (state_before_meaning p a v _ Hwf (Hdestruct a v next Ha Hobject))
      as (state & ? & Hinit & _). by apply Hinit.
  - intros a v branch_true branch_false Ha Hobject.
    destruct (state_before_meaning p a v _ Hwf
                (Hbranch a v branch_true branch_false Ha Hobject))
      as (state & ? & Hinit & _). by apply Hinit.
  - intros a fn next params param_index param_type' v Ha Hobject Htype Hslot.
    destruct (state_before_meaning p a v _ Hwf
                (Hcall a fn next params param_index param_type' v Ha Hobject Htype Hslot))
      as (state & Hrequirement & Hinit & Huninit).
    unfold call_requirement in Hrequirement.
    destruct (interface_type param_type'); simpl; [by apply Hinit..|by apply Huninit].
Qed.

Lemma validated_uses_witness :
  (∀ a v next, a ∈ destruct_instructions_ example_loop →
     destruct_instruction example_loop a = Some (Some v, next) →
     may_be_initialized example_loop a v) ∧
  (∀ a v branch_true branch_false, a ∈ branch_instructions_ example_loop →
     branch_instruction example_loop a = Some (Some v, branch_true, branch_false) →
     may_be_initialized example_loop a v) ∧
  (∀ a fn next params param_index param_type' v, a ∈ call_instructions_ example_loop →
     call_instruction example_loop a = Some (fn, next, params) →
     param_type fn param_index = Some param_type' →
     params !! param_index = Some (Some v) →
     if decide (interface_type param_type' = Output)
     then may_be_uninitialized example_loop a v else may_be_initialized example_loop a v).
Proof.
  apply (validated_uses example_loop).
  - apply well_formedb_correct. vm_compute. reflexivity.
  - vm_compute. reflexivity.
Defined.

(** X11. In a procedure that passes validation and has a return instruction,
    every variable that is an [Output] parameter is written by a call that is
    met on the way back from the return instruction, and every variable that
    is an [Input] parameter is destructed by an instruction met on that
    way. *)
Theorem validated_parameters p instruction v :
  well_formed p → validate p = Some true →
  instruction ∈ return_instructions_ p → v ∈ variables_ p →
  (listed_with p v Output →
     ∃ x object, exposed p instruction v x ∧ instructions p !! x = Some object ∧
                 writes_output object v) ∧
  (listed_with p v Input →
     ∃ x object, exposed p instruction v x ∧ instructions p !! x = Some object ∧
                 destructs object v).
Proof.
  intros Hwf (_ & _ & _ & _ & Hunique & _ & _ & _ & Hreturn)%validate_true Hinstruction Hv;
    [|done].
  destruct (state_before_meaning p instruction v _ Hwf (Hreturn instruction v Hinstruction Hv))
    as (state & [Hmust Hmust_not] & Hinit & Huninit).
  split.
  - intros Houtput.
    destruct (proj1 Hinit) as [?|[_ [Hrole|Hrole]]]; [|done|..].
    + apply Hmust. by right.
    + by pose proof (listed_with_unique p v _ _ Hunique Houtput Hrole).
    + by pose proof (listed_with_unique p v _ _ Hunique Houtput Hrole).
  - intros Hinput.
    destruct (proj1 Huninit) as [?|[_ Hcaller]]; [|done|].
    + apply Hmust_not. intros [Hrole|Hrole];
        by pose proof (listed_with_unique p v _ _ Hunique Hinput Hrole).
    + destruct Hcaller. by left.
Qed.

Lemma validated_parameters_witness :
  (listed_with example_identity 1 Output →
     ∃ x object, exposed example_identity 2 1 x ∧
                 instructions example_identity !! x = Some object ∧
                 writes_output object 1) ∧
  (listed_with example_identity 1 Input →
     ∃ x object, exposed example_identity 2 1 x ∧
                 instructions example_identity !! x = Some object ∧
                 destructs object 1).
Proof.
  apply (validated_parameters example_identity 2 1).
  - apply well_formedb_correct. vm_compute. reflexivity.
  - vm_compute. reflexivity.
  - set_solver.
  - set_solver.
Defined.

(** ** The way back, seen forward *)

Lemma prev_cfg_edge p a b object :
  sound p → instructions p !! a = Some object → b ∈ prev_ object → cfg_edge p b a.
Proof.
  intros [Hwf Hedge _ _ _] Ha Hb.
  destruct (wf_prev p Hwf a object b Ha Hb) as [object_b Hobject_b].
  exists object_b. split; [done|]. apply multiplicity_pos.
  rewrite (Hedge b a object_b object Hobject_b Ha). by apply multiplicity_pos.
Qed.

Lemma back_step_through p target a b :
  sound p → back p target a b ↔ step_through p target b a.
Proof.
  intros Hsound. split.
  - intros (object & Ha & Htransparent & Hb). split; [by eapply prev_cfg_edge|].
    by exists object.
  - intros [Hedge (object & Ha & Htransparent)].
    destruct (sound_edges_mirrored p Hsound b a Hedge) as (object' & Ha' & Hb).
    rewrite Ha in Ha'. injection Ha' as <-. by exists object.
Qed.

Lemma rtc_back_step_through p target first x :
  sound p → rtc (back p target) first x ↔ rtc (step_through p target) x first.
Proof.
  intros Hsound. split.
  - revert x. apply rtc_ind_r; [done|].
    intros y x _ Hback Hpath. eapply rtc_l; [|done]. by apply back_step_through.
  - revert x. apply (rtc_ind_l (λ x, rtc (back p target) first x)); [done|].
    intros x y Hstep _ Hpath. eapply rtc_r; [done|]. by apply back_step_through.
Qed.

Lemma exposed_leads_to p target_instruction target x :
  sound p →
  exposed p target_instruction target x ↔ leads_to p target_instruction target x.
Proof.
  intros Hsound. split.
  - intros (object & first & Hobject & Hfirst & Hpath). exists first. split.
    + by apply rtc_back_step_through.
    + by eapply prev_cfg_edge.
  - intros (last & Hpath & Hedge).
    destruct (sound_edges_mirrored p Hsound last target_instruction Hedge)
      as (object & Hobject & Hlast).
    exists object, last. split_and!; [done..|]. by apply rtc_back_step_through.
Qed.

(** X12. What the search examines, seen forward.  On a procedure that keeps
    the invariants, the run of the analysis for a live target instruction
    lets exactly those instructions past its [checked_instructions] test
    from which successor pointers lead to the target instruction such that
    every instruction between the two leaves the variable as it is: it
    examines each of them and no other instruction. *)
Theorem search_examines_forward p target_instruction target object :
  sound p →
  instructions p !! target_instruction = Some object →
  ∃ state log,
    find_initialization_state_before_instruction p target_instruction target = Some state ∧
    find_initialization_state_logged (search_fuel p object) p target_instruction target
    = Some (state, log) ∧
    ∀ x, x ∈ examined log ↔ leads_to p target_instruction target x.
Proof.
  intros Hsound Hobject. pose proof (sound_well_formed p Hsound) as Hwf.
  destruct (find_initialization_state_is_Some p target (wf_prev p Hwf) (wf_params p Hwf)
              target_instruction) as [state Hstate]; [by eexists|].
  pose proof (find_initialization_state_logged_fst p target_instruction target object Hobject)
    as Hlogged.
  rewrite Hstate in Hlogged.
  destruct (find_initialization_state_logged (search_fuel p object) p target_instruction target)
    as [[state' log]|] eqn:Hrun; [|done].
  simpl in Hlogged. injection Hlogged as ->.
  exists state, log. split_and!; [done..|].
  unfold find_initialization_state_logged in Hrun. rewrite Hobject in Hrun.
  cbn [mbind option_bind] in Hrun.
  assert (∀ x : nat, x ∈ (∅ : gset nat) ↔ x ∈ @nil nat) as Hnone.
  { intros x. split; [by intros []%elem_of_empty | by intros []%elem_of_nil]. }
  destruct (search_logged_invariant_end p target_instruction target Hwf _ _ _ _
              {| examined := []; pushed := prev_ object |} _
              (search_invariant_begin p target_instruction target object Hobject)
              Hnone Hrun)
    as (checked & Hinv & Hlog).
  simpl in Hinv, Hlog. intros x.
  rewrite <- Hlog, <- (exposed_leads_to p target_instruction target x Hsound). split.
  - intros Hx. apply (inv_exposed _ _ _ _ _ _ Hinv). by left.
  - by apply (search_invariant_closed p target_instruction target checked state).
Qed.

Lemma search_examines_forward_witness :
  ∃ state log,
    find_initialization_state_before_instruction example_loop 3 1 = Some state ∧
    find_initialization_state_logged 6 example_loop 3 1 = Some (state, log) ∧
    ∀ x, x ∈ examined log ↔ leads_to example_loop 3 1 x.
Proof.
  apply (search_examines_forward example_loop 3 1
           {| prev_ := [0]; payload := ReturnData |}).
  - apply constructed_sound, example_loop_constructed.
  - reflexivity.
Defined.
(** ** The order within the [prev_] and [users_] vectors *)

Lemma same_up_to_order_sym p p' : same_up_to_order p p' → same_up_to_order p' p.
Proof.
  intros (Hpayload & Hvariables & Hdirectory & Hprev & Husers). split_and!.
  - intros X. by rewrite Hpayload.
  - by apply same_variables_sym.
  - by apply same_directory_sym.
  - split.
    + intros J object' object ? ?. symmetry. by eapply Hprev.
    + intros V object' object ? ?. symmetry. by eapply Husers.
Qed.

Lemma same_up_to_order_lookup p p' a object :
  same_up_to_order p p' → instructions p !! a = Some object →
  ∃ object', instructions p' !! a = Some object' ∧ payload object' = payload object ∧
             prev_ object' ≡ₚ prev_ object.
Proof.
  intros (Hpayload & _ & _ & Hprev & _) Hobject. specialize (Hpayload a).
  unfold payload_of in Hpayload. rewrite Hobject in Hpayload.
  destruct (instructions p' !! a) as [object'|] eqn:Hobject'; [|done].
  exists object'. split_and!; [done|by injection Hpayload|by eapply Hprev].
Qed.

Lemma transparent_payload object object' target :
  payload object' = payload object → transparent object target → transparent object' target.
Proof. unfold transparent, writes_output, destructs. by intros ->. Qed.

Lemma same_up_to_order_deref p p' :
  same_up_to_order p p' →
  (∀ a, call_instruction p' a = call_instruction p a) ∧
  (∀ a, branch_instruction p' a = branch_instruction p a) ∧
  (∀ a, destruct_instruction p' a = destruct_instruction p a) ∧
  (∀ a, dummy_instruction p' a = dummy_instruction p a).
Proof.
  intros (Hpayload & _).
  assert (∀ a, payload <$> instructions p' !! a = payload <$> instructions p !! a) as Heq
    by done.
  unfold call_instruction, branch_instruction, destruct_instruction, dummy_instruction.
  split_and!; intros a; specialize (Heq a);
    destruct (instructions p' !! a), (instructions p !! a); simplify_eq/=; try done;
    by match goal with H : payload _ = payload _ |- _ => rewrite H end.
Qed.

Lemma same_up_to_order_well_formed p p' :
  same_up_to_order p p' → well_formed p → well_formed p'.
Proof.
  intros Hsame Hwf. pose proof (same_up_to_order_sym p p' Hsame) as Hback.
  destruct (same_up_to_order_deref p p' Hsame) as (Hcall & Hbranch & Hdestruct & Hdummy).
  pose proof Hsame as (_ & _ & (Hc & Hb & Hde & Hdu & Hr & _) & _).
  destruct Hwf as [H1 H2 H3 H4 H5 H6 H7]. split.
  - intros a. rewrite Hc, Hcall. apply H1.
  - intros a. rewrite Hb, Hbranch. apply H2.
  - intros a. rewrite Hde, Hdestruct. apply H3.
  - intros a. rewrite Hdu, Hdummy. apply H4.
  - intros a. rewrite Hr. intros (object & Hobject & Htype)%H5.
    destruct (same_up_to_order_lookup p p' a object Hsame Hobject)
      as (object' & ? & Hpayload & _).
    exists object'. split; [done|]. unfold type_ in *. by rewrite Hpayload.
  - intros a object' q Hobject' Hq.
    destruct (same_up_to_order_lookup p' p a object' Hback Hobject')
      as (object & Hobject & _ & Hprev).
    rewrite <-Hprev in Hq. destruct (H6 a object q Hobject Hq) as [object_q Hobject_q].
    destruct (same_up_to_order_lookup p p' q object_q Hsame Hobject_q) as (? & ? & _).
    by eexists.
  - intros a object' fn next params Hobject' Hpayload'.
    destruct (same_up_to_order_lookup p' p a object' Hback Hobject')
      as (object & Hobject & Hpayload & _).
    apply (H7 a object fn next params Hobject). by rewrite Hpayload.
Qed.

Lemma same_up_to_order_exposed p p' target_instruction target x :
  same_up_to_order p p' →
  exposed p target_instruction target x → exposed p' target_instruction target x.
Proof.
  intros Hsame (object & first & Hobject & Hfirst & Hpath).
  destruct (same_up_to_order_lookup p p' _ object Hsame Hobject)
    as (object' & Hobject' & _ & Hprev).
  exists object', first. split_and!; [done|by rewrite Hprev|].
  eapply rtc_subrel; [|done]. intros a b (object_a & Ha & Htransparent & Hb).
  destruct (same_up_to_order_lookup p p' a object_a Hsame Ha)
    as (object_a' & Ha' & Hpayload & Hprev_a).
  exists object_a'. split_and!; [done| |by rewrite Hprev_a].
  by eapply transparent_payload.
Qed.

Lemma same_up_to_order_may_be p p' target_instruction target :
  same_up_to_order p p' →
  (may_be_initialized p target_instruction target →
   may_be_initialized p' target_instruction target) ∧
  (may_be_uninitialized p target_instruction target →
   may_be_uninitialized p' target_instruction target).
Proof.
  intros Hsame. pose proof Hsame as (_ & _ & (_ & _ & _ & _ & _ & _ & Hparams & Hentry) & _).
  assert (entry_exposed p target_instruction target →
          entry_exposed p' target_instruction target) as Hreached.
  { unfold entry_exposed. rewrite Hentry.
    intros [?|(entry & object & ? & Hexposed & Hobject & Htransparent)]; [by left|]. right.
    destruct (same_up_to_order_lookup p p' entry object Hsame Hobject)
      as (object' & ? & Hpayload & _).
    exists entry, object'. split_and!; [done|by apply (same_up_to_order_exposed p)|done|].
    by eapply transparent_payload. }
  assert (caller_initialized p' target ↔ caller_initialized p target) as Hcaller
    by (unfold caller_initialized, listed_with; by rewrite Hparams).
  split.
  - intros [(x & object & Hexposed & Hobject & Hwrites)|[? ?]].
    + destruct (same_up_to_order_lookup p p' x object Hsame Hobject)
        as (object' & ? & Hpayload & _).
      left. exists x, object'. split_and!; [by apply (same_up_to_order_exposed p)|done|].
      unfold writes_output in *. by rewrite Hpayload.
    + right. split; [by apply Hreached | by apply Hcaller].
  - intros [(x & object & Hexposed & Hobject & Hdestructs)|[? ?]].
    + destruct (same_up_to_order_lookup p p' x object Hsame Hobject)
        as (object' & ? & Hpayload & _).
      left. exists x, object'. split_and!; [by apply (same_up_to_order_exposed p)|done|].
      unfold destructs in *. by rewrite Hpayload.
    + right. split; [by apply Hreached | by rewrite Hcaller].
Qed.

Lemma InitState_eq state state' :
  (can_be_initialized state = true ↔ can_be_initialized state' = true) →
  (can_be_uninitialized state = true ↔ can_be_uninitialized state' = true) →
  state = state'.
Proof.
  destruct state as [[] []], state' as [[] []]; simpl; intros [? ?] [? ?];
    f_equal; try done; (by intuition) || (symmetry; by intuition).
Qed.

Lemma find_initialization_state_up_to_order p p' target_instruction target :
  well_formed p → same_up_to_order p p' →
  find_initialization_state_before_instruction p' target_instruction target
  = find_initialization_state_before_instruction p target_instruction target.
Proof.
  intros Hwf Hsame. pose proof (same_up_to_order_well_formed p p' Hsame Hwf) as Hwf'.
  pose proof (same_up_to_order_sym p p' Hsame) as Hback.
  destruct (instructions p !! target_instruction) as [object|] eqn:Hobject.
  - destruct (same_up_to_order_lookup p p' _ object Hsame Hobject) as (object' & Hobject' & _).
    destruct (find_initialization_state_is_Some p target (wf_prev p Hwf) (wf_params p Hwf)
                target_instruction) as [state Hstate]; [by eexists|].
    destruct (find_initialization_state_is_Some p' target (wf_prev p' Hwf')
                (wf_params p' Hwf') target_instruction) as [state' Hstate']; [by eexists|].
    rewrite Hstate, Hstate'. f_equal.
    destruct (state_before_meaning p target_instruction target (λ s, s = state) Hwf)
      as (? & -> & Hinit & Huninit); [by exists state|].
    destruct (state_before_meaning p' target_instruction target (λ s, s = state') Hwf')
      as (? & -> & Hinit' & Huninit'); [by exists state'|].
    destruct (same_up_to_order_may_be p p' target_instruction target Hsame).
    destruct (same_up_to_order_may_be p' p target_instruction target Hback).
    apply InitState_eq; [rewrite Hinit, Hinit' | rewrite Huninit, Huninit']; by split.
  - unfold find_initialization_state_before_instruction. rewrite Hobject.
    destruct (instructions p' !! target_instruction) as [object'|] eqn:Hobject'; [|done].
    destruct (same_up_to_order_lookup p' p _ object' Hback Hobject') as (? & ? & _).
    congruence.
Qed.

Lemma validate_stages_up_to_order p p' :
  same_up_to_order p p' →
  validate_all_instruction_pointers_set p' = validate_all_instruction_pointers_set p ∧
  validate_all_params_provided p' = validate_all_params_provided p ∧
  validate_same_variables_in_one_call p' = validate_same_variables_in_one_call p ∧
  validate_parameters p' = validate_parameters p.
Proof.
  intros Hsame.
  destruct (same_up_to_order_deref p p' Hsame) as (Hcall & Hbranch & Hdestruct & Hdummy).
  destruct Hsame as (_ & _ & (Hc & Hb & Hde & Hdu & _ & _ & Hparams & _) & _).
  unfold validate_all_instruction_pointers_set, validate_all_params_provided,
    validate_same_variables_in_one_call, validate_parameters.
  rewrite Hc, Hb, Hde, Hdu, Hparams.
  split_and!; [| | |done].
  - f_equal; [|f_equal; [|f_equal]]; apply for_all_ext; intros a;
      by rewrite ?Hcall, ?Hbranch, ?Hdestruct, ?Hdummy.
  - f_equal; [|f_equal]; apply for_all_ext; intros a;
      by rewrite ?Hcall, ?Hbranch, ?Hdestruct.
  - apply for_all_ext. intros a. by rewrite Hcall.
Qed.

Lemma validate_initialization_up_to_order p p' :
  well_formed p → same_up_to_order p p' →
  validate_initialization p' = validate_initialization p.
Proof.
  intros Hwf Hsame.
  pose proof (find_initialization_state_up_to_order p p') as Hfind.
  destruct (same_up_to_order_deref p p' Hsame) as (Hcall & Hbranch & Hdestruct & _).
  pose proof Hsame as (_ & _ & (Hc & Hb & Hde & _ & Hr & Hv & Hparams & _) & _).
  unfold validate_initialization, variables_that_should_be_initialized_on_return.
  rewrite Hc, Hb, Hde, Hr, Hv, Hparams.
  f_equal; [|f_equal; [|f_equal]].
  - apply for_all_ext. intros a. rewrite Hdestruct.
    destruct (destruct_instruction p a) as [[[v|] ?]|]; simpl; [|done..].
    by rewrite Hfind.
  - apply for_all_ext. intros a. rewrite Hbranch.
    destruct (branch_instruction p a) as [[[[v|] ?] ?]|]; simpl; [|done..].
    by rewrite Hfind.
  - apply for_all_ext. intros a. rewrite Hcall.
    destruct (call_instruction p a) as [[[fn ?] params]|]; simpl; [|done].
    apply for_all_ext. intros i.
    destruct (param_type fn i); simpl; [|done].
    destruct (params !! i) as [[v|]|]; simpl; [|done..].
    by rewrite Hfind.
  - destruct (should_be_initialized_on_return_from ∅ (params_ p)); simpl; [|done].
    apply for_all_ext. intros a. apply for_all_ext. intros v. by rewrite Hfind.
Qed.

(** X13. [validate] does not depend on the order within the [prev_] and
    [users_] vectors: on a well-formed arena it returns the same for a
    procedure with the same instructions, variables, parameters and entry
    whose vectors hold the same pointers in another order. *)
Theorem validate_up_to_order p p' :
  well_formed p → same_up_to_order p p' → validate p' = validate p.
Proof.
  intros Hwf Hsame.
  destruct (validate_stages_up_to_order p p' Hsame) as (Hpointers & Hprovided & Hsame_variables & Hparameters).
  pose proof (validate_initialization_up_to_order p p' Hwf Hsame) as Hinitialization.
  destruct Hsame as (_ & _ & (_ & _ & _ & _ & _ & _ & _ & Hentry) & _).
  unfold validate. rewrite Hentry. case_decide; [done|].
  by rewrite Hpointers, Hprovided, Hsame_variables, Hparameters, Hinitialization.
Qed.

Lemma mutated_payload_same m p old_payload :
  payload_of p (this_of m) = Some old_payload → rewrites_same p m →
  mutated_payload m old_payload = old_payload.
Proof.
  intros Hold. destruct m; simpl in *.
  - intros (fn & params & Hderef%call_instruction_payload_of). by simplify_eq.
  - intros (fn & next & params & Hderef%call_instruction_payload_of & Hslot).
    simplify_eq. simpl. by rewrite list_insert_id.
  - intros (fn & next & Hderef%call_instruction_payload_of). by simplify_eq.
  - intros (branch_true & branch_false & Hderef%branch_instruction_payload_of).
    by simplify_eq.
  - intros (condition & branch_false & Hderef%branch_instruction_payload_of).
    by simplify_eq.
  - intros (condition & branch_true & Hderef%branch_instruction_payload_of).
    by simplify_eq.
  - intros (next & Hderef%destruct_instruction_payload_of). by simplify_eq.
  - intros (variable & Hderef%destruct_instruction_payload_of). by simplify_eq.
  - intros Hderef%dummy_instruction_payload_of. by simplify_eq.
Qed.

Lemma rewrites_same_up_to_order m p p' :
  apply_mutation m p = Some p' → rewrites_same p m → same_up_to_order p p'.
Proof.
  intros (old_payload & Hold & Hrewired)%apply_mutation_rewired Hsame.
  rewrite (mutated_payload_same m p old_payload Hold Hsame) in Hrewired.
  destruct Hrewired as (Hpayload & Hprev & Husers & Hvariables & Hdirectory).
  apply (same_up_to_order_intro p);
    [| | |apply same_variables_refl|done|apply same_directory_refl|done].
  - intros X. rewrite Hpayload. case_decide; [by subst X | done].
  - intros J I. specialize (Hprev J I). lia.
  - intros V I. specialize (Husers V I). lia.
Qed.

Lemma validate_up_to_order_witness :
  ∃ p',
    apply_mutation (Call_set_param_variable 0 0 (Some 0)) example_identity = Some p' ∧
    variable_store p' ≠ variable_store example_identity ∧
    validate p' = validate example_identity.
Proof.
  eexists. split; [vm_compute; reflexivity|]. split.
  - intros Hstore. apply (f_equal (λ store : gmap nat MFVariable, users_ <$> store !! 0)) in Hstore.
    vm_compute in Hstore. discriminate.
  - apply (validate_up_to_order example_identity).
    + apply well_formedb_correct. vm_compute. reflexivity.
    + apply (rewrites_same_up_to_order (Call_set_param_variable 0 0 (Some 0))).
      * vm_compute. reflexivity.
      * eexists _, _, _. split; [vm_compute; reflexivity | reflexivity].
Defined.

(** ** The instructions of a block *)

Lemma has_to_be_block_begin_false p b :
  has_to_be_block_begin p b = Some false ↔
  entry_ p ≠ Some b ∧
  ∃ object a object_a,
    instructions p !! b = Some object ∧ prev_ object = [a] ∧
    instructions p !! a = Some object_a ∧ type_ object_a ≠ Branch.
Proof.
  unfold has_to_be_block_begin. split.
  - intros H. destruct (decide (entry_ p = Some b)); [done|]. split; [done|].
    destruct (instructions p !! b) as [object|]; [|done]. simpl in H.
    destruct (decide (length (prev_ object) ≠ 1)); [done|].
    destruct (prev_ object) as [|a [|? ?]] eqn:Hprev; simpl in *; try lia.
    destruct (instructions p !! a) as [object_a|] eqn:Ha; [|done]. simpl in H.
    destruct (decide (type_ object_a = Branch)); [done|].
    by exists object, a, object_a.
  - intros (Hentry & object & a & object_a & -> & Hprev & Ha & Htype).
    rewrite decide_False by done. simpl. rewrite Hprev. simpl.
    rewrite Ha. simpl. by rewrite decide_False.
Qed.

Lemma has_to_be_block_begin_is_Some p b :
  well_formed p → is_Some (instructions p !! b) → is_Some (has_to_be_block_begin p b).
Proof.
  intros Hwf [object Hb]. unfold has_to_be_block_begin.
  destruct (decide (entry_ p = Some b)); [by eexists|]. rewrite Hb. simpl.
  destruct (decide (length (prev_ object) ≠ 1)); [by eexists|].
  destruct (prev_ object) as [|a [|? ?]] eqn:Hprev; simpl in *; try lia.
  destruct (wf_prev p Hwf b object a Hb) as [object_a ->]; [rewrite Hprev; by left|].
  simpl. destruct (decide (type_ object_a = Branch)); by eexists.
Qed.

Lemma chain_inv p a b :
  chain p a b →
  entry_ p ≠ Some b ∧
  ∃ object object_a,
    instructions p !! b = Some object ∧ prev_ object = [a] ∧
    instructions p !! a = Some object_a ∧ type_ object_a ≠ Branch.
Proof.
  intros [(Hentry & object & a' & object_a & Hb & Hprev & Ha & Htype)%has_to_be_block_begin_false
          (object' & Hb' & Hprev')].
  rewrite Hb in Hb'. injection Hb' as <-. rewrite Hprev in Hprev'. injection Hprev' as <-.
  split; [done|]. by exists object, object_a.
Qed.

Lemma chain_inj_l p a a' b : chain p a b → chain p a' b → a = a'.
Proof. intros [_ (? & ? & ?)] [_ (? & ? & ?)]. simplify_eq. congruence. Qed.

Lemma successors_next_of payload_a b :
  payload_type payload_a ≠ Branch →
  multiplicity b (successors payload_a) = indicator (next_of payload_a = Some b).
Proof.
  destruct payload_a; simpl; intros ?; try done; apply multiplicity_option_list.
Qed.

Lemma next_of_successors payload_a b : next_of payload_a = Some b → b ∈ successors payload_a.
Proof. destruct payload_a; simpl; intros ?; simplify_eq; by left. Qed.

Lemma chain_next p a b :
  edge_consistent p → chain p a b →
  ∃ object_a, instructions p !! a = Some object_a ∧ next_of (payload object_a) = Some b.
Proof.
  intros Hedge (_ & object & object_a & Hb & Hprev & Ha & Htype)%chain_inv.
  exists object_a. split; [done|].
  specialize (Hedge a b object_a object Ha Hb).
  rewrite Hprev, multiplicity_cons, multiplicity_nil, successors_next_of in Hedge by done.
  revert Hedge. indicators.
Qed.

Lemma chain_inj_r p a b b' : edge_consistent p → chain p a b → chain p a b' → b = b'.
Proof.
  intros Hedge (? & ? & ?)%chain_next (? & ? & ?)%chain_next; [|done..]. by simplify_eq.
Qed.

Lemma next_chain p a b object_a :
  edge_consistent p →
  instructions p !! a = Some object_a → next_of (payload object_a) = Some b →
  has_to_be_block_begin p b = Some false → chain p a b.
Proof.
  intros Hedge Ha Hnext Hbegin. split; [done|].
  apply has_to_be_block_begin_false in Hbegin
    as (_ & object & q & object_q & Hb & Hprev & _ & _).
  exists object. split; [done|].
  apply next_of_successors, multiplicity_pos in Hnext.
  rewrite (Hedge a b object_a object Ha Hb), Hprev, multiplicity_cons, multiplicity_nil in Hnext.
  revert Hnext. indicators.
Qed.

Lemma chain_live p a b :
  chain p a b → is_Some (instructions p !! a) ∧ is_Some (instructions p !! b).
Proof. intros (_ & ? & ? & ? & _ & ? & _)%chain_inv. split; by eexists. Qed.

Lemma chain_not_begin p a b : chain p a b → has_to_be_block_begin p b = Some false.
Proof. by intros [? _]. Qed.
Lemma first_instruction_walk_result fuel p representative current block_begin :
  first_instruction_walk fuel p representative current = Some block_begin →
  (has_to_be_block_begin p block_begin = Some true ∧ rtc (chain p) block_begin current) ∨
  (block_begin = representative ∧ tc (chain p) representative current).
Proof.
  revert current. induction fuel as [|fuel IH]; intros current; [done|]. simpl.
  destruct (has_to_be_block_begin p current) as [[]|] eqn:Hbegin; simpl; [| |done].
  { intros [= <-]. by left. }
  pose proof Hbegin as (_ & object & a & _ & Hcurrent & Hprev & _)%has_to_be_block_begin_false.
  rewrite Hcurrent. simpl. rewrite Hprev. simpl.
  assert (chain p a current) as Hchain by (split; [done | by exists object]).
  destruct (decide (a = representative)) as [->|_].
  { intros [= <-]. right. split; [done | by apply tc_once]. }
  intros [[? ?]|[? ?]]%IH; [left | right]; split; try done.
  - by eapply rtc_r.
  - by eapply tc_r.
Qed.

Lemma walk_out_of_fuel p (current : nat) (visited : gset nat) fuel :
  is_Some (instructions p !! current) → current ∉ visited →
  visited ⊆ dom (instructions p) →
  size (instructions p) < fuel + size visited → 0 < fuel.
Proof.
  intros Hcurrent Hfresh Hvisited Hsize.
  assert (size ({[current]} ∪ visited) ≤ size (dom (instructions p))) as Hle.
  { apply subseteq_size. apply elem_of_dom in Hcurrent. set_solver. }
  rewrite size_union, size_singleton, size_dom in Hle by set_solver. lia.
Qed.

Lemma first_instruction_walk_is_Some fuel p representative current (visited : gset nat) :
  well_formed p → edge_consistent p →
  is_Some (instructions p !! current) → current ∉ visited →
  visited ⊆ dom (instructions p) →
  (∀ y, y ∈ {[current]} ∪ visited → y ≠ representative →
        ∃ y', y' ∈ visited ∧ chain p y y') →
  size (instructions p) < fuel + size visited →
  is_Some (first_instruction_walk fuel p representative current).
Proof.
  intros Hwf Hedge. revert current visited.
  induction fuel as [|fuel IH]; intros current visited Hcurrent Hfresh Hvisited Hnext Hsize.
  { pose proof (walk_out_of_fuel _ _ _ _ Hcurrent Hfresh Hvisited Hsize). lia. }
  simpl. destruct (has_to_be_block_begin_is_Some p current Hwf Hcurrent) as [[] Hbegin];
    rewrite Hbegin; simpl; [by eexists|].
  pose proof Hbegin as (_ & object & a & object_a & Hobject & Hprev & Ha & _)%has_to_be_block_begin_false.
  rewrite Hobject. simpl. rewrite Hprev. simpl.
  assert (chain p a current) as Hchain by (split; [done | by exists object]).
  destruct (decide (a = representative)) as [->|Ha']; [by eexists|].
  apply (IH a ({[current]} ∪ visited)).
  - by eexists.
  - intros Hin. destruct (Hnext a Hin Ha') as (y' & Hy' & Hchain').
    by rewrite (chain_inj_r p a current y' Hedge Hchain Hchain') in Hfresh.
  - apply elem_of_dom in Hcurrent. set_solver.
  - intros y Hy Hy'. destruct (decide (y = a)) as [->|?].
    + exists current. split; [set_solver | done].
    + destruct (Hnext y) as (y' & ? & ?); [set_solver | done |].
      exists y'. split; [set_solver | done].
  - rewrite size_union, size_singleton by set_solver. lia.
Qed.

Lemma get_first_instruction_in_block_is_Some p representative :
  well_formed p → edge_consistent p → is_Some (instructions p !! representative) →
  is_Some (get_first_instruction_in_block p representative).
Proof.
  intros Hwf Hedge Hlive.
  apply (first_instruction_walk_is_Some _ p representative representative ∅); try done.
  - set_solver.
  - unfold block_fuel. rewrite size_empty. lia.
Qed.

Lemma get_next_instruction_in_block_Some p instruction block_begin next :
  get_next_instruction_in_block p instruction block_begin = Some (Some next) ↔
  ∃ object, instructions p !! instruction = Some object ∧
            next_of (payload object) = Some next ∧ next ≠ block_begin ∧
            has_to_be_block_begin p next = Some false.
Proof.
  unfold get_next_instruction_in_block. split.
  - destruct (instructions p !! instruction) as [object|]; [|done]. simpl.
    destruct (next_of (payload object)) as [x|] eqn:Hnext; [|done].
    destruct (decide (x = block_begin)); [done|].
    destruct (has_to_be_block_begin p x) as [[]|] eqn:?; simpl; [done| |done].
    intros [= <-]. by exists object.
  - intros (object & -> & Hnext & ? & Hbegin). simpl. rewrite Hnext.
    rewrite decide_False by done. by rewrite Hbegin.
Qed.

Lemma get_next_instruction_in_block_None p instruction block_begin :
  get_next_instruction_in_block p instruction block_begin = Some None ↔
  ∃ object, instructions p !! instruction = Some object ∧
            (next_of (payload object) = None ∨
             next_of (payload object) = Some block_begin ∨
             ∃ next, next_of (payload object) = Some next ∧
                     has_to_be_block_begin p next = Some true).
Proof.
  unfold get_next_instruction_in_block. split.
  - destruct (instructions p !! instruction) as [object|]; [|done]. simpl. intros H.
    exists object. split; [done|].
    destruct (next_of (payload object)) as [x|] eqn:Hnext; [|by left]. right.
    destruct (decide (x = block_begin)) as [->|]; [by left|]. right.
    destruct (has_to_be_block_begin p x) as [[]|] eqn:?; simpl in H; [|done..].
    by exists x.
  - intros (object & -> & [Hnext|[Hnext|(x & Hnext & Hbegin)]]); simpl; rewrite Hnext; [done|..].
    + by rewrite decide_True.
    + destruct (decide (x = block_begin)); [done|]. by rewrite Hbegin.
Qed.

Lemma get_next_instruction_in_block_is_Some p instruction block_begin :
  well_formed p → pointers_live p → is_Some (instructions p !! instruction) →
  is_Some (get_next_instruction_in_block p instruction block_begin).
Proof.
  intros Hwf Hlive [object Hobject]. unfold get_next_instruction_in_block.
  rewrite Hobject. simpl.
  destruct (next_of (payload object)) as [x|] eqn:Hnext; [|by eexists].
  destruct (decide (x = block_begin)); [by eexists|].
  destruct (has_to_be_block_begin_is_Some p x Hwf) as [[] ->]; simpl; [|by eexists..].
  by eapply (Hlive instruction object Hobject), next_of_successors.
Qed.

Lemma block_walk_is_Some fuel p block_begin current (visited : gset nat) :
  sound p →
  is_Some (instructions p !! current) → current ∉ visited →
  visited ⊆ dom (instructions p) →
  (∀ y, y ∈ {[current]} ∪ visited → y ≠ block_begin →
        ∃ y', y' ∈ visited ∧ chain p y' y) →
  size (instructions p) < fuel + size visited →
  is_Some (block_walk fuel p block_begin current).
Proof.
  intros [Hwf Hedge _ Hlive _]. revert current visited.
  induction fuel as [|fuel IH]; intros current visited Hcurrent Hfresh Hvisited Hprev Hsize.
  { pose proof (walk_out_of_fuel _ _ _ _ Hcurrent Hfresh Hvisited Hsize). lia. }
  simpl.
  destruct (get_next_instruction_in_block_is_Some p current block_begin Hwf Hlive Hcurrent)
    as [[next|] Hnext]; rewrite Hnext; simpl; [|by eexists].
  apply get_next_instruction_in_block_Some in Hnext
    as (object & Hobject & Hnext & Hfar & Hbegin).
  pose proof (next_chain p current next object Hedge Hobject Hnext Hbegin) as Hchain.
  destruct (IH next ({[current]} ∪ visited)) as [rest ->]; [..|by eexists].
  - by apply chain_live in Hchain as [_ ?].
  - intros Hin. destruct (Hprev next Hin Hfar) as (y' & Hy' & Hchain').
    by rewrite (chain_inj_l p y' current next Hchain' Hchain) in Hy'.
  - apply elem_of_dom in Hcurrent. set_solver.
  - intros y Hy Hy'. destruct (decide (y = next)) as [->|?].
    + exists current. split; [set_solver | done].
    + destruct (Hprev y) as (y' & ? & ?); [set_solver | done |].
      exists y'. split; [set_solver | done].
  - rewrite size_union, size_singleton by set_solver. lia.
Qed.
Lemma block_walk_head fuel p block_begin current block :
  block_walk fuel p block_begin current = Some block → ∃ rest, block = current :: rest.
Proof.
  destruct fuel as [|fuel]; [done|]. simpl.
  destruct (get_next_instruction_in_block p current block_begin) as [[next|]|]; simpl;
    [|intros [= <-]; by eexists|done].
  destruct (block_walk fuel p block_begin next); simpl; [|done].
  intros [= <-]. by eexists.
Qed.

Lemma block_walk_steps fuel p block_begin current block i a b :
  edge_consistent p →
  block_walk fuel p block_begin current = Some block →
  block !! i = Some a → block !! S i = Some b →
  chain p a b ∧ b ≠ block_begin.
Proof.
  intros Hedge. revert current block i. induction fuel as [|fuel IH]; [done|].
  intros current block i. simpl.
  destruct (get_next_instruction_in_block p current block_begin) as [[next|]|] eqn:Hnext;
    simpl; [|intros [= <-]; by destruct i|done].
  destruct (block_walk fuel p block_begin next) as [rest|] eqn:Hrest; simpl; [|done].
  intros [= <-]. destruct i as [|i]; simpl; [|by apply (IH next)].
  apply block_walk_head in Hrest as [rest' ->]. intros [= <-] [= <-].
  apply get_next_instruction_in_block_Some in Hnext as (object & ? & ? & ? & ?).
  split; [by eapply next_chain | done].
Qed.

Lemma block_walk_last fuel p block_begin current block instruction :
  block_walk fuel p block_begin current = Some block →
  last block = Some instruction →
  get_next_instruction_in_block p instruction block_begin = Some None.
Proof.
  revert current block. induction fuel as [|fuel IH]; [done|].
  intros current block. simpl.
  destruct (get_next_instruction_in_block p current block_begin) as [[next|]|] eqn:Hnext;
    simpl; [|by intros [= <-] [= <-]|done].
  destruct (block_walk fuel p block_begin next) as [rest|] eqn:Hrest; simpl; [|done].
  intros [= <-]. pose proof Hrest as [rest' ->]%block_walk_head.
  rewrite last_cons_cons. by apply (IH next).
Qed.

Lemma block_walk_closed fuel p block_begin current block y x :
  edge_consistent p →
  block_walk fuel p block_begin current = Some block →
  y ∈ block → chain p y x → x ≠ block_begin → x ∈ block.
Proof.
  intros Hedge. revert current block. induction fuel as [|fuel IH]; [done|].
  intros current block Hwalk Hy Hchain Hfar. simpl in Hwalk.
  assert (y = current →
          get_next_instruction_in_block p current block_begin = Some (Some x)) as Hstep.
  { intros ->. apply get_next_instruction_in_block_Some.
    destruct (chain_next p current x Hedge Hchain) as (object & ? & ?).
    exists object. by repeat split; [..|apply Hchain]. }
  destruct (get_next_instruction_in_block p current block_begin) as [[next|]|] eqn:Hnext;
    simpl in Hwalk; [| |done].
  - destruct (block_walk fuel p block_begin next) as [rest|] eqn:Hrest; simpl in Hwalk; [|done].
    injection Hwalk as <-. apply elem_of_cons in Hy as [->|Hy].
    + specialize (Hstep eq_refl). injection Hstep as ->.
      apply block_walk_head in Hrest as [rest' ->]. set_solver.
    + right. by apply (IH next).
  - injection Hwalk as <-. apply list_elem_of_singleton in Hy. by specialize (Hstep Hy).
Qed.

Lemma steps_NoDup p block_begin rest :
  (∀ i a b, (block_begin :: rest) !! i = Some a → (block_begin :: rest) !! S i = Some b →
            chain p a b ∧ b ≠ block_begin) →
  NoDup (block_begin :: rest).
Proof.
  intros Hsteps. set (block := block_begin :: rest) in *.
  assert (∀ i j x, i < j → block !! i = Some x → block !! j = Some x → False) as Hdistinct.
  { induction i as [|i IH]; intros j x Hlt Hi Hj; (destruct j as [|j]; [lia|]).
    - destruct (lookup_lt_is_Some_2 block j) as [a Ha];
        [apply lookup_lt_Some in Hj; lia|].
      destruct (Hsteps j a x Ha Hj) as [_ ?]. subst block. simpl in Hi. by simplify_eq.
    - destruct (lookup_lt_is_Some_2 block i) as [a Ha];
        [apply lookup_lt_Some in Hi; lia|].
      destruct (lookup_lt_is_Some_2 block j) as [a' Ha'];
        [apply lookup_lt_Some in Hj; lia|].
      destruct (Hsteps i a x Ha Hi) as [Hchain _].
      destruct (Hsteps j a' x Ha' Hj) as [Hchain' _].
      rewrite (chain_inj_l p a a' x Hchain Hchain') in Ha.
      apply (IH j a'); [lia | done..]. }
  apply NoDup_alt. intros i j x Hi Hj.
  destruct (Nat.lt_total i j) as [?|[?|?]]; [|done|]; exfalso; by eauto.
Qed.

Lemma steps_rtc p (block : list nat) i x :
  (∀ i a b, block !! i = Some a → block !! S i = Some b → chain p a b) →
  block !! i = Some x → ∃ block_begin, block !! 0 = Some block_begin ∧
                                        rtc (chain p) block_begin x.
Proof.
  intros Hsteps. revert x. induction i as [|i IH]; intros x Hi; [by exists x|].
  destruct (lookup_lt_is_Some_2 block i) as [a Ha]; [apply lookup_lt_Some in Hi; lia|].
  destruct (IH a Ha) as (block_begin & ? & ?). exists block_begin. split; [done|].
  eapply rtc_r; [done|]. by eapply Hsteps.
Qed.
Lemma tc_last {A} (R : relation A) x z : tc R x z → ∃ y, rtc R x y ∧ R y z.
Proof.
  revert z. apply tc_ind_r.
  - intros z ?. by exists x.
  - intros y z Hxy ? _. exists y. split; [by apply tc_rtc | done].
Qed.

Lemma tc_first {A} (R : relation A) x z : tc R x z → ∃ y, R x y ∧ rtc R y z.
Proof. intros [? ? ?|? y ? ? ?%tc_rtc]; [by eexists | by exists y]. Qed.

(** Walking back from [x], there is one instruction that begins the block. *)
Lemma begin_unique p block_begin block_begin' x :
  has_to_be_block_begin p block_begin = Some true →
  has_to_be_block_begin p block_begin' = Some true →
  rtc (chain p) block_begin x → rtc (chain p) block_begin' x → block_begin = block_begin'.
Proof.
  intros Hbegin Hbegin' Hpath. revert x Hpath block_begin' Hbegin'.
  apply (rtc_ind_r (λ x, ∀ block_begin', _ → rtc (chain p) block_begin' x → _)).
  - intros block_begin' ? [?|(y & _ & [? _])]%rtc_inv_r; [done | congruence].
  - intros y x _ Hchain IH block_begin' Hbegin' [->|(y' & Hpath' & Hchain')]%rtc_inv_r.
    + destruct Hchain as [? _]. congruence.
    + rewrite <-(chain_inj_l p y y' x Hchain Hchain') in Hpath'. by apply IH.
Qed.

(** No instruction that begins a block leads into a loop without entry. *)
Lemma loop_no_begin p block_begin x :
  rtc (chain p) block_begin x → isolated_loop p x →
  has_to_be_block_begin p block_begin = Some false.
Proof.
  unfold isolated_loop. revert x. apply (rtc_ind_r (λ x, tc (chain p) x x → _)).
  - by intros (y & _ & [? _])%tc_last.
  - intros y x _ Hchain IH (y' & Hpath & Hchain')%tc_last. apply IH.
    rewrite <-(chain_inj_l p y y' x Hchain Hchain') in Hpath.
    eapply tc_rtc_r; [by apply tc_once | done].
Qed.

Lemma loop_rotate p a x :
  edge_consistent p → rtc (chain p) a x → isolated_loop p a →
  isolated_loop p x ∧ rtc (chain p) x a.
Proof.
  intros Hedge. unfold isolated_loop. revert a.
  apply (rtc_ind_l (λ a, tc (chain p) a a → tc (chain p) x x ∧ rtc (chain p) x a)).
  - by split.
  - intros a y Hchain _ IH (y' & Hchain' & Hpath)%tc_first.
    rewrite <-(chain_inj_r p a y y' Hedge Hchain Hchain') in Hpath.
    destruct IH as [? ?]; [by eapply tc_rtc_l, tc_once|].
    split; [done | by etrans].
Qed.

Lemma block_walk_elements fuel p block_begin block x :
  edge_consistent p →
  block_walk fuel p block_begin block_begin = Some block →
  x ∈ block ↔ rtc (chain p) block_begin x.
Proof.
  intros Hedge Hwalk. pose proof Hwalk as [rest ->]%block_walk_head. split.
  - intros [i Hi]%list_elem_of_lookup.
    destruct (steps_rtc p (block_begin :: rest) i x) as (? & [= <-] & ?); [|done..].
    intros ? a b ? ?. by eapply block_walk_steps.
  - revert x. apply rtc_ind_r; [by left|]. intros y x _ Hchain Hy.
    destruct (decide (x = block_begin)) as [->|?]; [by left|].
    by eapply block_walk_closed.
Qed.

Lemma get_instructions_in_block_unfold p representative block :
  get_instructions_in_block p representative = Some block ↔
  ∃ block_begin,
    get_first_instruction_in_block p representative = Some block_begin ∧
    block_walk (block_fuel p) p block_begin block_begin = Some block.
Proof.
  unfold get_instructions_in_block.
  destruct (get_first_instruction_in_block p representative) as [block_begin|]; simpl.
  - split; [by exists block_begin | by intros (? & [= <-] & ?)].
  - split; [done | by intros (? & ? & ?)].
Qed.

Lemma block_walk_begin_is_Some p block_begin :
  sound p → is_Some (instructions p !! block_begin) →
  is_Some (block_walk (block_fuel p) p block_begin block_begin).
Proof.
  intros Hsound Hlive. apply (block_walk_is_Some _ p block_begin block_begin ∅); try done.
  - set_solver.
  - unfold block_fuel. rewrite size_empty. lia.
Qed.

Lemma block_walk_live fuel p block_begin current block x :
  block_walk fuel p block_begin current = Some block → x ∈ block →
  is_Some (instructions p !! x).
Proof.
  revert current block. induction fuel as [|fuel IH]; [done|].
  intros current block. simpl.
  destruct (get_next_instruction_in_block p current block_begin) as [next|] eqn:Hnext;
    [|done].
  assert (is_Some (instructions p !! current)) as Hcurrent.
  { unfold get_next_instruction_in_block in Hnext.
    destruct (instructions p !! current); [by eexists | done]. }
  simpl. destruct next as [next|].
  - destruct (block_walk fuel p block_begin next) as [rest|] eqn:Hrest; simpl; [|done].
    intros [= <-] [->|?]%elem_of_cons; [done | by eapply IH].
  - by intros [= <-] ->%list_elem_of_singleton.
Qed.
Example example_isolated_loop_constructed : constructed example_isolated_loop.
Proof.
  apply (builder_calls_constructed build_isolated_loop empty_procedure); [constructor|].
  vm_compute. reflexivity.
Qed.

(** X14. On a procedure that keeps the invariants,
    [get_first_instruction_in_block] returns for a live representative:
    either an instruction that has to begin a block and from which a straight
    line leads to the representative, or the representative itself, which
    then lies on a loop without entry or exit. *)
Theorem get_first_instruction_in_block_spec p representative :
  sound p → is_Some (instructions p !! representative) →
  ∃ block_begin,
    get_first_instruction_in_block p representative = Some block_begin ∧
    ((has_to_be_block_begin p block_begin = Some true ∧
      rtc (chain p) block_begin representative) ∨
     (block_begin = representative ∧ isolated_loop p representative)).
Proof.
  intros [Hwf Hedge _ _ _] Hlive.
  destruct (get_first_instruction_in_block_is_Some p representative Hwf Hedge Hlive)
    as [block_begin Hfirst].
  exists block_begin. split; [done|].
  apply first_instruction_walk_result in Hfirst as [?|[-> ?]]; [by left | by right].
Qed.

Lemma get_first_instruction_in_block_spec_witness :
  ∃ block_begin,
    get_first_instruction_in_block example_loop 2 = Some block_begin ∧
    ((has_to_be_block_begin example_loop block_begin = Some true ∧
      rtc (chain example_loop) block_begin 2) ∨
     (block_begin = 2 ∧ isolated_loop example_loop 2)).
Proof.
  apply (get_first_instruction_in_block_spec example_loop 2).
  - apply constructed_sound, example_loop_constructed.
  - vm_compute. eauto.
Defined.

Lemma block_defined p representative :
  sound p → is_Some (instructions p !! representative) →
  ∃ block_begin rest,
    get_instructions_in_block p representative = Some (block_begin :: rest) ∧
    representative ∈ block_begin :: rest ∧
    NoDup (block_begin :: rest).
Proof.
  intros Hsound Hlive. pose proof Hsound as [Hwf Hedge _ _ _].
  destruct (get_first_instruction_in_block_is_Some p representative Hwf Hedge Hlive)
    as [block_begin Hfirst].
  assert (is_Some (instructions p !! block_begin)) as Hbegin.
  { pose proof Hfirst as [[_ Hpath]|[-> _]]%first_instruction_walk_result; [|done].
    apply rtc_inv in Hpath as [->|(y & [? _]%chain_live & _)]; done. }
  destruct (block_walk_begin_is_Some p block_begin Hsound Hbegin) as [block Hwalk].
  pose proof Hwalk as [rest ->]%block_walk_head.
  exists block_begin, rest. split_and!.
  - apply get_instructions_in_block_unfold. by exists block_begin.
  - pose proof Hfirst as [[_ Hpath]|[-> _]]%first_instruction_walk_result; [|by left].
    by apply (block_walk_elements _ p block_begin _ representative Hedge Hwalk).
  - apply (steps_NoDup p). intros i a b ? ?. by eapply block_walk_steps.
Qed.

(** X15. On a procedure that keeps the invariants,
    [get_instructions_in_block] returns a block for a live representative:
    it starts with the instruction found by [get_first_instruction_in_block],
    it contains the representative, and no instruction occurs in it twice. *)
Theorem get_instructions_in_block_spec p representative :
  sound p → is_Some (instructions p !! representative) →
  ∃ block_begin rest,
    get_first_instruction_in_block p representative = Some block_begin ∧
    get_instructions_in_block p representative = Some (block_begin :: rest) ∧
    representative ∈ block_begin :: rest ∧
    NoDup (block_begin :: rest).
Proof.
  intros Hsound Hlive.
  destruct (block_defined p representative Hsound Hlive)
    as (block_begin & rest & Hblock & Hmember & Hdistinct).
  exists block_begin, rest. split_and!; [|done..].
  apply get_instructions_in_block_unfold in Hblock as (block_begin' & Hfirst & Hwalk).
  by apply block_walk_head in Hwalk as (? & [= <- _]).
Qed.

Lemma get_instructions_in_block_spec_witness :
  ∃ block_begin rest,
    get_first_instruction_in_block example_identity 1 = Some block_begin ∧
    get_instructions_in_block example_identity 1 = Some (block_begin :: rest) ∧
    1 ∈ block_begin :: rest ∧
    NoDup (block_begin :: rest).
Proof.
  apply (get_instructions_in_block_spec example_identity 1).
  - apply constructed_sound, example_identity_constructed.
  - vm_compute. eauto.
Defined.

(** X16. Two instructions that follow each other in a block are in a straight
    line: the second is the [next] of the first, the first is the only
    predecessor of the second, and the second does not have to begin a
    block. *)
Theorem block_is_straight_line p representative block i a b :
  edge_consistent p →
  get_instructions_in_block p representative = Some block →
  block !! i = Some a → block !! S i = Some b →
  (∃ object, instructions p !! a = Some object ∧ next_of (payload object) = Some b) ∧
  (∃ object, instructions p !! b = Some object ∧ prev_ object = [a]) ∧
  has_to_be_block_begin p b = Some false.
Proof.
  intros Hedge (block_begin & _ & Hwalk)%get_instructions_in_block_unfold Ha Hb.
  destruct (block_walk_steps _ p block_begin block_begin block i a b Hedge Hwalk Ha Hb)
    as [Hchain _].
  split; [by apply chain_next|]. destruct Hchain as [? ?]. by split.
Qed.

Lemma block_is_straight_line_witness :
  (∃ object, instructions example_identity !! 0 = Some object ∧
             next_of (payload object) = Some 1) ∧
  (∃ object, instructions example_identity !! 1 = Some object ∧ prev_ object = [0]) ∧
  has_to_be_block_begin example_identity 1 = Some false.
Proof.
  apply (block_is_straight_line example_identity 2 [0; 1; 2] 0 0 1).
  - apply constructed_sound, example_identity_constructed.
  - vm_compute. reflexivity.
  - reflexivity.
  - reflexivity.
Defined.

(** X17. A block is not left before it has to be: its last instruction is a
    return or a branch instruction or has no [next], or its [next] is the
    first instruction of the block, or its [next] has to begin a block. *)
Theorem block_is_maximal p representative block_begin rest instruction :
  get_instructions_in_block p representative = Some (block_begin :: rest) →
  last (block_begin :: rest) = Some instruction →
  ∃ object,
    instructions p !! instruction = Some object ∧
    (next_of (payload object) = None ∨
     next_of (payload object) = Some block_begin ∨
     ∃ next, next_of (payload object) = Some next ∧
             has_to_be_block_begin p next = Some true).
Proof.
  intros (block_begin' & _ & Hwalk)%get_instructions_in_block_unfold Hlast.
  pose proof Hwalk as (? & [= <- _])%block_walk_head.
  apply get_next_instruction_in_block_None. by eapply block_walk_last.
Qed.

Lemma block_is_maximal_witness :
  ∃ object,
    instructions example_loop !! 2 = Some object ∧
    (next_of (payload object) = None ∨
     next_of (payload object) = Some 1 ∨
     ∃ next, next_of (payload object) = Some next ∧
             has_to_be_block_begin example_loop next = Some true).
Proof.
  apply (block_is_maximal example_loop 1 1 [2] 2).
  - vm_compute. reflexivity.
  - reflexivity.
Defined.

Lemma block_members_same p representative block x :
  sound p →
  get_instructions_in_block p representative = Some block → x ∈ block →
  ∃ block',
    get_instructions_in_block p x = Some block' ∧
    (∀ y, y ∈ block' ↔ y ∈ block) ∧
    (block' = block ∨ isolated_loop p representative).
Proof.
  intros Hsound (block_begin & Hfirst & Hwalk)%get_instructions_in_block_unfold Hx.
  pose proof Hsound as [Hwf Hedge _ _ _].
  assert (rtc (chain p) block_begin x) as Hpath
    by by apply (block_walk_elements _ p block_begin block x Hedge Hwalk).
  assert (is_Some (instructions p !! x)) as Hlive by by eapply block_walk_live.
  destruct (block_defined p x Hsound Hlive) as (block_begin' & rest' & Hblock' & _ & _).
  exists (block_begin' :: rest'). split; [done|].
  apply get_instructions_in_block_unfold in Hblock' as (? & Hfirst' & Hwalk').
  pose proof Hwalk' as (? & [= <- _])%block_walk_head.
  apply first_instruction_walk_result in Hfirst as [[Hbegin _]|[-> Hloop]].
  - assert (block_begin' = block_begin) as ->.
    { apply first_instruction_walk_result in Hfirst' as [[Hbegin' Hpath']|[-> Hloop']].
      - by apply (begin_unique p block_begin' block_begin x).
      - pose proof (loop_no_begin p block_begin x Hpath Hloop'). congruence. }
    rewrite Hwalk in Hwalk'. injection Hwalk' as <-. by split; [|left].
  - destruct (loop_rotate p representative x Hedge Hpath Hloop) as [Hloop_x Hback].
    assert (block_begin' = x) as ->.
    { apply first_instruction_walk_result in Hfirst' as [[Hbegin' Hpath']|[-> _]]; [|done].
      pose proof (loop_no_begin p block_begin' x Hpath' Hloop_x). congruence. }
    split; [|by right]. intros y.
    rewrite (block_walk_elements _ p x _ y Hedge Hwalk').
    rewrite (block_walk_elements _ p representative _ y Hedge Hwalk).
    split; intros ?; by etrans.
Qed.

(** X18. The blocks partition the instructions: every instruction of the block
    of a representative has that block as its own block.  Only for a loop
    without entry or exit, which is broken up at the representative, the block
    of another instruction of the loop starts elsewhere; it still has the
    same instructions. *)
Theorem blocks_partition p representative block x :
  sound p →
  get_instructions_in_block p representative = Some block → x ∈ block →
  ∃ block',
    get_instructions_in_block p x = Some block' ∧
    block' ≡ₚ block ∧
    (block' = block ∨ isolated_loop p representative).
Proof.
  intros Hsound Hblock Hx.
  destruct (block_members_same p representative block x Hsound Hblock Hx)
    as (block' & Hblock' & Hsame & Hcases).
  exists block'. split_and!; [done| |done].
  assert (∀ a block_a, get_instructions_in_block p a = Some block_a → NoDup block_a)
    as Hdistinct.
  { intros a block_a (block_begin & _ & Hwalk)%get_instructions_in_block_unfold.
    pose proof Hwalk as [rest ->]%block_walk_head.
    apply (steps_NoDup p). intros i c d ? ?.
    by eapply block_walk_steps; [apply Hsound|..]. }
  apply NoDup_Permutation; [by eapply Hdistinct..|done].
Qed.

Lemma blocks_partition_witness :
  ∃ block',
    get_instructions_in_block example_isolated_loop 2 = Some block' ∧
    block' ≡ₚ [1; 2] ∧
    (block' = [1; 2] ∨ isolated_loop example_isolated_loop 1).
Proof.
  apply (blocks_partition example_isolated_loop 1 [1; 2] 2).
  - apply constructed_sound, example_isolated_loop_constructed.
  - vm_compute. reflexivity.
  - set_solver.
Defined.
(** ** Reading the text of a variable *)

Lemma pretty_N_char_digit x : is_digit (pretty_N_char x).
Proof.
  unfold is_digit, pretty_N_char.
  repeat case_match; repeat first [apply list_elem_of_here | apply list_elem_of_further].
Qed.

Lemma pretty_N_go_digits x s : all_digits s → all_digits (pretty_N_go x s).
Proof.
  revert s. induction (N.lt_wf_0 x) as [x _ IH]; intros s Hs.
  destruct (decide (0 < x)%N) as [Hpos|Hzero].
  - rewrite pretty_N_go_step by done. apply IH; [by apply N.div_lt|].
    split; [apply pretty_N_char_digit | done].
  - assert (x = 0%N) as -> by lia. by rewrite pretty_N_go_0.
Qed.

Lemma pretty_nat_digits (n : nat) : all_digits (pretty n).
Proof.
  unfold pretty, pretty_nat, pretty, pretty_N. case_decide.
  - split; [|done]. apply list_elem_of_here.
  - by apply pretty_N_go_digits.
Qed.

Lemma append_nil_l s : EmptyString +:+ s = s.
Proof. done. Qed.

Lemma append_cons c s t : String c s +:+ t = String c (s +:+ t).
Proof. done. Qed.

Lemma digits_split d1 d2 s1 s2 :
  all_digits d1 → all_digits d2 → no_digit_ahead s1 → no_digit_ahead s2 →
  d1 +:+ s1 = d2 +:+ s2 → d1 = d2 ∧ s1 = s2.
Proof.
  revert d2. induction d1 as [|c1 d1 IH]; intros [|c2 d2];
    rewrite ?append_nil_l, ?append_cons; simpl.
  - done.
  - intros _ [? _] Hahead _ ->. by destruct Hahead.
  - intros [? _] _ _ Hahead <-. by destruct Hahead.
  - intros [_ ?] [_ ?] ? ? [= -> Hrest]. destruct (IH d2) as [-> ->]; done.
Qed.

Lemma append_empty_r s : s +:+ EmptyString = s.
Proof. induction s as [|c s IH]; [done | by rewrite append_cons, IH]. Qed.

Lemma append_length s t : String.length (s +:+ t) = String.length s + String.length t.
Proof. induction s as [|c s IH]; [done | rewrite append_cons; simpl; by rewrite IH]. Qed.

Lemma append_inj_r s1 s2 t : s1 +:+ t = s2 +:+ t → s1 = s2.
Proof.
  revert s2. induction s1 as [|c1 s1 IH]; intros [|c2 s2];
    rewrite ?append_nil_l, ?append_cons; [done|..].
  - intros Heq. apply (f_equal String.length) in Heq. simpl in Heq.
    rewrite append_length in Heq. lia.
  - intros Heq. apply (f_equal String.length) in Heq. simpl in Heq.
    rewrite append_length in Heq. lia.
  - intros [= -> ?]. f_equal. by apply IH.
Qed.

Lemma name_suffix_no_digit_ahead object : no_digit_ahead (name_suffix object).
Proof.
  unfold name_suffix. case_decide; rewrite ?append_cons; simpl; [done|]. unfold is_digit.
  intros Hin. repeat (apply elem_of_cons in Hin as [?|Hin]; [done|]).
  by apply elem_of_nil in Hin.
Qed.

Lemma name_suffix_inj object1 object2 :
  name_suffix object1 = name_suffix object2 → name_ object1 = name_ object2.
Proof.
  unfold name_suffix. do 2 case_decide; rewrite ?append_cons, ?append_nil_l;
    try done; [congruence|].
  intros [= Heq]. by apply append_inj_r in Heq.
Qed.

Lemma variable_to_string_text p variable object :
  variable_store p !! variable = Some object →
  variable_to_string p (Some variable) EmptyString
  = Some (String "$" (pretty (id_ object) +:+ name_suffix object)).
Proof.
  intros Hobject. unfold variable_to_string, name_suffix. rewrite Hobject. simpl.
  rewrite !append_nil_l, !append_cons, !append_nil_l.
  case_decide; [by rewrite append_empty_r | done].
Qed.

Lemma variable_to_string_reads p variable1 variable2 object1 object2 text :
  variable_store p !! variable1 = Some object1 →
  variable_store p !! variable2 = Some object2 →
  variable_to_string p (Some variable1) EmptyString = Some text →
  variable_to_string p (Some variable2) EmptyString = Some text →
  id_ object1 = id_ object2 ∧ name_ object1 = name_ object2.
Proof.
  intros Hobject1 Hobject2.
  rewrite (variable_to_string_text p variable1 object1 Hobject1).
  rewrite (variable_to_string_text p variable2 object2 Hobject2).
  intros [= <-] [= Heq].
  apply digits_split in Heq as [Hid Hname];
    try apply pretty_nat_digits; try apply name_suffix_no_digit_ahead.
  split; [by apply (inj pretty) | by apply name_suffix_inj].
Qed.

(** X19. The text of a variable tells which variable it is: in a procedure
    whose variables have their positions in [variables_] as identifiers, as
    the builder makes them, two variable pointers, null or not, for which
    [variable_to_string] writes the same characters are the same pointer. *)
Theorem variable_to_string_inj p variable1 variable2 text :
  registered p →
  variable_to_string p variable1 EmptyString = Some text →
  variable_to_string p variable2 EmptyString = Some text →
  variable1 = variable2.
Proof.
  intros [_ _ Hvariables Hids] Htext1 Htext2.
  assert (∀ v, variable_to_string p (Some v) EmptyString = Some text →
               ∃ object i, variable_store p !! v = Some object ∧
                           variables_ p !! i = Some v ∧ id_ object = i ∧
                           ∃ rest, text = String "$" rest) as Hlive.
  { intros v Hv. destruct (variable_store p !! v) as [object|] eqn:Hobject;
      [|simpl in Hv; by rewrite Hobject in Hv].
    destruct (proj1 (list_elem_of_lookup (variables_ p) v)) as [i Hi];
      [apply Hvariables; by eexists|].
    destruct (Hids i v Hi) as (object' & Hobject' & Hid).
    rewrite Hobject in Hobject'. injection Hobject' as <-.
    exists object, i. split_and!; [done..|].
    rewrite (variable_to_string_text p v object Hobject) in Hv. injection Hv as <-.
    by eexists. }
  destruct variable1 as [v1|], variable2 as [v2|]; [| | |done].
  - destruct (Hlive v1 Htext1) as (object1 & i1 & Hobject1 & Hi1 & Hid1 & _).
    destruct (Hlive v2 Htext2) as (object2 & i2 & Hobject2 & Hi2 & Hid2 & _).
    destruct (variable_to_string_reads p v1 v2 object1 object2 text) as [Hid _]; [done..|].
    rewrite <-Hid1, Hid, Hid2 in Hi1. rewrite Hi2 in Hi1. by injection Hi1 as ->.
  - destruct (Hlive v1 Htext1) as (_ & _ & _ & _ & _ & rest & ->). by simpl in Htext2.
  - destruct (Hlive v2 Htext2) as (_ & _ & _ & _ & _ & rest & ->). by simpl in Htext1.
Qed.

Lemma variable_to_string_inj_witness : Some 1 = Some 1.
Proof.
  apply (variable_to_string_inj example_identity (Some 1) (Some 1) "$1").
  - apply constructed_registered, example_identity_constructed.
  - vm_compute. reflexivity.
  - vm_compute. reflexivity.
Defined.

(** ** The text of a call instruction, in one piece *)

Lemma append_assoc s t u : (s +:+ t) +:+ u = s +:+ t +:+ u.
Proof. induction s as [|c s IH]; [done | by rewrite !append_cons, IH]. Qed.

Lemma variable_to_string_appends p variable ss :
  variable_live p variable →
  variable_to_string p variable ss = Some (ss +:+ variable_text p variable).
Proof.
  intros Hlive. destruct variable as [v|]; simpl; [|done].
  destruct (Hlive v eq_refl) as [object ->]. simpl. unfold name_suffix.
  case_decide; [by rewrite append_empty_r|]. by rewrite !append_assoc.
Qed.

Lemma params_to_string_joins p fn params index len ss :
  length params = param_amount fn → index + len = param_amount fn →
  (∀ V, V ∈ omap id params → is_Some (variable_store p !! V)) →
  params_to_string p fn params (seq index len) ss
  = Some (ss +:+ String.concat ", " (param_text p fn params <$> seq index len)).
Proof.
  intros Hlength Hend Hlive. revert index ss Hend.
  induction len as [|len IH]; intros index ss Hend; [by rewrite append_empty_r|].
  cbn [seq params_to_string fmap list_fmap].
  destruct (param_type_is_Some fn index) as [param_type' Htype]; [lia|].
  destruct (lookup_lt_is_Some_2 params index) as [variable Hvariable]; [lia|].
  assert (param_text p fn params index
          = interface_type_to_string (interface_type param_type') +:+ " " +:+
            variable_text p variable) as Htext
    by (unfold param_text; by rewrite Htype, Hvariable).
  rewrite Htype, Hvariable. cbn [mbind option_bind].
  rewrite variable_to_string_appends; last first.
  { intros V ->. apply Hlive, list_elem_of_omap. exists (Some V). split; [|done].
    by eapply list_elem_of_lookup_2. }
  cbn [mbind option_bind]. rewrite (IH (S index)) by lia. f_equal.
  destruct len as [|len].
  - rewrite decide_False by lia. simpl. rewrite Htext, append_empty_r.
    by rewrite !append_assoc.
  - rewrite decide_True by lia. cbn [seq fmap list_fmap String.concat]. rewrite Htext.
    by rewrite !append_assoc.
Qed.

(** X20. The text of a call instruction is the name of the function, the
    characters [ - ], and the parameters in their order, joined by a comma and
    a space: each parameter as [in], [mut] or [out], a space and the text of
    its variable.  This holds on a call whose parameter vector has the length
    that the function asks for and holds no dangling pointer. *)
Theorem call_instruction_to_string p fn next params ss :
  length params = param_amount fn →
  (∀ V, V ∈ omap id params → is_Some (variable_store p !! V)) →
  instruction_to_string p (CallData fn next params) ss
  = Some (ss +:+ name fn +:+ " - " +:+
          String.concat ", " (param_text p fn params <$> param_indices fn)).
Proof.
  intros Hlength Hlive. simpl. unfold param_indices.
  rewrite (params_to_string_joins p fn params 0 (param_amount fn)) by done.
  by rewrite !append_assoc.
Qed.

Lemma call_instruction_to_string_witness :
  instruction_to_string example_shared_input
    (CallData example_G (Some 1) [Some 0; Some 0; Some 1]) EmptyString
  = Some ("G - in $0, in $0, out $1").
Proof.
  rewrite (call_instruction_to_string example_shared_input example_G (Some 1)
             [Some 0; Some 0; Some 1] EmptyString).
  - vm_compute. reflexivity.
  - reflexivity.
  - intros V HV. vm_compute in HV.
    repeat (apply elem_of_cons in HV as [->|HV]; [vm_compute; eauto|]).
    by apply elem_of_nil in HV.
Defined.
(** ** The text of variables and instructions *)

Lemma variable_to_string_is_Some p variable ss :
  variable_live p variable → is_Some (variable_to_string p variable ss).
Proof.
  intros Hlive. destruct variable as [v|]; simpl; [|by eexists].
  destruct (Hlive v eq_refl) as [object ->]. simpl. case_decide; by eexists.
Qed.

Lemma params_to_string_is_Some p fn params indices ss :
  (∀ i, i ∈ indices → i < param_amount fn) →
  length params = param_amount fn →
  (∀ V, V ∈ omap id params → is_Some (variable_store p !! V)) →
  is_Some (params_to_string p fn params indices ss).
Proof.
  intros Hindices Hlength Hlive. revert ss Hindices.
  induction indices as [|i indices IH]; intros ss Hindices; simpl; [by eexists|].
  destruct (param_type_is_Some fn i) as [param_type' ->]; [apply Hindices; by left|]. simpl.
  destruct (lookup_lt_is_Some_2 params i) as [variable Hvariable];
    [rewrite Hlength; apply Hindices; by left|].
  rewrite Hvariable. simpl.
  destruct (variable_to_string_is_Some p variable
              (ss +:+ interface_type_to_string (interface_type param_type') +:+ " "))
    as [ss' ->].
  { intros V ->. apply Hlive. apply list_elem_of_omap. exists (Some V). split; [|done].
    by eapply list_elem_of_lookup_2. }
  simpl. apply IH. intros j ?. apply Hindices. by right.
Qed.

Lemma instruction_to_string_is_Some p a object ss :
  sound p → instructions p !! a = Some object →
  is_Some (instruction_to_string p (payload object) ss).
Proof.
  intros [Hwf _ _ Hlive _] Hobject. destruct (Hlive a object Hobject) as [_ Hvariables].
  destruct (payload object) as [fn next params|condition ? ?|variable next|next|] eqn:Hpayload;
    simpl in *; try by eexists.
  - apply params_to_string_is_Some; [|by eapply (wf_params p Hwf)|done].
    intros i. apply elem_of_param_indices.
  - apply variable_to_string_is_Some. intros V ->. apply Hvariables. by left.
  - apply variable_to_string_is_Some. intros V ->. apply Hvariables. by left.
Qed.

(** ** [to_dot] *)

(** The inner loop marks the instructions of the block. *)
Lemma block_to_string_is_Some p block handled ss :
  sound p → NoDup block →
  (∀ x, x ∈ block → (x ∉ handled) ∧ is_Some (instructions p !! x)) →
  ∃ ss', for_each (block_instruction_to_string p) block (handled, ss)
         = Some (list_to_set block ∪ handled, ss').
Proof.
  intros Hsound. revert handled ss.
  induction block as [|current block IH]; intros handled ss Hdistinct Hblock; simpl.
  { exists ss. f_equal. f_equal. set_solver. }
  apply NoDup_cons in Hdistinct as [Hcurrent Hdistinct].
  destruct (Hblock current) as [Hfresh [object Hobject]]; [by left|].
  destruct (instruction_to_string_is_Some p current object ss Hsound Hobject) as [ss' Hss'].
  assert (block_instruction_to_string p current (handled, ss)
          = Some ({[current]} ∪ handled, ss' +:+ "\l")) as ->.
  { unfold block_instruction_to_string, Set_add_new. simpl.
    rewrite decide_False by done. simpl. rewrite Hobject. simpl. by rewrite Hss'. }
  simpl.
  destruct (IH ({[current]} ∪ handled) (ss' +:+ "\l") Hdistinct) as [ss'' ->].
  - intros x Hx. destruct (Hblock x) as [? ?]; [by right|]. split; [|done].
    intros [->%elem_of_singleton|?]%elem_of_union; done.
  - exists ss''. f_equal. f_equal. set_solver.
Qed.

(** The targets of a branch instruction have to begin a block. *)
Lemma branch_target_begins_block p a object target :
  sound p → instructions p !! a = Some object → type_ object = Branch →
  target ∈ successors (payload object) →
  has_to_be_block_begin p target = Some true.
Proof.
  intros Hsound Hobject Hbranch Htarget. pose proof Hsound as [Hwf Hedge _ Hlive _].
  destruct (has_to_be_block_begin_is_Some p target Hwf) as [[] Hbegin]; [|done|].
  { by eapply (Hlive a object Hobject). }
  apply has_to_be_block_begin_false in Hbegin
    as (_ & object' & q & object_q & Htarget' & Hprev & Hq & Htype).
  destruct (sound_edges_mirrored p Hsound a target) as (object'' & ? & Hin);
    [by exists object|].
  simplify_eq. rewrite Hprev in Hin. apply list_elem_of_singleton in Hin as ->.
  by simplify_eq.
Qed.

Lemma for_each_is_Some {A S} (body : A → S → option S) xs state :
  (∀ x state, x ∈ xs → is_Some (body x state)) → is_Some (for_each body xs state).
Proof.
  revert state. induction xs as [|x xs IH]; intros state Hbody; simpl; [by eexists|].
  destruct (Hbody x state) as [state' ->]; [by left|]. simpl.
  apply IH. intros y state'' ?. apply Hbody. by right.
Qed.

Lemma block_members_not_begin p representative block_begin rest x :
  edge_consistent p →
  get_instructions_in_block p representative = Some (block_begin :: rest) →
  x ∈ rest → has_to_be_block_begin p x = Some false.
Proof.
  intros Hedge (block_begin' & _ & Hwalk)%get_instructions_in_block_unfold
         [i Hi]%list_elem_of_lookup.
  destruct (lookup_lt_is_Some_2 (block_begin :: rest) i) as [a Ha];
    [apply lookup_lt_Some in Hi; simpl; lia|].
  destruct (block_walk_steps _ p block_begin' block_begin' (block_begin :: rest) i a x
              Hedge Hwalk Ha Hi) as [[? _] _].
  done.
Qed.

(** One iteration of the first loop. *)
Lemma to_dot_block_invariant p representative state :
  sound p → is_Some (instructions p !! representative) →
  dot_invariant p state →
  ∃ state',
    to_dot_block p representative state = Some state' ∧
    dot_invariant p state' ∧
    representative ∈ handled_instructions state' ∧
    handled_instructions state ⊆ handled_instructions state'.
Proof.
  intros Hsound Hlive Hinv. unfold to_dot_block.
  destruct (decide (representative ∈ handled_instructions state)) as [?|Hnew];
    [by exists state|].
  destruct (block_defined p representative Hsound Hlive)
    as (block_begin & rest & Hblock & Hmember & Hdistinct).
  rewrite Hblock.
  assert (head (block_begin :: rest) = Some block_begin) as Hhead by done.
  destruct (last_is_Some (block_begin :: rest)) as [_ [block_end Hend]]; [done|].
  assert (∀ x, x ∈ rest → has_to_be_block_begin p x = Some false) as Hrest.
  { intros x Hx.
    exact (block_members_not_begin p representative block_begin rest x
             (sound_edge_consistent p Hsound) Hblock Hx). }
  remember (block_begin :: rest) as block eqn:Hcons.
  assert (block_begin ∈ block) as Hbegin_member by (subst block; by left).
  assert (block_end ∈ block) as Hend_member.
  { apply last_Some in Hend as [prefix ->]. set_solver. }
  assert (∀ x, x ∈ block → x ∉ handled_instructions state) as Hfresh.
  { intros x Hx Hhandled.
    destruct (block_members_same p representative block x Hsound Hblock Hx)
      as (block' & Hblock' & Hsame & _).
    apply Hnew. eapply (dot_closed p state Hinv x block'); [done..|]. by apply Hsame. }
  destruct (block_to_string_is_Some p block (handled_instructions state) EmptyString
              Hsound Hdistinct) as [ss Hss].
  { intros x Hx. split; [by apply Hfresh|].
    apply get_instructions_in_block_unfold in Hblock as (? & _ & Hwalk).
    by eapply block_walk_live. }
  simpl. rewrite Hss. simpl. rewrite Hhead. simpl.
  unfold Map_add_new. rewrite decide_False; last first.
  { intros ?%(dot_begin_handled p state Hinv). by apply (Hfresh block_begin). }
  simpl. rewrite Hend. simpl. rewrite decide_False; last first.
  { intros ?%(dot_end_handled p state Hinv). by apply (Hfresh block_end). }
  simpl. eexists. split; [done|]. split_and!; simpl; [|set_solver..].
  split; simpl.
  - intros x block' y [Hx|Hx]%elem_of_union Hblock' Hy.
    + apply elem_of_list_to_set in Hx.
      destruct (block_members_same p representative block x Hsound Hblock Hx)
        as (block'' & Hblock'' & Hsame & _).
      rewrite Hblock' in Hblock''. injection Hblock'' as <-.
      apply elem_of_union. left. by apply elem_of_list_to_set, Hsame.
    + apply elem_of_union. right. by eapply (dot_closed p state Hinv).
  - intros x. rewrite lookup_insert. case_decide as Hx.
    + subst x. intros _. apply elem_of_union. left. by apply elem_of_list_to_set.
    + intros ?%(dot_begin_handled p state Hinv). set_solver.
  - intros x. rewrite lookup_insert. case_decide as Hx.
    + subst x. intros _. apply elem_of_union. left. by apply elem_of_list_to_set.
    + intros ?%(dot_end_handled p state Hinv). set_solver.
  - intros x [Hx|Hx]%elem_of_union Hbegin; rewrite lookup_insert; case_decide; try by eexists.
    + apply elem_of_list_to_set in Hx. rewrite Hcons in Hx.
      apply elem_of_cons in Hx as [->|Hx]; [done|].
      pose proof (Hrest x Hx). congruence.
    + by apply (dot_begins p state Hinv).
  - intros x. rewrite lookup_insert. case_decide as Hx.
    + subst x. intros _. exists representative, block_begin, rest.
      rewrite <-Hcons. split_and!; [done..|]. rewrite lookup_insert_eq. by eexists.
    + intros (representative' & block_begin' & rest' & ? & ? & ?)%(dot_ends p state Hinv).
      exists representative', block_begin', rest'. split_and!; [done..|].
      rewrite lookup_insert. case_decide; [by eexists | done].
Qed.

Lemma to_dot_blocks_invariant p xs state :
  sound p → (∀ x, x ∈ xs → is_Some (instructions p !! x)) →
  dot_invariant p state →
  ∃ state',
    for_each (to_dot_block p) xs state = Some state' ∧
    dot_invariant p state' ∧
    (∀ x, x ∈ xs → x ∈ handled_instructions state') ∧
    handled_instructions state ⊆ handled_instructions state'.
Proof.
  intros Hsound. revert state.
  induction xs as [|x xs IH]; intros state Hlive Hinv; simpl.
  { exists state. split_and!; [done..| |done]. by intros x ?%elem_of_nil. }
  destruct (to_dot_block_invariant p x state Hsound) as (state1 & -> & Hinv1 & Hx & Hgrows);
    [apply Hlive; by left | done |].
  simpl. destruct (IH state1) as (state' & -> & Hinv' & Hxs & Hgrows'); [|done|].
  { intros y ?. apply Hlive. by right. }
  exists state'. split_and!; [done..| |set_solver].
  intros y [->|?]%elem_of_cons; [set_solver | by apply Hxs].
Qed.

Lemma dot_invariant_empty p :
  dot_invariant p {| handled_instructions := ∅; digraph := empty_graph;
                     dot_nodes_by_begin := ∅; dot_nodes_by_end := ∅ |}.
Proof.
  split; simpl.
  - by intros x block y ?%elem_of_empty.
  - intros x [? ?]. by simplify_map_eq.
  - intros x [? ?]. by simplify_map_eq.
  - by intros x ?%elem_of_empty.
  - intros x [? ?]. by simplify_map_eq.
Qed.

Lemma create_edge_is_Some by_begin from_node to_instruction digraph :
  (∀ target, to_instruction = Some target → is_Some (by_begin !! target)) →
  is_Some (create_edge by_begin from_node to_instruction digraph).
Proof.
  intros Htarget. destruct to_instruction as [target|]; simpl; [|by eexists].
  destruct (Htarget target eq_refl) as [to_node ->]. by eexists.
Qed.

Lemma to_dot_edges_is_Some p by_begin block_end from_node digraph :
  sound p →
  (∀ target, is_Some (instructions p !! target) →
             has_to_be_block_begin p target = Some true → is_Some (by_begin !! target)) →
  (∃ representative block_begin rest,
     get_instructions_in_block p representative = Some (block_begin :: rest) ∧
     last (block_begin :: rest) = Some block_end ∧
     is_Some (by_begin !! block_begin)) →
  is_Some (to_dot_edges p by_begin (block_end, from_node) digraph).
Proof.
  intros Hsound Hbegins (representative & block_begin & rest & Hblock & Hlast & Hbegin).
  pose proof Hsound as [_ _ _ Hlive _].
  apply get_instructions_in_block_unfold in Hblock as (block_begin' & _ & Hwalk).
  pose proof Hwalk as (? & [= <- _])%block_walk_head.
  pose proof (block_walk_last _ _ _ _ _ _ Hwalk Hlast)
    as (object & Hobject & Hnext)%get_next_instruction_in_block_None.
  assert (∀ target, target ∈ successors (payload object) →
                    next_of (payload object) = Some target ∨ type_ object = Branch →
                    is_Some (by_begin !! target)) as Htarget.
  { intros target Hin [Hstep|Hbranch].
    - rewrite Hstep in Hnext. destruct Hnext as [?|[[= <-]|(? & [= <-] & ?)]]; [done..|].
      apply Hbegins; [|done]. by eapply (Hlive block_end object Hobject).
    - apply Hbegins; [by eapply (Hlive block_end object Hobject)|].
      by eapply branch_target_begins_block. }
  unfold to_dot_edges. rewrite Hobject. simpl. unfold type_ in Htarget.
  destruct (payload object) as [fn next params|condition branch_true branch_false
                               |variable next|next|]; simpl in *; [| | | |by eexists].
  - destruct (create_edge_is_Some by_begin from_node next digraph) as [[? ?] ->];
      [|by eexists]. intros target ->. apply Htarget; [by left | by left].
  - destruct (create_edge_is_Some by_begin from_node branch_true digraph)
      as [[edge digraph1] ->].
    { intros target ->. apply Htarget; [|by right]. apply elem_of_app. left. by left. }
    simpl.
    destruct (create_edge_is_Some by_begin from_node branch_false
                (set_color edge "#118811" digraph1)) as [[? ?] ->]; [|by eexists].
    intros target ->. apply Htarget; [|by right]. apply elem_of_app. right. by left.
  - destruct (create_edge_is_Some by_begin from_node next digraph) as [[? ?] ->];
      [|by eexists]. intros target ->. apply Htarget; [by left | by left].
  - destruct (create_edge_is_Some by_begin from_node next digraph) as [[? ?] ->];
      [|by eexists]. intros target ->. apply Htarget; [by left | by left].
Qed.

(** X21. [to_dot] runs through on a procedure that keeps the invariants, has
    every instruction in the vector of its class, and whose entry, if set, is
    one of its instructions: no block is handled twice, no key is added to a
    map twice, every lookup of a block by its first instruction finds it, and
    no dangling pointer is followed.  This does not depend on the order in
    which the map hands out its items, and it holds whether or not the
    procedure passes validation. *)
Theorem to_dot_defined items p :
  sound p → registered p →
  (∀ entry, entry_ p = Some entry → is_Some (instructions p !! entry)) →
  (∀ map : gmap nat nat, items map ≡ₚ map_to_list map) →
  is_Some (to_dot items p).
Proof.
  intros Hsound Hregistered Hentry Hitems. pose proof Hsound as [Hwf _ _ _ _].
  destruct (to_dot_blocks_invariant p (all_instructions p)
              {| handled_instructions := ∅; digraph := empty_graph;
                 dot_nodes_by_begin := ∅; dot_nodes_by_end := ∅ |} Hsound)
    as (state & Hloop & Hinv & Hall & _); [|apply dot_invariant_empty|].
  { intros x (class & Hx)%elem_of_all_instructions.
    destruct (instructions_of_type_live p class x Hwf Hx) as (? & ? & _). by eexists. }
  unfold to_dot, to_dot_blocks. rewrite Hloop. simpl.
  assert (∀ target, is_Some (instructions p !! target) →
                    has_to_be_block_begin p target = Some true →
                    is_Some (dot_nodes_by_begin state !! target)) as Hbegins.
  { intros target [object Hobject] ?. apply (dot_begins p state Hinv); [|done].
    apply Hall, elem_of_all_instructions. exists (type_ object).
    by apply (registered_instructions p Hregistered). }
  destruct (for_each_is_Some (to_dot_edges p (dot_nodes_by_begin state))
              (items (dot_nodes_by_end state)) (digraph state)) as [digraph1 ->].
  { intros [block_end from_node] digraph0 Hitem. rewrite Hitems in Hitem.
    apply elem_of_map_to_list in Hitem.
    apply to_dot_edges_is_Some; [done..|].
    apply (dot_ends p state Hinv). by eexists. }
  simpl.
  destruct (create_edge_is_Some (dot_nodes_by_begin state) (length (graph_nodes digraph1))
              (entry_ p)
              (set_shape (length (graph_nodes digraph1)) Circle (new_node "Entry" digraph1).2))
    as [[? ?] Hedge]; [|simpl in *; rewrite Hedge; by eexists].
  intros entry Hentry'. apply Hbegins; [by apply Hentry|].
  unfold has_to_be_block_begin. by rewrite decide_True.
Qed.

Lemma to_dot_defined_witness : is_Some (to_dot map_to_list example_loop).
Proof.
  apply (to_dot_defined map_to_list example_loop).
  - apply constructed_sound, example_loop_constructed.
  - apply constructed_registered, example_loop_constructed.
  - intros entry [= <-]. vm_compute. eauto.
  - done.
Defined.

(** ** The edges that [to_dot] creates *)

Lemma graph_extends_refl graph : graph_extends graph graph.
Proof. intros i node ?. by exists node. Qed.

Lemma graph_extends_trans graph1 graph2 graph3 :
  graph_extends graph1 graph2 → graph_extends graph2 graph3 → graph_extends graph1 graph3.
Proof.
  intros H12 H23 i node Hnode. destruct (H12 i node Hnode) as (node2 & Hnode2 & <-).
  by apply H23.
Qed.

Lemma new_node_extends label graph : graph_extends graph (new_node label graph).2.
Proof. intros i node Hnode. exists node. split; [|done]. by apply lookup_app_l_Some. Qed.

Lemma set_shape_extends node shape graph : graph_extends graph (set_shape node shape graph).
Proof.
  intros i object Hobject. simpl. rewrite list_lookup_alter.
  case_decide; [subst i; rewrite Hobject; by eexists | by exists object].
Qed.

Lemma new_edge_extends from_node to_node graph :
  graph_extends graph (new_edge from_node to_node graph).2.
Proof. intros i node ?. by exists node. Qed.

Lemma pointer_edge_extends state graph graph' to_instruction e :
  graph_extends graph graph' →
  pointer_edge state graph to_instruction e → pointer_edge state graph' to_instruction e.
Proof.
  intros Hextends. destruct to_instruction as [target|]; simpl; [done|].
  intros (node & Hnode & Hlabel). destruct (Hextends _ node Hnode) as (node' & ? & Hlabel').
  exists node'. split; [done | congruence].
Qed.

Lemma dot_edge_extends p state graph graph' e :
  graph_extends graph graph' → dot_edge p state graph e → dot_edge p state graph' e.
Proof.
  intros Hextends [(block_end & object & ? & ? & Hslot)|((node & Hnode & Hlabel) & ? & ?)].
  - left. exists block_end, object. split_and!; [done..|].
    destruct (payload object); simpl in *; [| | | |done].
    + destruct Hslot. split; [by eapply pointer_edge_extends | done].
    + destruct Hslot as [[? ?]|[? ?]]; [left | right];
        (split; [by eapply pointer_edge_extends | done]).
    + destruct Hslot. split; [by eapply pointer_edge_extends | done].
    + destruct Hslot. split; [by eapply pointer_edge_extends | done].
  - right. destruct (Hextends _ node Hnode) as (node' & ? & Hlabel').
    split_and!; [exists node'; split; [done | congruence]
                |by eapply pointer_edge_extends|done].
Qed.

(** What [create_edge] adds to the graph. *)
Lemma create_edge_spec state from_node to_instruction graph edge graph' :
  create_edge (dot_nodes_by_begin state) from_node to_instruction graph
  = Some (edge, graph') →
  graph_extends graph graph' ∧
  edge = length (graph_edges graph) ∧
  ∃ e, graph_edges graph' = graph_edges graph ++ [e] ∧
       edge_from e = from_node ∧ edge_color e = None ∧
       pointer_edge state graph' to_instruction e.
Proof.
  unfold create_edge. destruct to_instruction as [target|]; simpl.
  - destruct (dot_nodes_by_begin state !! target) as [to_node|] eqn:Htarget; [simpl|done].
    intros [= <- <-]. split_and!; [apply new_edge_extends|done|].
    eexists. by split_and!.
  - intros [= <- <-]. split_and!; [|done|].
    + intros i node Hnode. simpl. exists node. split; [|done].
      rewrite list_lookup_alter_ne by (apply lookup_lt_Some in Hnode; lia).
      by apply lookup_app_l_Some.
    + eexists. split_and!; [done..|]. simpl. eexists. split.
      * rewrite list_lookup_alter_eq, list_lookup_middle by done. reflexivity.
      * done.
Qed.

Lemma set_color_last color graph edges e :
  graph_edges graph = edges ++ [e] →
  graph_edges (set_color (length edges) color graph)
  = edges ++ [ {| edge_from := edge_from e; edge_to := edge_to e;
                  edge_color := Some color |} ] ∧
  graph_nodes (set_color (length edges) color graph) = graph_nodes graph.
Proof.
  intros Hedges. split; [|done]. simpl. rewrite Hedges.
  by rewrite <-(Nat.add_0_r (length edges)), alter_app_r.
Qed.

Lemma for_each_invariant {A S} (body : A → S → option S) (P : S → Prop) xs state state' :
  (∀ x state state', x ∈ xs → P state → body x state = Some state' → P state') →
  P state → for_each body xs state = Some state' → P state'.
Proof.
  revert state. induction xs as [|x xs IH]; intros state Hbody Hstate; simpl.
  { by intros [= <-]. }
  destruct (body x state) as [state1|] eqn:Hstep; [simpl|done].
  apply IH; [|by eapply Hbody; [left|..]].
  intros y ? ? ? ? ?. eapply Hbody; [by right|done..].
Qed.

(** The first loop creates no edge. *)
Lemma to_dot_blocks_edges p state : to_dot_blocks p = Some state → graph_edges (digraph state) = [].
Proof.
  unfold to_dot_blocks.
  apply (for_each_invariant _ (λ state, graph_edges (digraph state) = [])); [|done].
  intros representative state0 state1 _ Hempty. unfold to_dot_block.
  case_decide; [by intros [= <-]|].
  destruct (get_instructions_in_block p representative) as [block|]; [simpl|done].
  destruct (for_each _ block _) as [[handled ss]|]; [simpl|done].
  destruct (head block); [simpl|done].
  destruct (Map_add_new _ _ (dot_nodes_by_begin state0)); [simpl|done].
  destruct (last block); [simpl|done].
  destruct (Map_add_new _ _ (dot_nodes_by_end state0)); [simpl|done].
  by intros [= <-].
Qed.

(** One iteration of the loop over the items of [dot_nodes_by_end]. *)
Lemma to_dot_edges_spec p state block_end from_node graph graph' :
  dot_nodes_by_end state !! block_end = Some from_node →
  to_dot_edges p (dot_nodes_by_begin state) (block_end, from_node) graph = Some graph' →
  (∀ e, e ∈ graph_edges graph → dot_edge p state graph e) →
  ∀ e, e ∈ graph_edges graph' → dot_edge p state graph' e.
Proof.
  intros Hend. unfold to_dot_edges.
  destruct (instructions p !! block_end) as [object|] eqn:Hobject; [simpl|done].
  assert (∀ graph1 e, slot_edge state graph1 (payload object) e → edge_from e = from_node →
                      dot_edge p state graph1 e) as Hmine.
  { intros graph1 e Hslot <-. left. by exists block_end, object. }
  destruct (payload object) as [fn next params|condition branch_true branch_false
                               |variable next|next|] eqn:Hpayload;
    [| | | |by intros [= <-]].
  all: try (destruct (create_edge _ from_node next graph) as [[edge graph1]|] eqn:Hcreate;
            [simpl|done]; intros [= <-] Hold e;
            apply create_edge_spec in Hcreate
              as (Hextends & _ & e1 & -> & Hfrom & Hcolor & Hpointer);
            intros [He| ->%list_elem_of_singleton]%elem_of_app;
            [by eapply dot_edge_extends, Hold | by apply Hmine]).
  destruct (create_edge _ from_node branch_true graph) as [[edge1 graph1]|] eqn:Hcreate1;
    [cbn [mbind option_bind]|done].
  apply create_edge_spec in Hcreate1
    as (Hextends1 & -> & e1 & Hedges1 & Hfrom1 & Hcolor1 & Hpointer1).
  destruct (set_color_last "#118811" graph1 _ e1 Hedges1) as [Hedges1' Hnodes1'].
  destruct (create_edge _ from_node branch_false _) as [[edge2 graph2]|] eqn:Hcreate2;
    [cbn [mbind option_bind]|done].
  apply create_edge_spec in Hcreate2
    as (Hextends2 & Hedge2 & e2 & Hedges2 & Hfrom2 & Hcolor2 & Hpointer2).
  rewrite Hedges1' in Hedges2, Hedge2.
  intros Heq Hold e.
  assert (graph' = set_color edge2 "#881111" graph2) as -> by congruence.
  subst edge2.
  destruct (set_color_last "#881111" graph2 _ e2 Hedges2) as [Hedges2' Hnodes2'].
  rewrite Hedges2'.
  assert (graph_extends graph2
            (set_color (length (graph_edges graph ++
               [ {| edge_from := edge_from e1; edge_to := edge_to e1;
                    edge_color := Some "#118811" |} ])) "#881111" graph2)) as Hlast.
  { intros i node Hnode. rewrite Hnodes2'. by exists node. }
  assert (graph_extends graph1 graph2) as Hmiddle.
  { intros i node Hnode. apply Hextends2. by rewrite Hnodes1'. }
  intros [[He| ->%list_elem_of_singleton]%elem_of_app| ->%list_elem_of_singleton]%elem_of_app.
  - eapply dot_edge_extends; [|by apply Hold].
    eapply graph_extends_trans; [exact Hextends1|].
    eapply graph_extends_trans; [exact Hmiddle | exact Hlast].
  - apply Hmine; [|done]. simpl. left. split; [|done].
    eapply pointer_edge_extends; [exact Hlast|].
    eapply pointer_edge_extends; [exact Hmiddle|]. by destruct branch_true.
  - apply Hmine; [|done]. simpl. right. split; [|done].
    eapply pointer_edge_extends; [exact Hlast|]. by destruct branch_false.
Qed.

(** X22. Every edge of the graph that [to_dot] builds has a reason.  Either
    it leaves the node of a block for a successor pointer of the instruction
    under which [dot_nodes_by_end] holds the node, the last one of the block,
    and leads to the node that [dot_nodes_by_begin] holds for the target of
    the pointer, or to a node labelled [missing] when the pointer is null; the edge for the true side of a branch is colored
    [#118811], the edge for the false side [#881111], and other edges have no
    color.  Or it is the edge from the node labelled [Entry], which leads to
    the node of the block that begins at the entry of the procedure, or to a
    node labelled [missing] when no entry is set. *)
Theorem to_dot_edges_sound items p state graph :
  (∀ map : gmap nat nat, items map ≡ₚ map_to_list map) →
  to_dot_blocks p = Some state → to_dot items p = Some graph →
  ∀ e, e ∈ graph_edges graph → dot_edge p state graph e.
Proof.
  intros Hitems Hblocks. unfold to_dot. rewrite Hblocks. cbn [mbind option_bind].
  destruct (for_each (to_dot_edges p (dot_nodes_by_begin state))
              (items (dot_nodes_by_end state)) (digraph state)) as [graph1|] eqn:Hloop;
    [cbn [mbind option_bind]|done].
  assert (∀ e, e ∈ graph_edges graph1 → dot_edge p state graph1 e) as Hblock_edges.
  { revert Hloop.
    apply (for_each_invariant _ (λ graph0, ∀ e, e ∈ graph_edges graph0 →
                                                dot_edge p state graph0 e)).
    - intros [block_end from_node] graph0 graph0' Hitem Hold Hstep.
      rewrite Hitems in Hitem. apply elem_of_map_to_list in Hitem.
      by eapply to_dot_edges_spec.
    - rewrite (to_dot_blocks_edges p state Hblocks). by intros e ?%elem_of_nil. }
  destruct (new_node "Entry" graph1) as [entry_node graph2] eqn:Hnode.
  injection Hnode as <- <-.
  destruct (create_edge _ _ (entry_ p) _) as [[edge graph3]|] eqn:Hcreate;
    [cbn [mbind option_bind]|done].
  intros [= <-] e.
  apply create_edge_spec in Hcreate as (Hextends & _ & e0 & Hedges & Hfrom & Hcolor & Hpointer).
  rewrite Hedges. simpl.
  assert (graph_extends graph1 graph3) as Hextends'.
  { eapply graph_extends_trans; [apply (new_node_extends "Entry")|].
    eapply graph_extends_trans; [apply set_shape_extends | exact Hextends]. }
  intros [He| ->%list_elem_of_singleton]%elem_of_app.
  - by eapply dot_edge_extends, Hblock_edges.
  - right. split_and!; [|done..].
    destruct (Hextends (length (graph_nodes graph1))
                {| node_label := "Entry"; node_shape := Some Circle |})
      as (node & Hnode & Hlabel).
    { simpl. by rewrite list_lookup_alter_eq, list_lookup_middle. }
    exists node. split; [by rewrite Hfrom | done].
Qed.

Lemma to_dot_edges_sound_witness :
  ∃ state graph,
    to_dot_blocks example_diamond = Some state ∧
    to_dot map_to_list example_diamond = Some graph ∧
    ∀ e, e ∈ graph_edges graph → dot_edge example_diamond state graph e.
Proof.
  eexists _, _. split; [vm_compute; reflexivity|]. split; [vm_compute; reflexivity|].
  apply (to_dot_edges_sound map_to_list example_diamond); [done|vm_compute; reflexivity..].
Defined.
